(** * The UTCP + OpenAI example: the tool-calling conversation loop

    A shallow embedding of [main], [getOpenAIResponse] and
    [formatToolsForPrompt] of the TypeScript full-LLM example, together with
    the JavaScript built-ins they rely on (non-global [String.prototype.match]
    for the two regular expressions of the program, [JSON.parse],
    [JSON.stringify], the [in] operator and template-literal conversion).

    Strings are sequences of UTF-16 code units.  The collaborators
    ([search_tools], [call_tool], the chat-completion endpoint) are supplied
    per turn as oracles; the loop threads the conversation history and a
    trace of what was sent to the collaborators and written as an answer. *)

From Stdlib Require Import Ascii String.
From Stdlib Require Import List NArith Bool Arith Lia.
Import ListNotations.

Set Implicit Arguments.

(* ================================================================== *)
(** * JavaScript strings *)
(* ================================================================== *)

(** A string is a list of UTF-16 code units. *)
Definition str := list N.

(** The code units of a literal of ASCII characters. *)
Definition js (s : string) : str := map N_of_ascii (list_ascii_of_string s).

(** The code units of a literal in which every apostrophe stands for a
    quotation mark. *)
Definition jsq (s : string) : str :=
  map (fun c => if N.eqb c 39 then 34%N else c) (js s).

(** The line feed, written [\n] in the source. *)
Definition LF : str := [10%N].

Fixpoint str_eqb (a b : str) : bool :=
  match a, b with
  | [], [] => true
  | x :: a', y :: b' => N.eqb x y && str_eqb a' b'
  | _, _ => false
  end.

(** [strip_prefix p s] is what follows [p] when [s] starts with [p]. *)
Fixpoint strip_prefix (p s : str) : option str :=
  match p with
  | [] => Some s
  | x :: p' =>
      match s with
      | [] => None
      | y :: s' => if N.eqb x y then strip_prefix p' s' else None
      end
  end.

(** [occurs p s]: [p] is a substring of [s] ([String.prototype.includes]). *)
Fixpoint occurs (p s : str) : bool :=
  match strip_prefix p s with
  | Some _ => true
  | None => match s with [] => false | _ :: s' => occurs p s' end
  end.

(** [String.prototype.toLowerCase] on the code units A-Z; the two words the
    loop compares with contain no letter that a code unit outside ASCII
    lowers to. *)
Definition lower_unit (c : N) : N :=
  if (N.leb 65 c && N.leb c 90)%bool then (c + 32)%N else c.

Definition toLowerCase (s : str) : str := map lower_unit s.

(* ================================================================== *)
(** * Regular expressions of the program *)
(* ================================================================== *)

Module Regex.

(** The pattern language needed for [/```json\n({.*?})\n```/s] and
    [/({.*})/s]: literal characters, the dot-star under the [s] flag (the
    dot matches every code unit) in its lazy and greedy forms, and the
    parentheses of capture group 1. *)
Inductive node :=
| Chars (lit : str)
| DotStarLazy
| DotStarGreedy
| GroupOpen
| GroupClose.

(** Backtracking match of a pattern anchored at the start of [s].  The
    result lists what remains of the input at every group parenthesis passed
    on the successful path.  The lazy star tries the continuation first and
    consumes one more code unit only when it fails; the greedy star consumes
    first and gives back one code unit at a time. *)
Fixpoint exec (p : list node) : str -> option (list str) :=
  match p with
  | [] => fun _ => Some []
  | Chars lit :: p' =>
      fun s => match strip_prefix lit s with
               | Some t => exec p' t
               | None => None
               end
  | DotStarLazy :: p' =>
      fix lazy (s : str) : option (list str) :=
        match exec p' s with
        | Some r => Some r
        | None => match s with [] => None | _ :: t => lazy t end
        end
  | DotStarGreedy :: p' =>
      fix greedy (s : str) : option (list str) :=
        match s with
        | [] => exec p' []
        | _ :: t => match greedy t with
                    | Some r => Some r
                    | None => exec p' s
                    end
        end
  | GroupOpen :: p' => fun s => option_map (cons s) (exec p' s)
  | GroupClose :: p' => fun s => option_map (cons s) (exec p' s)
  end.

(** An unanchored pattern is tried at every start position, leftmost first. *)
Fixpoint search (p : list node) (s : str) : option (list str) :=
  match exec p s with
  | Some r => Some r
  | None => match s with [] => None | _ :: t => search p t end
  end.

(** The text of capture group 1, from the input left at its two
    parentheses. *)
Definition group1 (marks : list str) : str :=
  match marks with
  | [o; c] => firstn (length o - length c) o
  | _ => []
  end.

(** [s.match(p)] for a pattern without the [g] flag: [None] is [null],
    [Some g] is a match array whose element 1 is [g]. *)
Definition match_ (p : list node) (s : str) : option str :=
  option_map group1 (search p s).

End Regex.

(* ================================================================== *)
(** * JSON values and [JSON.parse] *)
(* ================================================================== *)

(** Values thrown by JavaScript code, as far as the program reads them:
    [e instanceof Error ? e.message : String(e)]. *)
Inductive thrown :=
| ErrorObject (message : str)
| NonError (as_string : str).

Inductive outcome (A : Type) :=
| Return (a : A)
| Throw (e : thrown).
Arguments Return {A} a.
Arguments Throw {A} e.

Module JSON.

(** A number keeps its literal; an object keeps its members in property
    order. *)
#[warnings="-register-all"]
Inductive value :=
| Null
| Bool (b : bool)
| Num (literal : str)
| Str (s : str)
| Arr (items : list value)
| Obj (members : list (str * value)).

(** Own-property lookup. *)
Fixpoint get (k : str) (ms : list (str * value)) : option value :=
  match ms with
  | [] => None
  | (k', v) :: ms' => if str_eqb k k' then Some v else get k ms'
  end.

(** [CreateDataProperty]: a repeated key keeps its place and takes the new
    value. *)
Fixpoint put (k : str) (v : value) (ms : list (str * value)) : list (str * value) :=
  match ms with
  | [] => [(k, v)]
  | (k', v') :: ms' => if str_eqb k k' then (k', v) :: ms' else (k', v') :: put k v ms'
  end.

(** Result of a sub-parser: a value and the input left, a syntax error, or
    recursion budget exhausted (shown below never to happen from
    [parse]). *)
Inductive parsed (A : Type) :=
| Parsed (v : A) (rest : str)
| SyntaxErr
| NoFuel.
Arguments Parsed {A} v rest.
Arguments SyntaxErr {A}.
Arguments NoFuel {A}.

Definition is_ws (c : N) : bool :=
  (N.eqb c 32 || N.eqb c 9 || N.eqb c 10 || N.eqb c 13)%bool.

Fixpoint skip_ws (s : str) : str :=
  match s with
  | c :: t => if is_ws c then skip_ws t else s
  | [] => []
  end.

Definition is_digit (c : N) : bool := (N.leb 48 c && N.leb c 57)%bool.

Definition hex_digit (c : N) : option N :=
  if is_digit c then Some (c - 48)%N
  else if (N.leb 97 c && N.leb c 102)%bool then Some (c - 87)%N
  else if (N.leb 65 c && N.leb c 70)%bool then Some (c - 55)%N
  else None.

Definition hex4 (a b c d : N) : option N :=
  match hex_digit a, hex_digit b, hex_digit c, hex_digit d with
  | Some x, Some y, Some z, Some w => Some (((x * 16 + y) * 16 + z) * 16 + w)%N
  | _, _, _, _ => None
  end.

(** The escapes of one character after a backslash. *)
Definition simple_escape (e : N) : option N :=
  if N.eqb e 34 then Some 34%N          (* quote *)
  else if N.eqb e 92 then Some 92%N     (* backslash *)
  else if N.eqb e 47 then Some 47%N     (* solidus *)
  else if N.eqb e 98 then Some 8%N      (* b *)
  else if N.eqb e 102 then Some 12%N    (* f *)
  else if N.eqb e 110 then Some 10%N    (* n *)
  else if N.eqb e 114 then Some 13%N    (* r *)
  else if N.eqb e 116 then Some 9%N     (* t *)
  else None.

Definition pcons (c : N) (r : parsed str) : parsed str :=
  match r with
  | Parsed v rest => Parsed (c :: v) rest
  | SyntaxErr => SyntaxErr
  | NoFuel => NoFuel
  end.

(** The characters of a string literal, after its opening quote, up to and
    including the closing quote. *)
Fixpoint string_chars (s : str) : parsed str :=
  match s with
  | [] => SyntaxErr
  | c :: t =>
      if N.eqb c 34 then Parsed [] t
      else if N.eqb c 92 then
        match t with
        | [] => SyntaxErr
        | e :: t1 =>
            if N.eqb e 117 then
              match t1 with
              | a :: b :: c' :: d :: t2 =>
                  match hex4 a b c' d with
                  | Some u => pcons u (string_chars t2)
                  | None => SyntaxErr
                  end
              | _ => SyntaxErr
              end
            else
              match simple_escape e with
              | Some u => pcons u (string_chars t1)
              | None => SyntaxErr
              end
        end
      else if N.ltb c 32 then SyntaxErr
      else pcons c (string_chars t)
  end.

(** The longest prefix of digits and what follows it. *)
Fixpoint digits (s : str) : str * str :=
  match s with
  | c :: t => if is_digit c then let '(d, r) := digits t in (c :: d, r) else ([], s)
  | [] => ([], [])
  end.

(** A number literal: an optional minus sign; then a single zero, or a
    non-zero digit and any digits; then optionally a point and one or more
    digits; then optionally e or E, an optional sign and one or more
    digits.  Each part gives its characters and what follows. *)
Definition sign_part (s : str) : str * str :=
  match s with
  | c :: t => if N.eqb c 45 then ([c], t) else ([], s)
  | [] => ([], s)
  end.

Definition int_part (s : str) : option (str * str) :=
  match s with
  | c :: t =>
      if N.eqb c 48 then Some ([c], t)
      else if is_digit c then let '(d, r) := digits t in Some (c :: d, r)
      else None
  | [] => None
  end.

Definition frac_part (s : str) : option (str * str) :=
  match s with
  | c :: t =>
      if N.eqb c 46 then
        match digits t with
        | ([], _) => None
        | (d, r) => Some (c :: d, r)
        end
      else Some ([], s)
  | [] => Some ([], s)
  end.

Definition exp_sign (s : str) : str * str :=
  match s with
  | c :: t => if (N.eqb c 43 || N.eqb c 45)%bool then ([c], t) else ([], s)
  | [] => ([], s)
  end.

Definition exp_part (s : str) : option (str * str) :=
  match s with
  | c :: t =>
      if (N.eqb c 101 || N.eqb c 69)%bool then
        let '(sg, t') := exp_sign t in
        match digits t' with
        | ([], _) => None
        | (d, r) => Some (c :: sg ++ d, r)
        end
      else Some ([], s)
  | [] => Some ([], s)
  end.

Definition number (s : str) : parsed str :=
  let '(sg, s1) := sign_part s in
  match int_part s1 with
  | None => SyntaxErr
  | Some (i, s2) =>
      match frac_part s2 with
      | None => SyntaxErr
      | Some (f, s3) =>
          match exp_part s3 with
          | None => SyntaxErr
          | Some (e, s4) => Parsed (sg ++ i ++ f ++ e) s4
          end
      end
  end.

Definition keyword (w : str) (v : value) (s : str) : parsed value :=
  match strip_prefix w s with
  | Some rest => Parsed v rest
  | None => SyntaxErr
  end.

Definition pmap {A B : Type} (f : A -> B) (r : parsed A) : parsed B :=
  match r with
  | Parsed v rest => Parsed (f v) rest
  | SyntaxErr => SyntaxErr
  | NoFuel => NoFuel
  end.

(** Recursive descent over the JSON grammar.  [value_] skips leading white
    space; [members] and [elements] start at the first character of a member
    or element and run to the closing bracket. *)
Fixpoint value_ (fuel : nat) (s : str) : parsed value :=
  match fuel with
  | O => NoFuel
  | S f =>
      match skip_ws s with
      | [] => SyntaxErr
      | c :: t =>
          if N.eqb c 123 then                       (* { *)
            match skip_ws t with
            | c' :: t' =>
                if N.eqb c' 125 then Parsed (Obj []) t'
                else pmap Obj (members f (c' :: t') [])
            | [] => SyntaxErr
            end
          else if N.eqb c 91 then                   (* [ *)
            match skip_ws t with
            | c' :: t' =>
                if N.eqb c' 93 then Parsed (Arr []) t'
                else pmap Arr (elements f (c' :: t'))
            | [] => SyntaxErr
            end
          else if N.eqb c 34 then pmap Str (string_chars t)
          else if N.eqb c 116 then keyword (js "true") (Bool true) (c :: t)
          else if N.eqb c 102 then keyword (js "false") (Bool false) (c :: t)
          else if N.eqb c 110 then keyword (js "null") Null (c :: t)
          else pmap Num (number (c :: t))
      end
  end
with members (fuel : nat) (s : str) (acc : list (str * value)) : parsed (list (str * value)) :=
  match fuel with
  | O => NoFuel
  | S f =>
      match s with
      | [] => SyntaxErr
      | q :: t =>
          if N.eqb q 34 then
            match string_chars t with
            | Parsed k r =>
                match skip_ws r with
                | c :: r1 =>
                    if N.eqb c 58 then                  (* : *)
                      match value_ f r1 with
                      | Parsed v r2 =>
                          match skip_ws r2 with
                          | d :: r3 =>
                              if N.eqb d 44 then members f (skip_ws r3) (put k v acc)
                              else if N.eqb d 125 then Parsed (put k v acc) r3
                              else SyntaxErr
                          | [] => SyntaxErr
                          end
                      | SyntaxErr => SyntaxErr
                      | NoFuel => NoFuel
                      end
                    else SyntaxErr
                | [] => SyntaxErr
                end
            | SyntaxErr => SyntaxErr
            | NoFuel => NoFuel
            end
          else SyntaxErr
      end
  end
with elements (fuel : nat) (s : str) : parsed (list value) :=
  match fuel with
  | O => NoFuel
  | S f =>
      match value_ f s with
      | Parsed v r =>
          match skip_ws r with
          | d :: r1 =>
              if N.eqb d 44 then pmap (cons v) (elements f r1)
              else if N.eqb d 93 then Parsed [v] r1
              else SyntaxErr
          | [] => SyntaxErr
          end
      | SyntaxErr => SyntaxErr
      | NoFuel => NoFuel
      end
  end.

(** The message of the [SyntaxError] is engine-specific; the program never
    reads it. *)
Definition syntax_error : thrown := ErrorObject (js "Unexpected token in JSON").

(** [JSON.parse(text)]: one value, then only white space.  The recursion
    budget is two steps for every code unit and one more. *)
Definition parse (text : str) : outcome value :=
  match value_ (2 * length text + 1) text with
  | Parsed v rest =>
      match skip_ws rest with
      | [] => Return v
      | _ :: _ => Throw syntax_error
      end
  | SyntaxErr => Throw syntax_error
  | NoFuel => Throw syntax_error
  end.

(** ** What a successful parse has read *)

(** No line feed is directly followed by a backtick. *)
Fixpoint no_lf_backtick (s : str) : bool :=
  match s with
  | x :: t =>
      match t with
      | y :: _ => negb (N.eqb x 10 && N.eqb y 96) && no_lf_backtick t
      | [] => true
      end
  | [] => true
  end.

Definition starts_well (s : str) : bool :=
  match s with
  | c :: _ => negb (N.eqb c 96)
  | [] => true
  end.

Fixpoint ends_well (s : str) : bool :=
  match s with
  | [] => true
  | [c] => negb (N.eqb c 10)
  | _ :: t => ends_well t
  end.

(** Text that can be read by a sub-parser: it is not empty, does not start
    with a backtick, does not end with a line feed, and has no line feed
    directly followed by a backtick. *)
Definition readable (c : str) : Prop :=
  c <> [] /\ starts_well c = true /\ ends_well c = true /\ no_lf_backtick c = true.

(** A code unit that is neither a line feed nor a backtick. *)
Definition plain (x : N) : Prop := x <> 10%N /\ x <> 96%N.

(** Text without a line feed, as the inside of a string literal is. *)
Definition one_line (c : str) : Prop :=
  c <> [] /\ Forall (fun x => x <> 10%N) c.

(** A sub-parser ran within its budget, and what it read satisfies [P]. *)
Definition reads_with (P : str -> Prop) {A : Type} (s : str) (r : parsed A) : Prop :=
  match r with
  | Parsed _ rest => exists c, s = c ++ rest /\ P c
  | SyntaxErr => True
  | NoFuel => False
  end.

Definition reads {A : Type} (s : str) (r : parsed A) : Prop := reads_with readable s r.

End JSON.


(* ================================================================== *)
(** * [JSON.stringify] and string conversion *)
(* ================================================================== *)

Fixpoint join (sep : str) (parts : list str) : str :=
  match parts with
  | [] => []
  | [p] => p
  | p :: rest => p ++ sep ++ join sep rest
  end.

Module Serialize.
Import JSON.

Definition hex_char (n : N) : N := if N.ltb n 10 then (48 + n)%N else (87 + n)%N.

(** The six-character escape of a code unit, with lower-case digits. *)
Definition unicode_escape (c : N) : str :=
  [92; 117; hex_char (c / 4096); hex_char ((c / 256) mod 16);
   hex_char ((c / 16) mod 16); hex_char (c mod 16)]%N.

Definition is_lead (c : N) : bool := (N.leb 55296 c && N.leb c 56319)%bool.
Definition is_trail (c : N) : bool := (N.leb 56320 c && N.leb c 57343)%bool.

Definition escape_unit (c : N) : str :=
  if N.eqb c 8 then js "\b"
  else if N.eqb c 9 then js "\t"
  else if N.eqb c 10 then js "\n"
  else if N.eqb c 12 then js "\f"
  else if N.eqb c 13 then js "\r"
  else if N.eqb c 34 then [92; 34]%N
  else if N.eqb c 92 then [92; 92]%N
  else if N.ltb c 32 then unicode_escape c
  else [c].

(** [QuoteJSONString] without its quotation marks: a surrogate is kept
    only as half of a pair. *)
Fixpoint quote_units (s : str) : str :=
  match s with
  | [] => []
  | c :: t =>
      if is_lead c then
        match t with
        | d :: t' =>
            if is_trail d then c :: d :: quote_units t'
            else unicode_escape c ++ quote_units t
        | [] => unicode_escape c
        end
      else if is_trail c then unicode_escape c ++ quote_units t
      else escape_unit c ++ quote_units t
  end.

Definition quote (s : str) : str := [34%N] ++ quote_units s ++ [34%N].

Section WithNumbers.

(** [Number::toString] of the number a literal denotes (the shortest
    round-trip rendering of an IEEE double) is left to the host. *)
Variable Number_toString : str -> str.

(** [SerializeJSONProperty] on plain data, with the gap of the third
    argument of [JSON.stringify] and the current indentation. *)
Fixpoint serialize (gap indent : str) (v : value) : str :=
  let inner := indent ++ gap in
  let wrap (opening closing : str) (parts : list str) : str :=
    match gap with
    | [] => opening ++ join (js ",") parts ++ closing
    | _ :: _ => opening ++ LF ++ inner ++ join (js "," ++ LF ++ inner) parts
                ++ LF ++ indent ++ closing
    end in
  match v with
  | Null => js "null"
  | Bool true => js "true"
  | Bool false => js "false"
  | Num literal => Number_toString literal
  | Str s => quote s
  | Arr [] => js "[]"
  | Arr items => wrap (js "[") (js "]") (map (serialize gap inner) items)
  | Obj [] => js "{}"
  | Obj ms =>
      wrap (js "{") (js "}")
        (map (fun kv : str * value =>
                quote (fst kv) ++ js ":"
                ++ match gap with [] => [] | _ :: _ => js " " end
                ++ serialize gap inner (snd kv))
             ms)
  end.

(** [JSON.stringify(v)] and [JSON.stringify(v, null, 2)] on plain data. *)
Definition stringify (v : value) : str := serialize [] [] v.
Definition stringify_indent2 (v : value) : str := serialize (js "  ") [] v.

Definition type_error : thrown :=
  ErrorObject (js "Cannot convert object to primitive value").

(** [ToString] of a value obtained from [JSON.parse], as a template literal
    applies it.  An object is rendered by [Object.prototype.toString] unless
    it has an own [toString] member, which cannot be a function: the
    conversion then throws a [TypeError].  An array joins the conversions of
    its elements, [null] giving the empty string. *)
Fixpoint ToString (v : value) : outcome str :=
  match v with
  | Null => Return (js "null")
  | Bool true => Return (js "true")
  | Bool false => Return (js "false")
  | Num literal => Return (Number_toString literal)
  | Str s => Return s
  | Arr items =>
      match
        (fix elems (l : list value) : outcome (list str) :=
           match l with
           | [] => Return []
           | x :: l' =>
               match (match x with Null => Return [] | _ => ToString x end) with
               | Throw e => Throw e
               | Return sx =>
                   match elems l' with
                   | Throw e => Throw e
                   | Return sl => Return (sx :: sl)
                   end
               end
           end) items
      with
      | Return parts => Return (join (js ",") parts)
      | Throw e => Throw e
      end
  | Obj ms =>
      match get (js "toString") ms with
      | Some _ => Throw type_error
      | None => Return (js "[object Object]")
      end
  end.

End WithNumbers.
End Serialize.

(* ================================================================== *)
(** * The conversation loop *)
(* ================================================================== *)

(** [ChatCompletionMessageParam], as the program builds it. *)
Inductive Role := system | user | assistant.

Record Message := { role : Role; content : str }.

(** A tool descriptor of the UTCP SDK is plain data; the program only
    serializes it. *)
Definition Tool := JSON.value.

(** What [call_tool] resolves to, by what [JSON.stringify] does with it:
    plain data, a value without a JSON form ([undefined], a function), or a
    value on which serialization throws (a cycle, a BigInt). *)
Inductive tool_result :=
| Data (v : JSON.value)
| NoJsonForm
| Unserializable (e : thrown).

(** What [chat.completions.create] resolves to: a rejection, or a response
    with the [message.content] of its choices ([None] is [null]). *)
Inductive api_reply :=
| Rejected (e : thrown)
| Completion (choices : list (option str)).

(** The collaborators during one turn.  [completions_create n] answers the
    [n]-th request of the turn to the chat-completion endpoint. *)
Record world := {
  search_tools : str -> nat -> outcome (list Tool);
  completions_create : nat -> list Message -> api_reply;
  call_tool : JSON.value -> JSON.value -> outcome tool_result
}.

(** What the loop does to the outside: requests to the collaborators, and
    the two kinds of answer line it writes, [Assistant: ...] and
    [Assistant's interpretation: ...].  The progress and diagnostic lines
    carry no state and are left out, except for the conversions in them that
    can throw. *)
Inductive event :=
| EvSearch (query : str) (limit : nat)
| EvChat (messages : list Message)
| EvCallTool (toolName arguments_ : JSON.value)
| EvAssistant (text : str)
| EvInterpretation (text : str).

Record state := {
  conversationHistory : list Message;
  trace : list event
}.

(** Computations of the loop: they read and extend the state, and return
    or throw; a throw keeps the state reached. *)
Definition M (A : Type) : Type := state -> outcome A * state.

Definition ret {A : Type} (a : A) : M A := fun st => (Return a, st).

Definition bind {A B : Type} (m : M A) (k : A -> M B) : M B :=
  fun st =>
    match m st with
    | (Return a, st') => k a st'
    | (Throw e, st') => (Throw e, st')
    end.

Definition lift {A : Type} (o : outcome A) : M A := fun st => (o, st).

Definition try_catch {A : Type} (body : M A) (handler : thrown -> M A) : M A :=
  fun st =>
    match body st with
    | (Return a, st') => (Return a, st')
    | (Throw e, st') => handler e st'
    end.

Declare Scope loop_scope.
Delimit Scope loop_scope with loop.
Notation "x <- m ;; k" := (bind m (fun x => k))
  (at level 61, m at next level, right associativity) : loop_scope.
Notation "m ;; k" := (bind m (fun _ => k))
  (at level 61, right associativity) : loop_scope.

Definition push (m : Message) : M unit :=
  fun st => (Return tt, {| conversationHistory := conversationHistory st ++ [m];
                           trace := trace st |}).

Definition emit (e : event) : M unit :=
  fun st => (Return tt, {| conversationHistory := conversationHistory st;
                           trace := trace st ++ [e] |}).

Definition read_history : M (list Message) :=
  fun st => (Return (conversationHistory st), st).

(** [e instanceof Error ? e.message : String(e)] *)
Definition error_text (e : thrown) : str :=
  match e with
  | ErrorObject message => message
  | NonError as_string => as_string
  end.

Definition undefined_property : thrown :=
  ErrorObject (js "Cannot read properties of undefined (reading 'message')").

Definition not_an_object : thrown :=
  ErrorObject (js "Cannot use 'in' operator to search for a key in a primitive").

(** [content || '']: [null] and the empty string both give the empty
    string. *)
Definition or_empty (content : option str) : str :=
  match content with
  | Some t => t
  | None => []
  end.

(** [response.choices\[0\]!!.message.content || '']. The [!!] is a
    compile-time assertion; with no choice the property read throws. *)
Definition response_content (response : api_reply) : outcome str :=
  match response with
  | Rejected e => Throw e
  | Completion [] => Throw undefined_property
  | Completion (content :: _) => Return (or_empty content)
  end.

(** The two patterns of the program. *)
Definition fenced_json_re : list Regex.node :=
  [Regex.Chars (js "```json" ++ LF); Regex.GroupOpen; Regex.Chars (js "{");
   Regex.DotStarLazy; Regex.Chars (js "}"); Regex.GroupClose;
   Regex.Chars (LF ++ js "```")].

Definition braces_re : list Regex.node :=
  [Regex.GroupOpen; Regex.Chars (js "{"); Regex.DotStarGreedy;
   Regex.Chars (js "}"); Regex.GroupClose].

(** [assistantResponse.match(fenced) || assistantResponse.match(braces)] *)
Definition jsonMatch (assistantResponse : str) : option str :=
  match Regex.match_ fenced_json_re assistantResponse with
  | Some g => Some g
  | None => Regex.match_ braces_re assistantResponse
  end.

(** The fixed part of [systemPrompt]. *)
Definition instructions : str :=
  js "You are a helpful assistant. When you need to use a tool, you MUST respond with a JSON object "
  ++ js "with 'tool_name' and 'arguments' keys. Do not add any other text. The arguments must be a JSON object."
  ++ jsq "For example: {'tool_name': 'some_tool.name', 'arguments': {'arg1': 'value1'}}. "
  ++ js "Here are the available tools:" ++ LF.

(** The two tests ["tool_name" in toolCallData && "arguments" in
    toolCallData] and the two property reads that follow them.  Neither key
    is defined by [Object.prototype] or [Array.prototype], so on an object
    [in] is own-key presence and on an array it is false; on a primitive
    [in] throws a [TypeError]. *)
Definition tool_call_keys (toolCallData : JSON.value)
  : outcome (option (JSON.value * JSON.value)) :=
  match toolCallData with
  | JSON.Obj ms =>
      match JSON.get (js "tool_name") ms, JSON.get (js "arguments") ms with
      | Some toolName, Some arguments_ => Return (Some (toolName, arguments_))
      | _, _ => Return None
      end
  | JSON.Arr _ => Return None
  | _ => Throw not_an_object
  end.

(** The body of the outer [try] up to the tests of the two keys, and the
    whole of the interpretation of a reply: a throw in the body is caught and
    the reply is then a plain one. *)
Definition interpret_try (jsonString : str) : outcome (option (JSON.value * JSON.value)) :=
  match JSON.parse jsonString with
  | Return toolCallData => tool_call_keys toolCallData
  | Throw e => Throw e
  end.

Definition interpret (assistantResponse : str) : option (JSON.value * JSON.value) :=
  match jsonMatch assistantResponse with
  | None => None
  | Some jsonString =>
      match interpret_try jsonString with
      | Return keys => keys
      | Throw _ => None
      end
  end.

(** ** The two patterns in words *)

(** The text before and after the leftmost occurrence of [pat]. *)
Fixpoint split_first (pat s : str) : option (str * str) :=
  match strip_prefix pat s with
  | Some rest => Some ([], rest)
  | None =>
      match s with
      | [] => None
      | c :: t =>
          match split_first pat t with
          | Some (before, rest) => Some (c :: before, rest)
          | None => None
          end
      end
  end.

(** The prefix of [s] that ends with the last occurrence of [c], and what
    follows it. *)
Fixpoint split_last (c : N) (s : str) : option (str * str) :=
  match s with
  | [] => None
  | x :: t =>
      match split_last c t with
      | Some (upto, rest) => Some (x :: upto, rest)
      | None => if N.eqb c x then Some ([x], t) else None
      end
  end.

Definition fence_open : str := js "```json" ++ LF ++ js "{".
Definition fence_close : str := js "}" ++ LF ++ js "```".

(** From the brace of the first opening fence line followed by a brace, to
    the first closing brace that is followed by a line break and a fence. *)
Definition fenced_span (s : str) : option str :=
  match split_first fence_open s with
  | None => None
  | Some (_, after) =>
      match split_first fence_close after with
      | None => None
      | Some (body, _) => Some (js "{" ++ body ++ js "}")
      end
  end.

(** From the first opening brace of the text to its last closing brace. *)
Definition brace_span (s : str) : option str :=
  match split_first (js "{") s with
  | None => None
  | Some (_, after) =>
      match split_last 125 after with
      | None => None
      | Some (upto, _) => Some (js "{" ++ upto)
      end
  end.

Definition candidate (s : str) : option str :=
  match fenced_span s with
  | Some c => Some c
  | None => brace_span s
  end.

(** ** Counting in a trace *)

Definition is_call (e : event) : bool :=
  match e with EvCallTool _ _ => true | _ => false end.
Definition is_interpretation (e : event) : bool :=
  match e with EvInterpretation _ => true | _ => false end.
Definition is_plain_answer (e : event) : bool :=
  match e with EvAssistant _ => true | _ => false end.

(** Tool calls made; turns completed with a tool, which end in an
    interpretation line; and plain answers written. *)
Definition tool_calls (tr : list event) : nat := length (filter is_call tr).
Definition tool_turns (tr : list event) : nat := length (filter is_interpretation tr).
Definition plain_turns (tr : list event) : nat := length (filter is_plain_answer tr).

(** A request to the endpoint starts with message [m]. *)
Definition chat_headed_by (m : Message) (e : event) : Prop :=
  match e with
  | EvChat messages => hd_error messages = Some m
  | _ => True
  end.

Definition not_a_chat (e : event) : Prop :=
  match e with
  | EvChat _ => False
  | _ => True
  end.

(** The history holds one message for every interpretation line and two
    for every plain answer and for every tool call. *)
Definition balanced (st : state) : Prop :=
  length (conversationHistory st) =
  tool_turns (trace st) + 2 * plain_turns (trace st) + 2 * tool_calls (trace st).

Section Loop.

Variable Number_toString : str -> str.

(** [formatToolsForPrompt] *)
Definition formatToolsForPrompt (tools : list Tool) : str :=
  Serialize.stringify_indent2 Number_toString (JSON.Arr tools).

Definition systemPrompt (relevantTools : list Tool) : str :=
  instructions ++ formatToolsForPrompt relevantTools.

(** [getOpenAIResponse] *)
Definition getOpenAIResponse (api : list Message -> api_reply)
    (messages : list Message) : M str :=
  (emit (EvChat messages) ;;
   lift (response_content (api messages)))%loop.

(** The plain-reply branch, written three times in the source. *)
Definition plain_reply (userPrompt assistantResponse : str) : M unit :=
  (emit (EvAssistant assistantResponse) ;;
   push {| role := user; content := userPrompt |} ;;
   push {| role := assistant; content := assistantResponse |})%loop.

(** The inner [try]: call the tool, write and serialize its result; on a
    throw, the error message. [None] is [undefined]. *)
Definition run_tool (w : world) (toolName arguments_ : JSON.value) : M (option str) :=
  try_catch
    (emit (EvCallTool toolName arguments_) ;;
     result <- lift (call_tool w toolName arguments_) ;;
     match result with
     | Data v => ret (Some (Serialize.stringify Number_toString v))
     | NoJsonForm => ret None
     | Unserializable e => lift (Throw e)
     end)%loop
    (fun e =>
       name <- lift (Serialize.ToString Number_toString toolName) ;;
       ret (Some (js "Error calling " ++ name ++ js ": " ++ error_text e)))%loop.

(** [`Tool output: ${toolOutput}`] *)
Definition tool_output_message (toolOutput : option str) : Message :=
  {| role := user;
     content := js "Tool output: "
                ++ match toolOutput with Some s => s | None => js "undefined" end |}.

Definition systemMessage (relevantTools : list Tool) : Message :=
  {| role := system; content := systemPrompt relevantTools |}.

(** [messages] and [followUpMessages], from the history at the time each is
    built. *)
Definition messages_of (relevantTools : list Tool) (history : list Message)
    (userPrompt : str) : list Message :=
  systemMessage relevantTools :: history ++ [{| role := user; content := userPrompt |}].

Definition followUpMessages_of (relevantTools : list Tool) (history : list Message)
    (toolOutput : option str) : list Message :=
  systemMessage relevantTools :: history ++ [tool_output_message toolOutput].

(** One iteration of the [while] loop after the prompt has been read and
    found not to be an exit word. *)
Definition turn (w : world) (userPrompt : str) : M unit :=
  (emit (EvSearch userPrompt 10) ;;
   relevantTools <- lift (search_tools w userPrompt 10) ;;
   history <- read_history ;;
   let messages := messages_of relevantTools history userPrompt in
   assistantResponse <- getOpenAIResponse (completions_create w 0) messages ;;
   match jsonMatch assistantResponse with
   | Some group =>
       let jsonString := group in      (* a capture is never empty: [|| ''] keeps it *)
       try_catch
         (toolCallData <- lift (JSON.parse jsonString) ;;
          keys <- lift (tool_call_keys toolCallData) ;;
          match keys with
          | Some (toolName, arguments_) =>
              (* the line [Executing tool call: ${toolName}] *)
              _ <- lift (Serialize.ToString Number_toString toolName) ;;
              toolOutput <- run_tool w toolName arguments_ ;;
              push {| role := user; content := userPrompt |} ;;
              push {| role := assistant; content := assistantResponse |} ;;
              history' <- read_history ;;
              let followUpMessages := followUpMessages_of relevantTools history' toolOutput in
              finalResponse <- getOpenAIResponse (completions_create w 1) followUpMessages ;;
              emit (EvInterpretation finalResponse) ;;
              push {| role := assistant; content := finalResponse |}
          | None => plain_reply userPrompt assistantResponse
          end)
         (fun _ => plain_reply userPrompt assistantResponse)
   | None => plain_reply userPrompt assistantResponse
   end)%loop.

(** What the inner [try] leaves in [toolOutput], given the text [name] of
    the tool name. *)
Definition tool_output (w : world) (toolName arguments_ : JSON.value) (name : str)
  : option str :=
  let failure (e : thrown) := Some (js "Error calling " ++ name ++ js ": " ++ error_text e) in
  match call_tool w toolName arguments_ with
  | Return (Data v) => Some (Serialize.stringify Number_toString v)
  | Return NoJsonForm => None
  | Return (Unserializable e) => failure e
  | Throw e => failure e
  end.

(** The state after messages were appended and events recorded. *)
Definition extend (st : state) (added : list Message) (events : list event) : state :=
  {| conversationHistory := conversationHistory st ++ added;
     trace := trace st ++ events |}.

(** The five ways through one turn, by what the collaborators answer. *)
Inductive turn_runs (w : world) (userPrompt : str) (st : state)
  : outcome unit -> state -> Prop :=
| Run_search_failed (e : thrown) :
    search_tools w userPrompt 10 = Throw e ->
    turn_runs w userPrompt st (Throw e) (extend st [] [EvSearch userPrompt 10])
| Run_first_request_failed (tools : list Tool) (e : thrown) :
    let messages := messages_of tools (conversationHistory st) userPrompt in
    search_tools w userPrompt 10 = Return tools ->
    response_content (completions_create w 0 messages) = Throw e ->
    turn_runs w userPrompt st (Throw e)
      (extend st [] [EvSearch userPrompt 10; EvChat messages])
| Run_plain (tools : list Tool) (assistantResponse : str) :
    let messages := messages_of tools (conversationHistory st) userPrompt in
    search_tools w userPrompt 10 = Return tools ->
    response_content (completions_create w 0 messages) = Return assistantResponse ->
    (interpret assistantResponse = None \/
     exists toolName arguments_ e,
       interpret assistantResponse = Some (toolName, arguments_) /\
       Serialize.ToString Number_toString toolName = Throw e) ->
    turn_runs w userPrompt st (Return tt)
      (extend st
         [{| role := user; content := userPrompt |};
          {| role := assistant; content := assistantResponse |}]
         [EvSearch userPrompt 10; EvChat messages; EvAssistant assistantResponse])
| Run_tool (tools : list Tool) (assistantResponse : str)
    (toolName arguments_ : JSON.value) (name finalResponse : str) :
    let messages := messages_of tools (conversationHistory st) userPrompt in
    let history' := conversationHistory st ++
                    [{| role := user; content := userPrompt |};
                     {| role := assistant; content := assistantResponse |}] in
    let followUpMessages :=
      followUpMessages_of tools history' (tool_output w toolName arguments_ name) in
    search_tools w userPrompt 10 = Return tools ->
    response_content (completions_create w 0 messages) = Return assistantResponse ->
    interpret assistantResponse = Some (toolName, arguments_) ->
    Serialize.ToString Number_toString toolName = Return name ->
    response_content (completions_create w 1 followUpMessages) = Return finalResponse ->
    turn_runs w userPrompt st (Return tt)
      (extend st
         [{| role := user; content := userPrompt |};
          {| role := assistant; content := assistantResponse |};
          {| role := assistant; content := finalResponse |}]
         [EvSearch userPrompt 10; EvChat messages; EvCallTool toolName arguments_;
          EvChat followUpMessages; EvInterpretation finalResponse])
| Run_second_request_failed (tools : list Tool) (assistantResponse : str)
    (toolName arguments_ : JSON.value) (name : str) (e : thrown) :
    let messages := messages_of tools (conversationHistory st) userPrompt in
    let history' := conversationHistory st ++
                    [{| role := user; content := userPrompt |};
                     {| role := assistant; content := assistantResponse |}] in
    let followUpMessages :=
      followUpMessages_of tools history' (tool_output w toolName arguments_ name) in
    search_tools w userPrompt 10 = Return tools ->
    response_content (completions_create w 0 messages) = Return assistantResponse ->
    interpret assistantResponse = Some (toolName, arguments_) ->
    Serialize.ToString Number_toString toolName = Return name ->
    response_content (completions_create w 1 followUpMessages) = Throw e ->
    turn_runs w userPrompt st (Return tt)
      (extend st
         [{| role := user; content := userPrompt |};
          {| role := assistant; content := assistantResponse |};
          {| role := user; content := userPrompt |};
          {| role := assistant; content := assistantResponse |}]
         [EvSearch userPrompt 10; EvChat messages; EvCallTool toolName arguments_;
          EvChat followUpMessages; EvAssistant assistantResponse]).

(** How the session stands when the scripted input is used up. *)
Inductive loop_exit := Break | MoreInput.

Definition is_exit_word (userPrompt : str) : bool :=
  (str_eqb (toLowerCase userPrompt) (js "exit")
   || str_eqb (toLowerCase userPrompt) (js "quit"))%bool.

(** The [while (true)] loop on a script of prompts, each with the
    collaborators' behaviour during its turn. *)
Fixpoint loop (script : list (str * world)) : M loop_exit :=
  match script with
  | [] => ret MoreInput
  | (userPrompt, w) :: rest =>
      if is_exit_word userPrompt then ret Break
      else (turn w userPrompt ;; loop rest)%loop
  end.

(** How [main] ends: waiting for the next prompt, returned after an exit
    word, or rejected, which the caller reports before [process.exit(1)]. *)
Inductive ending :=
| AwaitingInput
| Exited
| Crashed (err : thrown).

Definition initial : state := {| conversationHistory := []; trace := [] |}.

Definition main_from (st : state) (script : list (str * world)) : ending * state :=
  match loop script st with
  | (Return MoreInput, st') => (AwaitingInput, st')
  | (Return Break, st') => (Exited, st')
  | (Throw e, st') => (Crashed e, st')
  end.

Definition main (script : list (str * world)) : ending * state :=
  main_from initial script.

End Loop.

(* ================================================================== *)
(** * Scripted collaborators *)
(* ================================================================== *)

Module Examples.

(** A rendering of number literals that prints them as they are written. *)
Definition literal_text (literal : str) : str := literal.

(** Collaborators that ignore their requests: the search finds [tools], the
    [n]-th request of the turn to the endpoint is answered by the [n]-th
    reply, and every tool call ends in [result]. *)
Definition scripted (tools : list Tool) (replies : list api_reply)
    (result : outcome tool_result) : world :=
  {| search_tools := fun _ _ => Return tools;
     completions_create := fun n _ => nth n replies (Completion []);
     call_tool := fun _ _ => result |}.

Definition echo_tool : Tool :=
  JSON.Obj [(js "name", JSON.Str (js "svc.echo"));
            (js "description", JSON.Str (js "Echoes a value."))].

Definition echo_directive : str :=
  jsq "{'tool_name':'svc.echo','arguments':{'value':'hi'}}".

Definition echo_name : JSON.value := JSON.Str (js "svc.echo").
Definition echo_arguments : JSON.value := JSON.Obj [(js "value", JSON.Str (js "hi"))].

Definition echo_world : world :=
  scripted [echo_tool]
    [Completion [Some echo_directive]; Completion [Some (js "The tool received hi.")]]
    (Return (Data (JSON.Obj [(js "received", JSON.Str (js "hi"))]))).

Definition timeout_world : world :=
  scripted [echo_tool]
    [Completion [Some echo_directive]; Completion [Some (js "The tool timed out.")]]
    (Throw (ErrorObject (js "timeout"))).

Definition flaky_world : world :=
  scripted [echo_tool]
    [Completion [Some echo_directive]; Rejected (ErrorObject (js "503"))]
    (Return (Data (JSON.Obj [(js "received", JSON.Str (js "hi"))]))).

Definition down_world : world :=
  scripted [] [Rejected (ErrorObject (js "503"))] (Return NoJsonForm).

Definition chat_world : world :=
  scripted [] [Completion [Some (js "Hello!")]] (Return NoJsonForm).

Definition silent_world : world :=
  scripted [] [Completion [None]] (Return NoJsonForm).

Definition mute_tool_world : world :=
  scripted [echo_tool] [Completion [Some echo_directive]; Completion [Some []]]
    (Return (Data (JSON.Obj [(js "received", JSON.Str (js "hi"))]))).



(** A reply whose tool name is an object with a member called [toString]. *)
Definition odd_directive : str := jsq "{'tool_name':{'toString':1},'arguments':{}}".

Definition odd_world : world :=
  scripted [] [Completion [Some odd_directive]; Completion [Some (js "Done.")]]
    (Return NoJsonForm).

(** Sessions of one or two prompts. *)
Definition down_session : list (str * world) :=
  [(js "hello", down_world); (js "again", chat_world)].
Definition echo_session : list (str * world) := [(js "say hi", echo_world)].
Definition mixed_session : list (str * world) :=
  [(js "say hi", echo_world); (js "hello", chat_world)].
Definition flaky_session : list (str * world) := [(js "say hi", flaky_world)].
Definition silent_session : list (str * world) := [(js "hello", silent_world)].

(** A reply with an object that is not a directive before one that is. *)
Definition two_objects : str :=
  jsq "{'a':1} {'tool_name':'svc.echo','arguments':{'value':'hi'}}".

(** A reply with two fenced blocks, the directive in the second. *)
Definition two_fences : str :=
  js "```json" ++ LF ++ jsq "{'a':1}" ++ LF ++ js "```" ++ LF
  ++ js "```json" ++ LF ++ echo_directive ++ LF ++ js "```".

(** A reply with one fenced directive between two sentences. *)
Definition fenced_reply : str :=
  js "I will call the tool." ++ LF ++ js "```json" ++ LF ++ echo_directive ++ LF
  ++ js "```" ++ LF ++ js "One moment.".

(** An object with the two keys, neither value of the type the data model
    names. *)
Definition untyped_directive : str := jsq "{'tool_name': 5, 'arguments': 7}".

End Examples.

(* ================================================================== *)
(** * More to read off a trace and a history *)
(* ================================================================== *)

(** The requests of a trace to the chat-completion endpoint, in order. *)
Fixpoint chats_of (tr : list event) : list (list Message) :=
  match tr with
  | [] => []
  | EvChat messages :: tr' => messages :: chats_of tr'
  | _ :: tr' => chats_of tr'
  end.

(** The searches of a trace, in order. *)
Fixpoint searches_of (tr : list event) : list (str * nat) :=
  match tr with
  | [] => []
  | EvSearch query limit :: tr' => (query, limit) :: searches_of tr'
  | _ :: tr' => searches_of tr'
  end.

(** A history that is empty, or begins with a message of the user and ends
    with a message of the assistant. *)
Definition framed (h : list Message) : Prop :=
  h = [] \/
  ((exists p t, h = {| role := user; content := p |} :: t) /\
   (exists t c, h = t ++ [{| role := assistant; content := c |}])).

(** The collaborators of a turn that never fail where a failure ends the
    session: the search and the first request. *)
Definition dependable (w : world) : Prop :=
  (forall query limit, exists tools, search_tools w query limit = Return tools) /\
  (forall messages, exists text,
     response_content (completions_create w 0 messages) = Return text).

Module Cases.
Import Examples.

(** A tool that resolves to [undefined]. *)
Definition void_world : world :=
  scripted [echo_tool]
    [Completion [Some echo_directive]; Completion [Some (js "Nothing came back.")]]
    (Return NoJsonForm).

(** A tool whose result cannot be serialized. *)
Definition cyclic_world : world :=
  scripted [echo_tool]
    [Completion [Some echo_directive]; Completion [Some (js "The result was unusable.")]]
    (Return (Unserializable (ErrorObject (js "Converting circular structure to JSON")))).

(** A directive between two sentences, without a fence. *)
Definition wrapped_reply : str :=
  js "Sure, calling it now: " ++ echo_directive ++ js " Please wait.".

Definition quit_session : list (str * world) :=
  [(js "say hi", echo_world); (js "QUIT", chat_world); (js "hello", chat_world)].

End Cases.

(* ================================================================== *)
(** * What [JSON.stringify] writes and [JSON.parse] reads back *)
(* ================================================================== *)


(** Text after which a number literal ends: nothing, or a code unit that is
    not a digit, a point or an exponent mark. *)
Definition stops_number (rest : str) : bool :=
  match rest with
  | [] => true
  | c :: _ => negb (JSON.is_digit c || N.eqb c 46 || N.eqb c 101 || N.eqb c 69)
  end.

(** White space only. *)
Definition blank (s : str) : Prop := Forall (fun c => JSON.is_ws c = true) s.

(** A key written with digits only.  An object enumerates its integer keys
    first, in numeric order; the members of a model object are in insertion
    order, which is the order of enumeration when no key is of this kind. *)
Definition index_like (k : str) : bool :=
  match k with
  | [] => false
  | _ :: _ => forallb JSON.is_digit k
  end.

Section Canonical.
Variable Number_toString : str -> str.

(** Plain data that [JSON.stringify] writes down without loss: every number
    is a literal of the JSON grammar that [Number::toString] renders as it
    is written, and no object repeats a key or has a key of digits only. *)
Fixpoint canonical (v : JSON.value) : Prop :=
  match v with
  | JSON.Num literal =>
      JSON.number literal = JSON.Parsed literal [] /\ Number_toString literal = literal
  | JSON.Arr items =>
      (fix all (l : list JSON.value) : Prop :=
         match l with
         | [] => True
         | x :: l' => canonical x /\ all l'
         end) items
  | JSON.Obj ms =>
      NoDup (map fst ms) /\
      (fix all (l : list (str * JSON.value)) : Prop :=
         match l with
         | [] => True
         | kv :: l' => index_like (fst kv) = false /\ canonical (snd kv) /\ all l'
         end) ms
  | _ => True
  end.

(** The parser reads the text of [v] back, with any indentation and before
    any text that ends a number, from the budget [n] on. *)
Definition reads_back (v : JSON.value) (n : nat) : Prop :=
  forall fuel, n <= fuel ->
  forall gap indent rest, blank gap -> blank indent -> stops_number rest = true ->
  JSON.value_ fuel (Serialize.serialize Number_toString gap indent v ++ rest)
    = JSON.Parsed v rest.

End Canonical.

(** ** The echo endpoint of the example server *)

Module EchoServer.

(** What a handler sends: the status, and the value given to [res.json]. *)
Record reply := { status : nat; payload : JSON.value }.

Definition invalid_input : reply :=
  {| status := 400;
     payload := JSON.Obj [(js "error",
                           JSON.Str (js "Invalid input: value must be a string."))] |}.

(** The message of the [TypeError] is engine-specific. *)
Definition not_destructurable : thrown :=
  ErrorObject (js "Cannot destructure property 'value' of 'req.body' as it is null.").

(** The handler of [POST /test] on the body that [express.json] has parsed.
    [value] is read off the body by destructuring: from [null] this throws,
    from a primitive or an array it gives [undefined], from an object its
    own member, [Object.prototype] having none of this name. *)
Definition post_test (body : JSON.value) : outcome reply :=
  match body with
  | JSON.Null => Throw not_destructurable
  | JSON.Obj ms =>
      match JSON.get (js "value") ms with
      | Some (JSON.Str value) =>
          Return {| status := 200;
                    payload := JSON.Obj [(js "received", JSON.Str value)] |}
      | _ => Return invalid_input
      end
  | _ => Return invalid_input
  end.

End EchoServer.

(* ================================================================== *)
(** * Strings *)
(* ================================================================== *)

Lemma strip_prefix_app (a b s : str) :
  strip_prefix (a ++ b) s =
  match strip_prefix a s with
  | Some t => strip_prefix b t
  | None => None
  end.
Proof.
  revert s; induction a as [|x a IH]; intros s; simpl; [reflexivity|].
  destruct s as [|y s]; [reflexivity|].
  destruct (N.eqb x y); [apply IH | reflexivity].
Qed.

Lemma strip_prefix_self (p r : str) : strip_prefix p (p ++ r) = Some r.
Proof.
  induction p as [|x p IH]; simpl; [reflexivity|].
  now rewrite N.eqb_refl.
Qed.

Lemma strip_prefix_Some (p s r : str) : strip_prefix p s = Some r -> s = p ++ r.
Proof.
  revert s; induction p as [|x p IH]; intros s H; simpl in *.
  - now inversion H.
  - destruct s as [|y s]; [discriminate|].
    destruct (N.eqb_spec x y) as [->|]; [|discriminate].
    now rewrite (IH _ H).
Qed.

Lemma occurs_app (x a b : str) : occurs x (a ++ x ++ b) = true.
Proof.
  induction a as [|c a IH]; simpl.
  - destruct x; simpl; [destruct b; reflexivity|].
    rewrite N.eqb_refl, strip_prefix_self. reflexivity.
  - destruct (strip_prefix x (c :: a ++ x ++ b)); [reflexivity | exact IH].
Qed.

(* ================================================================== *)
(** * One turn, branch by branch *)
(* ================================================================== *)

Section Turn.

Variable ntos : str -> str.
Variables (w : world) (userPrompt : str) (st : state).

Let history := conversationHistory st.
Let user_message := {| role := user; content := userPrompt |}.

Ltac flat := unfold extend; rewrite <- ?app_assoc, ?app_nil_r; reflexivity.

Ltac run :=
  unfold turn, getOpenAIResponse, plain_reply, run_tool, bind, try_catch,
    lift, ret, emit, push, read_history; simpl.

(** A failing search ends the turn before anything is sent to the model. *)
Lemma turn_search_throws (e : thrown) :
  search_tools w userPrompt 10 = Throw e ->
  turn ntos w userPrompt st =
    (Throw e, extend st [] [EvSearch userPrompt 10]).
Proof. intros Hs. run. rewrite Hs. flat. Qed.

Variable tools : list Tool.
Hypothesis search_ok : search_tools w userPrompt 10 = Return tools.

Let messages := messages_of ntos tools history userPrompt.

(** A failing first request leaves the turn by a throw, the history as it
    was. *)
Lemma turn_first_request_throws (e : thrown) :
  response_content (completions_create w 0 messages) = Throw e ->
  turn ntos w userPrompt st =
    (Throw e, extend st [] [EvSearch userPrompt 10; EvChat messages]).
Proof.
  intros Hr. run. rewrite search_ok. simpl. fold history. fold messages.
  rewrite Hr. flat.
Qed.

Variable assistantResponse : str.
Hypothesis first_reply :
  response_content (completions_create w 0 messages) = Return assistantResponse.

Let after_plain_reply : state :=
  extend st [user_message; {| role := assistant; content := assistantResponse |}]
    [EvSearch userPrompt 10; EvChat messages; EvAssistant assistantResponse].

(** A reply in which no directive is found is answered as it is. *)
Lemma turn_plain :
  interpret assistantResponse = None ->
  turn ntos w userPrompt st = (Return tt, after_plain_reply).
Proof.
  intros Hi. run. rewrite search_ok. simpl. fold history. fold messages.
  rewrite first_reply. simpl.
  unfold interpret, interpret_try in Hi. subst after_plain_reply.
  destruct (jsonMatch assistantResponse) as [c|]; simpl.
  - destruct (JSON.parse c) as [d|e]; simpl.
    + destruct (tool_call_keys d) as [[k|]|e]; simpl; try discriminate;
        flat.
    + flat.
  - flat.
Qed.

Variables (toolName arguments_ : JSON.value).
Hypothesis directive : interpret assistantResponse = Some (toolName, arguments_).

(** A directive whose tool name cannot be converted to a string for the
    progress line is answered as a plain reply, without a tool call. *)
Lemma turn_name_not_printable (e : thrown) :
  Serialize.ToString ntos toolName = Throw e ->
  turn ntos w userPrompt st = (Return tt, after_plain_reply).
Proof.
  intros Hn. run. rewrite search_ok. simpl. fold history. fold messages.
  rewrite first_reply. simpl.
  unfold interpret, interpret_try in directive. subst after_plain_reply.
  destruct (jsonMatch assistantResponse) as [c|]; simpl; [|discriminate].
  destruct (JSON.parse c) as [d|e']; simpl; [|discriminate].
  destruct (tool_call_keys d) as [[k|]|e']; simpl; try discriminate.
  injection directive as ->. rewrite Hn. simpl.
  flat.
Qed.

Variable name : str.
Hypothesis name_text : Serialize.ToString ntos toolName = Return name.

Let toolOutput := tool_output ntos w toolName arguments_ name.
Let history' := history ++ [user_message; {| role := assistant; content := assistantResponse |}].
Let followUpMessages := followUpMessages_of ntos tools history' toolOutput.

Ltac to_directive :=
  run; rewrite search_ok; simpl; fold history; fold messages;
  rewrite first_reply; simpl;
  unfold interpret, interpret_try in directive;
  destruct (jsonMatch assistantResponse) as [c|]; simpl; [|discriminate];
  destruct (JSON.parse c) as [d|e']; simpl; [|discriminate];
  destruct (tool_call_keys d) as [[k|]|e']; simpl; try discriminate;
  injection directive as ->; rewrite name_text; simpl;
  subst followUpMessages history' toolOutput user_message; unfold tool_output;
  destruct (call_tool w toolName arguments_) as [[v| |e1]|e1]; simpl;
  rewrite ?name_text; simpl; rewrite <- ?app_assoc; simpl.

(** A directive is executed, its output sent back, and the second reply is
    the answer: three messages are appended. *)
Lemma turn_tool (finalResponse : str) :
  response_content (completions_create w 1 followUpMessages) = Return finalResponse ->
  turn ntos w userPrompt st =
    (Return tt,
     extend st
       [user_message; {| role := assistant; content := assistantResponse |};
        {| role := assistant; content := finalResponse |}]
       [EvSearch userPrompt 10; EvChat messages; EvCallTool toolName arguments_;
        EvChat followUpMessages; EvInterpretation finalResponse]).
Proof.
  intros Hf. revert Hf. to_directive; intros Hf; rewrite Hf; simpl;
    flat.
Qed.

(** A failing second request is caught by the handler meant for the parse:
    the plain-reply branch runs after the two messages were appended. *)
Lemma turn_second_request_throws (e : thrown) :
  response_content (completions_create w 1 followUpMessages) = Throw e ->
  turn ntos w userPrompt st =
    (Return tt,
     extend st
       [user_message; {| role := assistant; content := assistantResponse |};
        user_message; {| role := assistant; content := assistantResponse |}]
       [EvSearch userPrompt 10; EvChat messages; EvCallTool toolName arguments_;
        EvChat followUpMessages; EvAssistant assistantResponse]).
Proof.
  intros Hf. revert Hf. to_directive; intros Hf; rewrite Hf; simpl;
    flat.
Qed.

End Turn.

(** Every turn takes one of the five ways. *)
Lemma turn_cases (ntos : str -> str) (w : world) (userPrompt : str) (st : state) :
  turn_runs ntos w userPrompt st
    (fst (turn ntos w userPrompt st)) (snd (turn ntos w userPrompt st)).
Proof.
  destruct (search_tools w userPrompt 10) as [tools|e] eqn:Hs.
  2:{ rewrite (turn_search_throws ntos w userPrompt st Hs). simpl. now apply Run_search_failed. }
  destruct (response_content
              (completions_create w 0
                 (messages_of ntos tools (conversationHistory st) userPrompt)))
    as [a|e] eqn:Hr.
  2:{ rewrite (turn_first_request_throws ntos w userPrompt st Hs Hr). simpl.
      now apply Run_first_request_failed. }
  destruct (interpret a) as [[toolName arguments_]|] eqn:Hi.
  2:{ rewrite (turn_plain ntos w userPrompt st Hs Hr Hi). simpl.
      apply Run_plain; auto. }
  destruct (Serialize.ToString ntos toolName) as [name|e] eqn:Hn.
  2:{ rewrite (turn_name_not_printable ntos w userPrompt st Hs Hr Hi Hn). simpl.
      apply Run_plain; auto. right. now exists toolName, arguments_, e. }
  destruct (response_content
              (completions_create w 1
                 (followUpMessages_of ntos tools
                    (conversationHistory st ++
                     [{| role := user; content := userPrompt |};
                      {| role := assistant; content := a |}])
                    (tool_output ntos w toolName arguments_ name))))
    as [f|e] eqn:Hf.
  - rewrite (turn_tool ntos w userPrompt st Hs Hr Hi Hn Hf). simpl.
    now apply Run_tool with (name := name).
  - rewrite (turn_second_request_throws ntos w userPrompt st Hs Hr Hi Hn Hf). simpl.
    now apply Run_second_request_failed with (name := name) (e := e).
Qed.

(* ================================================================== *)
(** * The two patterns match what their descriptions say *)
(* ================================================================== *)

Lemma split_last_app (c : N) (s upto rest : str) :
  split_last c s = Some (upto, rest) -> s = upto ++ rest.
Proof.
  revert upto rest; induction s as [|x t IH]; intros upto rest H; simpl in H.
  - discriminate.
  - destruct (split_last c t) as [[u r]|].
    + inversion H; subst. simpl. now rewrite (IH u rest eq_refl).
    + destruct (N.eqb c x); inversion H; subst. reflexivity.
Qed.

Lemma split_first_app (pat s before rest : str) :
  split_first pat s = Some (before, rest) -> s = before ++ pat ++ rest.
Proof.
  revert before rest; induction s as [|x t IH]; intros before rest H; simpl in H.
  - destruct (strip_prefix pat []) eqn:E; [|discriminate].
    inversion H; subst. now apply strip_prefix_Some in E.
  - destruct (strip_prefix pat (x :: t)) eqn:E.
    + inversion H; subst. now apply strip_prefix_Some in E.
    + destruct (split_first pat t) as [[b r]|]; [|discriminate].
      inversion H; subst. simpl. now rewrite (IH b rest eq_refl).
Qed.

Lemma firstn_length_app {A : Type} (a b : list A) n :
  n = length a -> firstn n (a ++ b) = a.
Proof.
  intros ->. rewrite firstn_app, Nat.sub_diag, firstn_all. simpl. apply app_nil_r.
Qed.

(** The greedy star before the closing brace runs to the last one. *)
Lemma greedy_to_last_brace (t : str) :
  Regex.exec [Regex.DotStarGreedy; Regex.Chars (js "}"); Regex.GroupClose] t =
  match split_last 125 t with
  | Some (_, rest) => Some [rest]
  | None => None
  end.
Proof.
  induction t as [|x t IH].
  - reflexivity.
  - change (Regex.exec [Regex.DotStarGreedy; Regex.Chars (js "}"); Regex.GroupClose] (x :: t))
      with (match Regex.exec [Regex.DotStarGreedy; Regex.Chars (js "}"); Regex.GroupClose] t with
            | Some r => Some r
            | None => Regex.exec [Regex.Chars (js "}"); Regex.GroupClose] (x :: t)
            end).
    rewrite IH. cbn [split_last].
    destruct (split_last 125 t) as [[u r]|]; [reflexivity|].
    cbn -[N.eqb]. destruct (N.eqb 125 x); reflexivity.
Qed.

Lemma exec_braces (s : str) :
  Regex.exec braces_re s =
  match strip_prefix (js "{") s with
  | Some t => match split_last 125 t with
              | Some (_, rest) => Some [s; rest]
              | None => None
              end
  | None => None
  end.
Proof.
  unfold braces_re.
  change (Regex.exec (Regex.GroupOpen :: Regex.Chars (js "{") :: ?p) s)
    with (option_map (cons s)
            (match strip_prefix (js "{") s with
             | Some t => Regex.exec
                           [Regex.DotStarGreedy; Regex.Chars (js "}"); Regex.GroupClose] t
             | None => None
             end)).
  destruct (strip_prefix (js "{") s) as [t|]; [|reflexivity].
  rewrite greedy_to_last_brace.
  destruct (split_last 125 t) as [[u r]|]; reflexivity.
Qed.

Lemma split_last_tail (c x : N) (t : str) :
  split_last c (x :: t) = None -> split_last c t = None.
Proof. simpl. destruct (split_last c t) as [[u r]|]; [discriminate | reflexivity]. Qed.

Lemma search_braces_none (s : str) :
  split_last 125 s = None -> Regex.search braces_re s = None.
Proof.
  induction s as [|x t IH]; intros H.
  - reflexivity.
  - pose proof (split_last_tail _ _ _ H) as Ht.
    cbn [Regex.search]. rewrite exec_braces. cbn -[N.eqb].
    destruct (N.eqb 123 x); [rewrite Ht|]; now apply IH.
Qed.

(** [/({.*})/s] captures from the first opening brace to the last closing
    brace. *)
Lemma match_braces (s : str) : Regex.match_ braces_re s = brace_span s.
Proof.
  unfold Regex.match_, brace_span.
  induction s as [|x t IH].
  - reflexivity.
  - cbn [Regex.search]. rewrite exec_braces. cbn -[N.eqb].
    destruct (N.eqb_spec 123 x) as [<-|Hx].
    + destruct (split_last 125 t) as [[u r]|] eqn:E.
      * pose proof (split_last_app _ _ E) as ->.
        unfold option_map, Regex.group1. f_equal.
        apply (firstn_length_app (123%N :: u) r).
        cbn [length]. rewrite length_app. lia.
      * now rewrite (search_braces_none t E).
    + rewrite IH. change (js "{") with [123%N].
      destruct (split_first [123%N] t) as [[b r]|]; reflexivity.
Qed.

Lemma exec_fence_close (s : str) :
  Regex.exec [Regex.Chars (js "}"); Regex.GroupClose; Regex.Chars (LF ++ js "```")] s =
  match strip_prefix fence_close s with
  | Some rest => Some [LF ++ js "```" ++ rest]
  | None => None
  end.
Proof.
  unfold fence_close. rewrite strip_prefix_app.
  cbn [Regex.exec].
  destruct (strip_prefix (js "}") s) as [t|]; [|reflexivity].
  destruct (strip_prefix (LF ++ js "```") t) as [rest|] eqn:E; [|reflexivity].
  apply strip_prefix_Some in E. subst t. reflexivity.
Qed.

(** The lazy star before the closing fence stops at the first one. *)
Lemma lazy_to_first_fence (u : str) :
  Regex.exec [Regex.DotStarLazy; Regex.Chars (js "}"); Regex.GroupClose;
              Regex.Chars (LF ++ js "```")] u =
  match split_first fence_close u with
  | Some (_, rest) => Some [LF ++ js "```" ++ rest]
  | None => None
  end.
Proof.
  induction u as [|x t IH].
  - reflexivity.
  - change (Regex.exec [Regex.DotStarLazy; Regex.Chars (js "}"); Regex.GroupClose;
                        Regex.Chars (LF ++ js "```")] (x :: t))
      with (match Regex.exec [Regex.Chars (js "}"); Regex.GroupClose;
                              Regex.Chars (LF ++ js "```")] (x :: t) with
            | Some r => Some r
            | None => Regex.exec [Regex.DotStarLazy; Regex.Chars (js "}"); Regex.GroupClose;
                                  Regex.Chars (LF ++ js "```")] t
            end).
    rewrite exec_fence_close, IH. cbn [split_first].
    destruct (strip_prefix fence_close (x :: t)); [reflexivity|].
    destruct (split_first fence_close t) as [[b r]|]; reflexivity.
Qed.

Lemma exec_fenced (s : str) :
  Regex.exec fenced_json_re s =
  match strip_prefix fence_open s with
  | Some u => match split_first fence_close u with
              | Some (_, rest) => Some [js "{" ++ u; LF ++ js "```" ++ rest]
              | None => None
              end
  | None => None
  end.
Proof.
  unfold fenced_json_re, fence_open.
  rewrite app_assoc, strip_prefix_app.
  change (Regex.exec (Regex.Chars (js "```json" ++ LF) :: Regex.GroupOpen
                      :: Regex.Chars (js "{") :: ?p) s)
    with (match strip_prefix (js "```json" ++ LF) s with
          | Some t =>
              option_map (cons t)
                (match strip_prefix (js "{") t with
                 | Some u => Regex.exec
                               [Regex.DotStarLazy; Regex.Chars (js "}"); Regex.GroupClose;
                                Regex.Chars (LF ++ js "```")] u
                 | None => None
                 end)
          | None => None
          end).
  destruct (strip_prefix (js "```json" ++ LF) s) as [t|]; [|reflexivity].
  destruct (strip_prefix (js "{") t) as [u|] eqn:E; [|reflexivity].
  apply strip_prefix_Some in E. subst t.
  rewrite lazy_to_first_fence.
  destruct (split_first fence_close u) as [[b r]|]; reflexivity.
Qed.

Lemma split_first_none_tail (pat : str) (x : N) (t : str) :
  split_first pat (x :: t) = None -> split_first pat t = None.
Proof.
  cbn [split_first]. destruct (strip_prefix pat (x :: t)); [discriminate|].
  destruct (split_first pat t) as [[b r]|]; [discriminate | reflexivity].
Qed.

Lemma split_first_none_suffix (pat a u : str) :
  split_first pat (a ++ u) = None -> split_first pat u = None.
Proof.
  induction a as [|x a IH]; intros H; [exact H|].
  apply IH. now apply split_first_none_tail with (x := x).
Qed.

Lemma split_first_skip (pat : str) (x : N) (t : str) :
  strip_prefix pat (x :: t) = None -> split_first pat t = None ->
  split_first pat (x :: t) = None.
Proof. intros H1 H2. cbn [split_first]. now rewrite H1, H2. Qed.

Lemma search_fenced_none (s : str) :
  split_first fence_close s = None -> Regex.search fenced_json_re s = None.
Proof.
  induction s as [|x t IH]; intros H.
  - reflexivity.
  - cbn [Regex.search]. rewrite exec_fenced.
    destruct (strip_prefix fence_open (x :: t)) as [u|] eqn:E.
    + pose proof (split_first_none_tail _ _ _ H) as Ht.
      apply strip_prefix_Some in E. rewrite E in H.
      rewrite (split_first_none_suffix _ _ _ H). now apply IH.
    + apply IH. now apply split_first_none_tail with (x := x).
Qed.

(** The fenced pattern captures from the brace of the first opening fence to
    the first closing brace that a line break and a fence follow. *)
Lemma match_fenced (s : str) : Regex.match_ fenced_json_re s = fenced_span s.
Proof.
  unfold Regex.match_, fenced_span.
  induction s as [|x t IH].
  - reflexivity.
  - cbn [Regex.search split_first]. rewrite exec_fenced.
    destruct (strip_prefix fence_open (x :: t)) as [u|] eqn:E.
    + destruct (split_first fence_close u) as [[body rest]|] eqn:F.
      * apply split_first_app in F. subst u.
        unfold option_map, Regex.group1. f_equal.
        replace (js "{" ++ body ++ fence_close ++ rest)
          with ((js "{" ++ body ++ js "}") ++ LF ++ js "```" ++ rest)
          by (unfold fence_close; now rewrite <- !app_assoc).
        apply firstn_length_app. rewrite length_app. lia.
      * apply strip_prefix_Some in E.
        injection E as -> ->.
        rewrite search_fenced_none; [reflexivity|].
        repeat (apply split_first_skip; [reflexivity|]). exact F.
    + rewrite IH. destruct (split_first fence_open t) as [[b r]|]; reflexivity.
Qed.

(** The candidate of the program is the candidate of the description. *)
Lemma jsonMatch_candidate (s : str) : jsonMatch s = candidate s.
Proof. unfold jsonMatch, candidate. now rewrite match_fenced, match_braces. Qed.

(* ================================================================== *)
(** * [JSON.parse]: budget and what a parse reads *)
(* ================================================================== *)

Module ParseFacts.
Import JSON.

Lemma no_lf_backtick_step (x y : N) (t : str) :
  no_lf_backtick (x :: y :: t) =
  negb (N.eqb x 10 && N.eqb y 96) && no_lf_backtick (y :: t).
Proof. reflexivity. Qed.

Lemma no_lf_backtick_app (a b : str) :
  no_lf_backtick a = true -> no_lf_backtick b = true ->
  ends_well a = true \/ starts_well b = true ->
  no_lf_backtick (a ++ b) = true.
Proof.
  induction a as [|x a IH]; intros Ha Hb Hj; [exact Hb|].
  destruct a as [|x' a].
  - destruct b as [|y b]; [reflexivity|].
    change (no_lf_backtick ([x] ++ y :: b))
      with (negb (N.eqb x 10 && N.eqb y 96) && no_lf_backtick (y :: b)).
    rewrite Hb, andb_true_r.
    cbn [ends_well starts_well] in Hj.
    destruct (N.eqb x 10), (N.eqb y 96); simpl in *; auto.
    destruct Hj; discriminate.
  - change (no_lf_backtick ((x :: x' :: a) ++ b))
      with (negb (N.eqb x 10 && N.eqb x' 96) && no_lf_backtick ((x' :: a) ++ b)).
    change (no_lf_backtick (x :: x' :: a))
      with (negb (N.eqb x 10 && N.eqb x' 96) && no_lf_backtick (x' :: a)) in Ha.
    apply andb_true_iff in Ha as [H1 H2]. rewrite H1.
    apply IH; auto.
Qed.

Lemma ends_well_app (a b : str) : b <> [] -> ends_well (a ++ b) = ends_well b.
Proof.
  intros Hb. induction a as [|x a IH]; [reflexivity|].
  cbn [app ends_well]. destruct (a ++ b) eqn:E; [|exact IH].
  apply app_eq_nil in E as [_ E]. contradiction.
Qed.

Lemma readable_app (a b : str) : readable a -> readable b -> readable (a ++ b).
Proof.
  intros (Ha & Hs & He & Hn) (Hb & Hs' & He' & Hn'). repeat split.
  - intros E. apply app_eq_nil in E as [E _]. contradiction.
  - destruct a; [contradiction | exact Hs].
  - now rewrite ends_well_app.
  - apply no_lf_backtick_app; auto.
Qed.

Lemma readable_single (x : N) : plain x -> readable [x].
Proof.
  intros [H1 H2]. repeat split; try discriminate; simpl.
  - now apply negb_true_iff, N.eqb_neq.
  - now apply negb_true_iff, N.eqb_neq.
Qed.

Lemma is_ws_not_backtick (x : N) : is_ws x = true -> x <> 96%N.
Proof. intros H ->. discriminate. Qed.

Lemma readable_cons_ws (x : N) (c : str) :
  is_ws x = true -> readable c -> readable (x :: c).
Proof.
  intros Hx (Hc & Hs & He & Hn). repeat split.
  - discriminate.
  - simpl. now apply negb_true_iff, N.eqb_neq, is_ws_not_backtick.
  - destruct c; [contradiction | exact He].
  - destruct c as [|y c]; [contradiction|].
    rewrite no_lf_backtick_step, Hn, andb_true_r.
    simpl in Hs. apply negb_true_iff in Hs. rewrite Hs.
    now rewrite andb_false_r.
Qed.

Lemma one_line_readable (c : str) : one_line c -> starts_well c = true -> readable c.
Proof.
  intros [Hc Hl] Hs. repeat split; auto.
  - clear Hc Hs. induction Hl as [|x c Hx Hl IH]; [reflexivity|].
    destruct c as [|y c].
    + simpl. now apply negb_true_iff, N.eqb_neq.
    + exact IH.
  - clear Hc Hs. induction Hl as [|x c Hx Hl IH]; [reflexivity|].
    destruct c as [|y c]; [reflexivity|].
    rewrite no_lf_backtick_step, IH, andb_true_r.
    apply N.eqb_neq in Hx. now rewrite Hx.
Qed.

Section Reads.
Context {A : Type}.

Lemma reads_seq (a s : str) (r : parsed A) :
  readable a -> reads s r -> reads (a ++ s) r.
Proof.
  intros Ha. destruct r as [v rest| |]; simpl; auto.
  intros (c & -> & Hc). exists (a ++ c). split; [now rewrite app_assoc|].
  now apply readable_app.
Qed.

Lemma reads_cons (x : N) (s : str) (r : parsed A) :
  plain x -> reads s r -> reads (x :: s) r.
Proof. intros Hx. apply (reads_seq (a := [x])). now apply readable_single. Qed.

Lemma reads_ws (s : str) (r : parsed A) : reads (skip_ws s) r -> reads s r.
Proof.
  destruct r as [v rest| |]; simpl; auto.
  induction s as [|x t IH]; cbn [skip_ws]; [auto|].
  destruct (is_ws x) eqn:E; [|auto].
  intros H. destruct (IH H) as (c & -> & Hc).
  exists (x :: c). split; [reflexivity | now apply readable_cons_ws].
Qed.

Lemma reads_pmap {B : Type} (f : A -> B) (s : str) (r : parsed A) :
  reads s r -> reads s (pmap f r).
Proof. destruct r; simpl; auto. Qed.

Lemma reads_length (s : str) (v : A) (rest : str) :
  reads s (Parsed v rest) -> length rest < length s.
Proof.
  intros (c & -> & Hc & _). rewrite length_app.
  destruct c; [contradiction | simpl; lia].
Qed.

End Reads.

Lemma skip_ws_length (s : str) : length (skip_ws s) <= length s.
Proof.
  induction s as [|c t IH]; simpl; [lia|].
  destruct (is_ws c); simpl; lia.
Qed.

Lemma hex_digit_not_lf (c u : N) : hex_digit c = Some u -> c <> 10%N.
Proof. intros H ->. discriminate. Qed.

Lemma simple_escape_not_lf (e u : N) : simple_escape e = Some u -> e <> 10%N.
Proof. intros H ->. discriminate. Qed.

Lemma reads_pcons (x : N) (a s : str) (r : parsed str) :
  a <> [] -> Forall (fun y => y <> 10%N) a ->
  reads_with one_line s r -> reads_with one_line (a ++ s) (pcons x r).
Proof.
  intros Ha Hl. destruct r as [v rest| |]; simpl; auto.
  intros (c & -> & Hc & Hcl). exists (a ++ c). split; [now rewrite app_assoc|].
  split.
  - intros E. apply app_eq_nil in E as [E _]. contradiction.
  - apply Forall_app. now split.
Qed.

(** A string literal is read on one line. *)
Lemma string_chars_reads (s : str) : reads_with one_line s (string_chars s).
Proof.
  remember (length s) as n eqn:Hn.
  assert (Hle : length s <= n) by lia. clear Hn.
  revert s Hle. induction n as [|n IH]; intros s Hle.
  - destruct s; [exact I | simpl in Hle; lia].
  - destruct s as [|c t]; [exact I|]. simpl in Hle.
    cbn [string_chars].
    destruct (N.eqb_spec c 34) as [->|_].
    { exists [34%N]. repeat split; try discriminate.
      constructor; [discriminate | constructor]. }
    destruct (N.eqb_spec c 92) as [->|_].
    + destruct t as [|e t1]; [exact I|]. simpl in Hle.
      destruct (N.eqb_spec e 117) as [->|_].
      * destruct t1 as [|a [|b [|c' [|d t2]]]]; try exact I.
        destruct (hex4 a b c' d) eqn:Hh; [|exact I].
        unfold hex4 in Hh.
        destruct (hex_digit a) eqn:Ea; [|discriminate].
        destruct (hex_digit b) eqn:Eb; [|discriminate].
        destruct (hex_digit c') eqn:Ec; [|discriminate].
        destruct (hex_digit d) eqn:Ed; [|discriminate].
        apply (reads_pcons _ (a := [92; 117; a; b; c'; d]%N)); [discriminate| |].
        -- repeat constructor; try discriminate;
             eauto using hex_digit_not_lf.
        -- apply IH. simpl in Hle. lia.
      * destruct (simple_escape e) eqn:Ee; [|exact I].
        apply (reads_pcons _ (a := [92%N; e])); [discriminate| |].
        -- repeat constructor; try discriminate. eauto using simple_escape_not_lf.
        -- apply IH. lia.
    + destruct (N.ltb_spec c 32) as [|Hc]; [exact I|].
      apply (reads_pcons _ (a := [c])); [discriminate| |].
      * repeat constructor. lia.
      * apply IH. lia.
Qed.

Lemma plain_readable (c : str) : c <> [] -> Forall plain c -> readable c.
Proof.
  intros Hc Hp. apply one_line_readable.
  - split; [exact Hc|]. eapply Forall_impl; [|exact Hp]. now intros x [H _].
  - destruct Hp as [|x c [_ Hx] _]; [reflexivity|].
    simpl. now apply negb_true_iff, N.eqb_neq.
Qed.

Lemma is_digit_plain (c : N) : is_digit c = true -> plain c.
Proof.
  unfold is_digit. intros H. apply andb_true_iff in H as [H1 H2].
  apply N.leb_le in H1, H2. split; lia.
Qed.

Lemma digits_reads (s d r : str) : digits s = (d, r) -> s = d ++ r /\ Forall plain d.
Proof.
  revert d r; induction s as [|c t IH]; intros d r H; cbn [digits] in H.
  - inversion H; subst. split; [reflexivity | constructor].
  - destruct (is_digit c) eqn:E.
    + destruct (digits t) as [d' r'] eqn:E'. inversion H; subst.
      destruct (IH _ _ eq_refl) as [-> Hp].
      split; [reflexivity|]. constructor; [now apply is_digit_plain | exact Hp].
    + inversion H; subst. split; [reflexivity | constructor].
Qed.

Lemma sign_part_reads (s sg r : str) :
  sign_part s = (sg, r) -> s = sg ++ r /\ Forall plain sg.
Proof.
  unfold sign_part. destruct s as [|c t].
  - intros H; inversion H; subst. split; [reflexivity | constructor].
  - destruct (N.eqb_spec c 45) as [->|_]; intros H; inversion H; subst.
    + split; [reflexivity|]. repeat constructor; discriminate.
    + split; [reflexivity | constructor].
Qed.

Lemma exp_sign_reads (s sg r : str) :
  exp_sign s = (sg, r) -> s = sg ++ r /\ Forall plain sg.
Proof.
  unfold exp_sign. destruct s as [|c t].
  - intros H; inversion H; subst. split; [reflexivity | constructor].
  - destruct (N.eqb_spec c 43) as [->|_]; [|destruct (N.eqb_spec c 45) as [->|_]];
      cbn [orb]; intros H; inversion H; subst;
      (split; [reflexivity|]); repeat constructor; discriminate.
Qed.

Lemma int_part_reads (s i r : str) :
  int_part s = Some (i, r) -> s = i ++ r /\ Forall plain i /\ i <> [].
Proof.
  unfold int_part. destruct s as [|c t]; [discriminate|].
  destruct (N.eqb_spec c 48) as [->|_].
  - intros H; inversion H; subst.
    repeat split; try discriminate. repeat constructor; discriminate.
  - destruct (is_digit c) eqn:E; [|discriminate].
    destruct (digits t) as [d r'] eqn:E'. intros H; inversion H; subst.
    destruct (digits_reads _ E') as [-> Hp].
    repeat split; try discriminate.
    constructor; [now apply is_digit_plain | exact Hp].
Qed.

Lemma frac_part_reads (s f r : str) :
  frac_part s = Some (f, r) -> s = f ++ r /\ Forall plain f.
Proof.
  unfold frac_part. destruct s as [|c t].
  - intros H; inversion H; subst. split; [reflexivity | constructor].
  - destruct (N.eqb_spec c 46) as [->|_].
    + destruct (digits t) as [d r'] eqn:E'. destruct d as [|x d]; [discriminate|].
      intros H; inversion H; subst.
      destruct (digits_reads _ E') as [-> Hp].
      split; [reflexivity|]. constructor; [split; discriminate | exact Hp].
    + intros H; inversion H; subst. split; [reflexivity | constructor].
Qed.

Lemma exp_part_reads (s e r : str) :
  exp_part s = Some (e, r) -> s = e ++ r /\ Forall plain e.
Proof.
  unfold exp_part. destruct s as [|c t].
  - intros H; inversion H; subst. split; [reflexivity | constructor].
  - destruct (N.eqb c 101 || N.eqb c 69)%bool eqn:Ec.
    + destruct (exp_sign t) as [sg t'] eqn:Es.
      destruct (digits t') as [d r'] eqn:E'. destruct d as [|x d]; [discriminate|].
      intros H; inversion H; subst.
      destruct (exp_sign_reads _ Es) as [-> Hs].
      destruct (digits_reads _ E') as [-> Hp].
      split; [simpl; rewrite <- ?app_assoc; reflexivity|].
      constructor.
      * apply orb_true_iff in Ec as [Ec|Ec]; apply N.eqb_eq in Ec; subst;
          split; discriminate.
      * apply Forall_app. now split.
    + intros H; inversion H; subst. split; [reflexivity | constructor].
Qed.

Lemma number_reads (s : str) : reads s (number s).
Proof.
  unfold number.
  destruct (sign_part s) as [sg s1] eqn:E1.
  destruct (sign_part_reads _ E1) as [-> H1].
  destruct (int_part s1) as [[i s2]|] eqn:E2; [|exact I].
  destruct (int_part_reads _ E2) as (-> & H2 & Hi).
  destruct (frac_part s2) as [[f s3]|] eqn:E3; [|exact I].
  destruct (frac_part_reads _ E3) as [-> H3].
  destruct (exp_part s3) as [[e s4]|] eqn:E4; [|exact I].
  destruct (exp_part_reads _ E4) as [-> H4].
  exists (sg ++ i ++ f ++ e). split; [now rewrite <- !app_assoc|].
  apply plain_readable.
  - intros E. apply app_eq_nil in E as [_ E]. apply app_eq_nil in E as [E _].
    contradiction.
  - repeat (apply Forall_app; split); assumption.
Qed.

Lemma keyword_reads (w : str) (v : value) (s : str) :
  readable w -> reads s (keyword w v s).
Proof.
  intros Hw. unfold keyword. destruct (strip_prefix w s) as [rest|] eqn:E; [|exact I].
  apply strip_prefix_Some in E. now exists w.
Qed.

Lemma readable_true : readable (js "true").
Proof. repeat split; try reflexivity; discriminate. Qed.

Lemma readable_false : readable (js "false").
Proof. repeat split; try reflexivity; discriminate. Qed.

Lemma readable_null : readable (js "null").
Proof. repeat split; try reflexivity; discriminate. Qed.

Lemma string_literal_reads {B : Type} (f : str -> B) (t : str) :
  reads (34%N :: t) (pmap f (string_chars t)).
Proof.
  pose proof (string_chars_reads t) as H.
  destruct (string_chars t) as [k r| |]; simpl in *; auto.
  destruct H as (c & -> & Hc & Hl). exists (34%N :: c). split; [reflexivity|].
  apply one_line_readable; [|reflexivity].
  split; [discriminate|]. constructor; [discriminate | exact Hl].
Qed.

Ltac lens :=
  simpl in *;
  repeat match goal with
         | H : context [length (_ ++ _)] |- _ => rewrite length_app in H
         end;
  rewrite ?length_app; lia.

Ltac is_plain := split; discriminate.

(** With two steps of budget for every code unit and one more, the three
    parsers never run out, and what they read is readable. *)
Lemma parsers_read (fuel : nat) :
  (forall s, 2 * length s + 1 <= fuel -> reads s (value_ fuel s)) /\
  (forall s acc, 2 * length s + 1 <= fuel -> reads s (members fuel s acc)) /\
  (forall s, 2 * length s + 2 <= fuel -> reads s (elements fuel s)).
Proof.
  induction fuel as [|f (IHv & IHm & IHe)].
  - repeat split; intros; lia.
  - split; [|split].
    + intros s Hf. cbn [value_]. apply reads_ws.
      pose proof (skip_ws_length s) as Hl.
      destruct (skip_ws s) as [|c t]; [exact I|].
      destruct (N.eqb_spec c 123) as [->|_].
      { apply reads_cons; [is_plain|]. apply reads_ws.
        pose proof (skip_ws_length t) as Hl'.
        destruct (skip_ws t) as [|c' t']; [exact I|].
        destruct (N.eqb_spec c' 125) as [->|_].
        - exists [125%N]. split; [reflexivity|]. apply readable_single; is_plain.
        - apply reads_pmap, IHm. lens. }
      destruct (N.eqb_spec c 91) as [->|_].
      { apply reads_cons; [is_plain|]. apply reads_ws.
        pose proof (skip_ws_length t) as Hl'.
        destruct (skip_ws t) as [|c' t']; [exact I|].
        destruct (N.eqb_spec c' 93) as [->|_].
        - exists [93%N]. split; [reflexivity|]. apply readable_single; is_plain.
        - apply reads_pmap, IHe. lens. }
      destruct (N.eqb_spec c 34) as [->|_]; [apply string_literal_reads|].
      destruct (N.eqb c 116); [apply keyword_reads, readable_true|].
      destruct (N.eqb c 102); [apply keyword_reads, readable_false|].
      destruct (N.eqb c 110); [apply keyword_reads, readable_null|].
      apply reads_pmap, number_reads.
    + intros s acc Hf. cbn [members].
      destruct s as [|q t]; [exact I|].
      destruct (N.eqb_spec q 34) as [->|_]; [|exact I].
      pose proof (string_chars_reads t) as Hs.
      destruct (string_chars t) as [k r| |]; [|exact I|exact Hs].
      destruct Hs as (c0 & -> & Hc0 & Hl0).
      change (34%N :: c0 ++ r) with ((34%N :: c0) ++ r).
      apply reads_seq.
      { apply one_line_readable; [|reflexivity].
        split; [discriminate|]. constructor; [discriminate | exact Hl0]. }
      apply reads_ws. pose proof (skip_ws_length r) as Hl.
      destruct (skip_ws r) as [|c r1]; [exact I|].
      destruct (N.eqb_spec c 58) as [->|_]; [|exact I].
      apply reads_cons; [is_plain|].
      assert (Hv : reads r1 (value_ f r1)) by (apply IHv; lens).
      destruct (value_ f r1) as [v r2| |]; [|exact I|exact Hv].
      pose proof (reads_length Hv) as Hl2.
      destruct Hv as (c1 & -> & Hc1). apply reads_seq; [exact Hc1|].
      apply reads_ws. pose proof (skip_ws_length r2) as Hl3.
      destruct (skip_ws r2) as [|d r3]; [exact I|].
      destruct (N.eqb_spec d 44) as [->|_].
      * apply reads_cons; [is_plain|]. apply reads_ws, IHm.
        pose proof (skip_ws_length r3). lens.
      * destruct (N.eqb_spec d 125) as [->|_]; [|exact I].
        exists [125%N]. split; [reflexivity|]. apply readable_single; is_plain.
    + intros s Hf. cbn [elements].
      assert (Hv : reads s (value_ f s)) by (apply IHv; lia).
      destruct (value_ f s) as [v r| |]; [|exact I|exact Hv].
      pose proof (reads_length Hv) as Hl2.
      destruct Hv as (c1 & -> & Hc1). apply reads_seq; [exact Hc1|].
      apply reads_ws. pose proof (skip_ws_length r) as Hl3.
      destruct (skip_ws r) as [|d r1]; [exact I|].
      destruct (N.eqb_spec d 44) as [->|_].
      * apply reads_cons; [is_plain|]. apply reads_pmap, IHe. lens.
      * destruct (N.eqb_spec d 93) as [->|_]; [|exact I].
        exists [93%N]. split; [reflexivity|]. apply readable_single; is_plain.
Qed.

(** [parse] never stops for lack of budget. *)
Lemma parse_within_budget (text : str) :
  value_ (2 * length text + 1) text <> NoFuel.
Proof.
  pose proof (proj1 (parsers_read (2 * length text + 1)) text (le_n _)) as H.
  intros E. now rewrite E in H.
Qed.

Lemma ws_only_clean (s : str) :
  skip_ws s = [] -> no_lf_backtick s = true /\ starts_well s = true.
Proof.
  induction s as [|x t IH]; [now split|].
  cbn [skip_ws]. destruct (is_ws x) eqn:E; [|discriminate].
  intros H. destruct (IH H) as [Hn Hs]. split.
  - destruct t as [|y t]; [reflexivity|].
    rewrite no_lf_backtick_step, Hn, andb_true_r.
    simpl in Hs. apply negb_true_iff in Hs. rewrite Hs.
    now rewrite andb_false_r.
  - simpl. now apply negb_true_iff, N.eqb_neq, is_ws_not_backtick.
Qed.

(** Text that parses has no line feed directly followed by a backtick: a
    backtick can only stand inside a string literal, and a line feed only
    outside. *)
Lemma parse_no_lf_backtick (text : str) (v : value) :
  parse text = Return v -> no_lf_backtick text = true.
Proof.
  unfold parse.
  pose proof (proj1 (parsers_read (2 * length text + 1)) text (le_n _)) as H.
  destruct (value_ (2 * length text + 1) text) as [v' rest| |]; try discriminate.
  destruct (skip_ws rest) eqn:E; [|discriminate]. intros _.
  destruct H as (c & -> & Hc & Hs & He & Hn).
  destruct (ws_only_clean _ E) as [Hr _].
  apply no_lf_backtick_app; auto.
Qed.

(** Text that starts with an opening brace parses to an object or not at
    all. *)
Lemma parse_brace_object (t : str) (d : value) :
  parse (123%N :: t) = Return d -> exists ms, d = Obj ms.
Proof.
  unfold parse.
  replace (2 * length (123%N :: t) + 1) with (S (2 * length (123%N :: t))) by lia.
  cbn [value_ skip_ws]. change (is_ws 123) with false. cbv iota.
  change (N.eqb 123 123) with true. cbv iota.
  destruct (skip_ws t) as [|c' t']; [discriminate|].
  destruct (N.eqb c' 125).
  - destruct (skip_ws t'); [|discriminate]. intros H; inversion H. now exists [].
  - destruct (members _ _ _) as [ms rest| |]; try discriminate.
    cbn [pmap]. destruct (skip_ws rest); [|discriminate].
    intros H; inversion H. now exists ms.
Qed.

End ParseFacts.

(* ================================================================== *)
(** * The session *)
(* ================================================================== *)

Lemma count_app (f : event -> bool) (a b : list event) :
  length (filter f (a ++ b)) = length (filter f a) + length (filter f b).
Proof. now rewrite filter_app, length_app. Qed.

Lemma turn_keeps_balance (ntos : str -> str) (w : world) (p : str) (st : state) :
  balanced st -> balanced (snd (turn ntos w p st)).
Proof.
  intros Hb. pose proof (turn_cases ntos w p st) as H.
  remember (fst (turn ntos w p st)) as o eqn:Ho.
  remember (snd (turn ntos w p st)) as st' eqn:Hst'. clear Ho Hst'.
  unfold balanced, tool_turns, plain_turns, tool_calls in *.
  destruct H; unfold extend; cbn [conversationHistory trace];
    rewrite !count_app, length_app; simpl; lia.
Qed.

Lemma loop_keeps_balance (ntos : str -> str) (script : list (str * world)) (st : state) :
  balanced st -> balanced (snd (loop ntos script st)).
Proof.
  revert st; induction script as [|[p w] rest IH]; intros st Hb; cbn [loop].
  - exact Hb.
  - destruct (is_exit_word p); [exact Hb|].
    unfold bind. pose proof (turn_keeps_balance ntos w p Hb) as Hb'.
    destruct (turn ntos w p st) as [[[]|e] st']; cbn [snd] in *; auto.
Qed.

(** An interpretation line is only written after a tool call, so the two
    counts agree exactly when no tool call was left without its
    interpretation. *)
Lemma turn_keeps_order (ntos : str -> str) (w : world) (p : str) (st : state) :
  tool_turns (trace st) <= tool_calls (trace st) ->
  tool_turns (trace (snd (turn ntos w p st)))
    <= tool_calls (trace (snd (turn ntos w p st))).
Proof.
  intros Hb. pose proof (turn_cases ntos w p st) as H.
  remember (fst (turn ntos w p st)) as o eqn:Ho.
  remember (snd (turn ntos w p st)) as st' eqn:Hst'. clear Ho Hst'.
  unfold tool_turns, tool_calls in *.
  destruct H; unfold extend; cbn [conversationHistory trace];
    rewrite !count_app; simpl; lia.
Qed.

Lemma interpretations_follow_calls (ntos : str -> str) (script : list (str * world))
    (st : state) :
  tool_turns (trace st) <= tool_calls (trace st) ->
  tool_turns (trace (snd (loop ntos script st)))
    <= tool_calls (trace (snd (loop ntos script st))).
Proof.
  revert st; induction script as [|[p w] rest IH]; intros st Hb; cbn [loop].
  - exact Hb.
  - destruct (is_exit_word p); [exact Hb|].
    unfold bind. pose proof (turn_keeps_order ntos w p st Hb) as Hb'.
    destruct (turn ntos w p st) as [[[]|e] st']; cbn [snd] in *; auto.
Qed.

Lemma main_from_state (ntos : str -> str) (st : state) (script : list (str * world)) :
  snd (main_from ntos st script) = snd (loop ntos script st).
Proof.
  unfold main_from. destruct (loop ntos script st) as [[[]|e] st']; reflexivity.
Qed.

(** The slip in the outer handler: when the second request fails after a
    tool call, the two messages already appended are appended again. *)
Lemma second_request_failure_appends_four :
  conversationHistory (snd (main Examples.literal_text Examples.flaky_session)) =
    [{| role := user; content := js "say hi" |};
     {| role := assistant; content := Examples.echo_directive |};
     {| role := user; content := js "say hi" |};
     {| role := assistant; content := Examples.echo_directive |}].
Proof. vm_compute. reflexivity. Qed.

(* ================================================================== *)
(** * Failing requests to the model *)
(* ================================================================== *)

(** C1, as the program has it: when the first request of a turn to the
    model fails, the turn writes no answer, the error leaves the loop and
    ends the session with that error, the prompts that follow are not read,
    and the history is the one from before the turn. *)
Theorem first_request_failure_ends_session
    (ntos : str -> str) (w : world) (userPrompt : str) (rest : list (str * world))
    (st : state) (tools : list Tool) (e : thrown) :
  let messages := messages_of ntos tools (conversationHistory st) userPrompt in
  is_exit_word userPrompt = false ->
  search_tools w userPrompt 10 = Return tools ->
  response_content (completions_create w 0 messages) = Throw e ->
  fst (main_from ntos st ((userPrompt, w) :: rest)) = Crashed e /\
  conversationHistory (snd (main_from ntos st ((userPrompt, w) :: rest)))
    = conversationHistory st /\
  trace (snd (main_from ntos st ((userPrompt, w) :: rest)))
    = trace st ++ [EvSearch userPrompt 10; EvChat messages].
Proof.
  intros messages Hx Hs Hr. unfold main_from. cbn [loop]. rewrite Hx.
  unfold bind. rewrite (turn_first_request_throws ntos w userPrompt st Hs Hr).
  cbn [fst snd extend conversationHistory trace].
  now rewrite app_nil_r.
Qed.

Lemma first_request_failure_ends_session_witness :
  fst (main Examples.literal_text Examples.down_session)
    = Crashed (ErrorObject (js "503")) /\
  conversationHistory (snd (main Examples.literal_text Examples.down_session)) = [] /\
  trace (snd (main Examples.literal_text Examples.down_session))
    = [EvSearch (js "hello") 10;
       EvChat (messages_of Examples.literal_text [] [] (js "hello"))].
Proof.
  exact (first_request_failure_ends_session Examples.literal_text
           Examples.down_world (js "hello") [(js "again", Examples.chat_world)]
           initial (tools := []) (e := ErrorObject (js "503"))
           eq_refl eq_refl eq_refl).
Defined.

(** C1 as the specification states it fails: after a failing request the
    session does not go on to the next prompt, and no answer is written. *)
Lemma gateway_failure_is_not_absorbed :
  fst (main Examples.literal_text Examples.down_session)
    = Crashed (ErrorObject (js "503")) /\
  plain_turns (trace (snd (main Examples.literal_text Examples.down_session))) = 0 /\
  tool_turns (trace (snd (main Examples.literal_text Examples.down_session))) = 0 /\
  existsb (fun ev => match ev with
                     | EvSearch q _ => str_eqb q (js "again")
                     | _ => false
                     end)
    (trace (snd (main Examples.literal_text Examples.down_session))) = false.
Proof. vm_compute. repeat split; reflexivity. Qed.

(* ================================================================== *)
(** * The length of the history *)
(* ================================================================== *)

(** C2, as the program has it: when every tool call of the session was
    followed by its interpretation, the history holds three messages for
    every turn completed with a tool and two for every turn completed
    without. *)
Theorem history_length_three_per_tool_turn
    (ntos : str -> str) (script : list (str * world)) :
  let st := snd (main ntos script) in
  tool_calls (trace st) = tool_turns (trace st) ->
  length (conversationHistory st)
    = 3 * tool_turns (trace st) + 2 * plain_turns (trace st).
Proof.
  intros st Hc.
  assert (Hb : balanced st).
  { subst st. unfold main. rewrite main_from_state.
    apply loop_keeps_balance. reflexivity. }
  unfold balanced in Hb. lia.
Qed.

Lemma history_length_three_per_tool_turn_witness :
  length (conversationHistory (snd (main Examples.literal_text Examples.mixed_session)))
  = 3 * 1 + 2 * 1.
Proof.
  exact (history_length_three_per_tool_turn Examples.literal_text
           Examples.mixed_session eq_refl).
Defined.

(** C2 as the specification states it fails: one completed turn with a tool
    and none without leave three messages, not two. *)
Lemma tool_turn_appends_three :
  fst (main Examples.literal_text Examples.echo_session) = AwaitingInput /\
  tool_turns (trace (snd (main Examples.literal_text Examples.echo_session))) = 1 /\
  plain_turns (trace (snd (main Examples.literal_text Examples.echo_session))) = 0 /\
  conversationHistory (snd (main Examples.literal_text Examples.echo_session)) =
    [{| role := user; content := js "say hi" |};
     {| role := assistant; content := Examples.echo_directive |};
     {| role := assistant; content := js "The tool received hi." |}] /\
  length (conversationHistory (snd (main Examples.literal_text Examples.echo_session)))
    <> 2 * (1 + 0).
Proof. vm_compute. repeat split; try reflexivity. discriminate. Qed.

(* ================================================================== *)
(** * The interpretation of a reply *)
(* ================================================================== *)

Lemma candidate_starts_with_brace (s c : str) :
  candidate s = Some c -> exists t, c = 123%N :: t.
Proof.
  unfold candidate, fenced_span, brace_span.
  destruct (split_first fence_open s) as [[b after]|].
  - destruct (split_first fence_close after) as [[body r]|].
    + intros H; inversion H. now exists (body ++ js "}").
    + destruct (split_first (js "{") s) as [[b' after']|]; [|discriminate].
      destruct (split_last 125 after') as [[u r]|]; [|discriminate].
      intros H; inversion H. now exists u.
  - destruct (split_first (js "{") s) as [[b' after']|]; [|discriminate].
    destruct (split_last 125 after') as [[u r]|]; [|discriminate].
    intros H; inversion H. now exists u.
Qed.

(** The body of the outer [try] throws only when [JSON.parse] does: the
    [in] operator is applied to an object. *)
Lemma interpret_try_throws (s c : str) (e : thrown) :
  candidate s = Some c -> interpret_try c = Throw e -> JSON.parse c = Throw e.
Proof.
  intros Hc. destruct (candidate_starts_with_brace _ Hc) as [t ->].
  unfold interpret_try.
  destruct (JSON.parse (123%N :: t)) as [d|e'] eqn:E; [|intros H; now inversion H].
  destruct (ParseFacts.parse_brace_object _ E) as [ms ->]. simpl.
  destruct (JSON.get (js "tool_name") ms), (JSON.get (js "arguments") ms); discriminate.
Qed.

(** The interpretation in terms of the one candidate. *)
Lemma interpret_candidate (s : str) :
  interpret s =
  match candidate s with
  | None => None
  | Some c =>
      match JSON.parse c with
      | Return (JSON.Obj ms) =>
          match JSON.get (js "tool_name") ms, JSON.get (js "arguments") ms with
          | Some toolName, Some arguments_ => Some (toolName, arguments_)
          | _, _ => None
          end
      | _ => None
      end
  end.
Proof.
  unfold interpret. rewrite jsonMatch_candidate.
  destruct (candidate s) as [c|] eqn:Hc; [|reflexivity].
  destruct (candidate_starts_with_brace _ Hc) as [t ->].
  unfold interpret_try.
  destruct (JSON.parse (123%N :: t)) as [d|e] eqn:E; [|reflexivity].
  destruct (ParseFacts.parse_brace_object _ E) as [ms ->]. simpl.
  destruct (JSON.get (js "tool_name") ms), (JSON.get (js "arguments") ms); reflexivity.
Qed.

Lemma strip_prefix_none_app (p u r : str) :
  strip_prefix p u = None -> length p <= length u -> strip_prefix p (u ++ r) = None.
Proof.
  revert u; induction p as [|y p IH]; intros u H Hl; [discriminate|].
  destruct u as [|z u]; [simpl in Hl; lia|].
  simpl in *. destruct (N.eqb y z); [apply IH; [exact H | lia] | reflexivity].
Qed.

(** The leftmost occurrence stays the leftmost when text is added after
    it. *)
Lemma split_first_extend (pat a rest : str) :
  split_first pat (a ++ pat) = Some (a, []) ->
  split_first pat (a ++ pat ++ rest) = Some (a, rest).
Proof.
  induction a as [|x a IH]; intros H.
  - destruct pat as [|y pat]; [destruct rest; reflexivity|].
    cbn [app split_first]. change (y :: pat ++ rest) with ((y :: pat) ++ rest).
    now rewrite strip_prefix_self.
  - cbn [app split_first] in *.
    destruct (strip_prefix pat (x :: a ++ pat)) as [r|] eqn:E; [discriminate|].
    assert (E' : strip_prefix pat (x :: a ++ pat ++ rest) = None).
    { change (x :: a ++ pat ++ rest) with ((x :: a) ++ pat ++ rest).
      rewrite app_assoc. apply strip_prefix_none_app; [exact E|].
      cbn [app length]. rewrite length_app. lia. }
    rewrite E'.
    destruct (split_first pat (a ++ pat)) as [[b r]|]; [|discriminate].
    inversion H; subst. now rewrite IH.
Qed.

Lemma no_lf_backtick_tail (x : N) (t : str) :
  JSON.no_lf_backtick (x :: t) = true -> JSON.no_lf_backtick t = true.
Proof.
  destruct t as [|y t]; [reflexivity|].
  rewrite ParseFacts.no_lf_backtick_step. intros H.
  now apply andb_true_iff in H as [_ H].
Qed.

(** In text without a line feed directly followed by a backtick, a closing
    fence can only start at the last brace. *)
Lemma closing_fence_is_first (body : str) :
  JSON.no_lf_backtick (body ++ js "}") = true ->
  split_first fence_close (body ++ fence_close) = Some (body, []).
Proof.
  induction body as [|x b IH]; intros H.
  - reflexivity.
  - pose proof (no_lf_backtick_tail _ _ H) as Ht.
    cbn [app split_first]. rewrite (IH Ht).
    assert (E : strip_prefix fence_close (x :: b ++ fence_close) = None).
    { unfold fence_close at 1. cbn -[N.eqb fence_close].
      destruct (N.eqb 125 x); [|reflexivity].
      destruct b as [|y [|z b]]; cbn -[N.eqb]; try reflexivity.
      - destruct (N.eqb 10 y); reflexivity.
      - cbn [app] in H. rewrite ParseFacts.no_lf_backtick_step in H.
        apply andb_true_iff in H as [_ H].
        rewrite ParseFacts.no_lf_backtick_step in H.
        apply andb_true_iff in H as [H _].
        rewrite (N.eqb_sym 10 y), (N.eqb_sym 96 z).
        destruct (N.eqb y 10); [|reflexivity].
        destruct (N.eqb z 96); [discriminate | reflexivity]. }
    now rewrite E.
Qed.

(** C3, as the program has it: the interpreter parses one candidate only.
    The candidate is the text of the first fenced [json] block, from the
    brace after its opening fence to the first closing brace followed by a
    line break and a fence; without such a block it is the text from the
    first opening brace of the reply to its last closing brace, balanced or
    not.  A directive is returned when the candidate parses to an object
    with the two keys, and nothing otherwise: no second candidate is tried.
    In particular, when the first fenced block of a reply holds a directive,
    that directive is returned whatever text surrounds the block. *)
Theorem interpret_takes_one_candidate :
  (forall s : str,
     interpret s =
     match candidate s with
     | None => None
     | Some c =>
         match JSON.parse c with
         | Return (JSON.Obj ms) =>
             match JSON.get (js "tool_name") ms, JSON.get (js "arguments") ms with
             | Some toolName, Some arguments_ => Some (toolName, arguments_)
             | _, _ => None
             end
         | _ => None
         end
     end) /\
  (forall (pre body post : str) (ms : list (str * JSON.value))
          (toolName arguments_ : JSON.value),
     split_first fence_open (pre ++ fence_open) = Some (pre, []) ->
     JSON.parse (js "{" ++ body ++ js "}") = Return (JSON.Obj ms) ->
     JSON.get (js "tool_name") ms = Some toolName ->
     JSON.get (js "arguments") ms = Some arguments_ ->
     interpret (pre ++ js "```json" ++ LF ++ js "{" ++ body ++ js "}" ++ LF
                ++ js "```" ++ post)
       = Some (toolName, arguments_)).
Proof.
  split; [exact interpret_candidate|].
  intros pre body post ms toolName arguments_ Hpre Hparse Hn Ha.
  rewrite interpret_candidate.
  assert (Hc : candidate (pre ++ js "```json" ++ LF ++ js "{" ++ body ++ js "}" ++ LF
                          ++ js "```" ++ post)
               = Some (js "{" ++ body ++ js "}")).
  { replace (pre ++ js "```json" ++ LF ++ js "{" ++ body ++ js "}" ++ LF
             ++ js "```" ++ post)
      with (pre ++ fence_open ++ (body ++ fence_close ++ post))
      by (unfold fence_open, fence_close; now rewrite <- !app_assoc).
    unfold candidate, fenced_span.
    rewrite (@split_first_extend fence_open pre _ Hpre).
    rewrite split_first_extend; [reflexivity|].
    apply closing_fence_is_first.
    apply ParseFacts.parse_no_lf_backtick in Hparse.
    now apply no_lf_backtick_tail in Hparse. }
  rewrite Hc, Hparse, Hn, Ha. reflexivity.
Qed.

Lemma interpret_takes_one_candidate_witness :
  interpret Examples.fenced_reply = Some (Examples.echo_name, Examples.echo_arguments).
Proof.
  exact (proj2 interpret_takes_one_candidate
           (js "I will call the tool." ++ LF)
           (jsq "'tool_name':'svc.echo','arguments':{'value':'hi'}")
           (LF ++ js "One moment.")
           [(js "tool_name", Examples.echo_name); (js "arguments", Examples.echo_arguments)]
           Examples.echo_name Examples.echo_arguments
           eq_refl eq_refl eq_refl eq_refl).
Defined.

(** C3 as the specification states it fails: a directive that stands after
    another object, or in a second fenced block, is not found, although it
    is the first text between braces that parses and has the two keys. *)
Lemma later_directive_is_not_found :
  interpret Examples.two_objects = None /\
  interpret Examples.two_fences = None /\
  occurs Examples.echo_directive Examples.two_objects = true /\
  occurs (js "```json" ++ LF ++ Examples.echo_directive ++ LF ++ js "```")
    Examples.two_fences = true /\
  interpret Examples.echo_directive = Some (Examples.echo_name, Examples.echo_arguments) /\
  JSON.parse (jsq "{'a':1}") = Return (JSON.Obj [(js "a", JSON.Num (js "1"))]).
Proof. vm_compute. repeat split; reflexivity. Qed.

(** C4, as the program has it: the interpreter gives no directive exactly
    when no candidate is found, or the candidate does not parse, or the
    parsed object lacks one of the two keys; the values under the keys are
    not looked at.  The only throw in the interpretation is the one of
    [JSON.parse], and it is caught: a reply without a directive is answered
    as a plain reply and the turn returns. *)
Theorem interpret_null_without_keys :
  (forall s : str,
     interpret s = None <->
     candidate s = None \/
     exists c, candidate s = Some c /\
       ((exists e, JSON.parse c = Throw e) \/
        exists ms, JSON.parse c = Return (JSON.Obj ms) /\
          (JSON.get (js "tool_name") ms = None \/ JSON.get (js "arguments") ms = None))) /\
  (forall (s c : str) (e : thrown),
     candidate s = Some c -> interpret_try c = Throw e -> JSON.parse c = Throw e) /\
  (forall (ntos : str -> str) (w : world) (userPrompt : str) (st : state)
          (tools : list Tool) (assistantResponse : str),
     let messages := messages_of ntos tools (conversationHistory st) userPrompt in
     search_tools w userPrompt 10 = Return tools ->
     response_content (completions_create w 0 messages) = Return assistantResponse ->
     interpret assistantResponse = None ->
     turn ntos w userPrompt st =
       (Return tt,
        extend st
          [{| role := user; content := userPrompt |};
           {| role := assistant; content := assistantResponse |}]
          [EvSearch userPrompt 10; EvChat messages; EvAssistant assistantResponse])).
Proof.
  split; [|split].
  - intros s. rewrite interpret_candidate.
    destruct (candidate s) as [c|] eqn:Hc.
    + destruct (candidate_starts_with_brace _ Hc) as [t ->].
      destruct (JSON.parse (123%N :: t)) as [d|e] eqn:E.
      * destruct (ParseFacts.parse_brace_object _ E) as [ms ->].
        destruct (JSON.get (js "tool_name") ms) as [n|] eqn:En;
          destruct (JSON.get (js "arguments") ms) as [a|] eqn:Ea.
        -- split; [discriminate|].
           intros [H|(c' & H & [[e H']|(ms' & H' & [H''|H''])])]; try discriminate;
             inversion H; subst c'; rewrite E in H'; inversion H'; subst ms';
             congruence.
        -- split; [|reflexivity]. intros _. right. eexists; split; [reflexivity|].
           right. exists ms. auto.
        -- split; [|reflexivity]. intros _. right. eexists; split; [reflexivity|].
           right. exists ms. auto.
        -- split; [|reflexivity]. intros _. right. eexists; split; [reflexivity|].
           right. exists ms. auto.
      * split; [|reflexivity]. intros _. right. eexists; split; [reflexivity|].
        left. now exists e.
    + split; auto.
  - exact interpret_try_throws.
  - intros. now apply turn_plain with (tools := tools).
Qed.

Lemma interpret_null_without_keys_witness :
  turn Examples.literal_text Examples.chat_world (js "hello") initial =
    (Return tt,
     extend initial
       [{| role := user; content := js "hello" |};
        {| role := assistant; content := js "Hello!" |}]
       [EvSearch (js "hello") 10;
        EvChat (messages_of Examples.literal_text [] [] (js "hello"));
        EvAssistant (js "Hello!")]).
Proof.
  exact (proj2 (proj2 interpret_null_without_keys)
           Examples.literal_text Examples.chat_world (js "hello") initial
           [] (js "Hello!") eq_refl eq_refl eq_refl).
Defined.

(** C4 as the specification states it fails: a reply whose object has the
    two keys with a number under each holds no directive of the data model,
    and yet it is taken for one. *)
Lemma untyped_directive_is_accepted :
  interpret Examples.untyped_directive
    = Some (JSON.Num (js "5"), JSON.Num (js "7")).
Proof. vm_compute. reflexivity. Qed.

(* ================================================================== *)
(** * Tool calls *)
(* ================================================================== *)

(** C5: when a directive is found and the tool call throws, the turn goes
    on.  The tool output is the text [Error calling], the tool name and the
    message of the error; the second request ends with a user message that
    carries it, so it contains the tool name and the message; and the reply
    to that request is the answer of the turn, appended with the prompt and
    the directive text. *)
Theorem tool_failure_is_fed_back
    (ntos : str -> str) (w : world) (userPrompt : str) (st : state)
    (tools : list Tool) (assistantResponse : str)
    (toolName arguments_ : JSON.value) (name : str) (e : thrown) (finalResponse : str) :
  let messages := messages_of ntos tools (conversationHistory st) userPrompt in
  let errorMessage := js "Error calling " ++ name ++ js ": " ++ error_text e in
  let history' := conversationHistory st ++
                  [{| role := user; content := userPrompt |};
                   {| role := assistant; content := assistantResponse |}] in
  let followUpMessages :=
    systemMessage ntos tools :: history'
    ++ [{| role := user; content := js "Tool output: " ++ errorMessage |}] in
  search_tools w userPrompt 10 = Return tools ->
  response_content (completions_create w 0 messages) = Return assistantResponse ->
  interpret assistantResponse = Some (toolName, arguments_) ->
  Serialize.ToString ntos toolName = Return name ->
  call_tool w toolName arguments_ = Throw e ->
  response_content (completions_create w 1 followUpMessages) = Return finalResponse ->
  turn ntos w userPrompt st =
    (Return tt,
     extend st
       [{| role := user; content := userPrompt |};
        {| role := assistant; content := assistantResponse |};
        {| role := assistant; content := finalResponse |}]
       [EvSearch userPrompt 10; EvChat messages; EvCallTool toolName arguments_;
        EvChat followUpMessages; EvInterpretation finalResponse]) /\
  occurs name (js "Tool output: " ++ errorMessage) = true /\
  occurs (error_text e) (js "Tool output: " ++ errorMessage) = true.
Proof.
  intros messages errorMessage history' followUpMessages Hs Hr Hi Hn Hc Hf.
  assert (Ho : tool_output ntos w toolName arguments_ name = Some errorMessage)
    by (unfold tool_output; now rewrite Hc).
  split; [|split].
  - assert (Hf' : response_content
                    (completions_create w 1
                       (followUpMessages_of ntos tools history'
                          (tool_output ntos w toolName arguments_ name)))
                  = Return finalResponse) by (rewrite Ho; exact Hf).
    rewrite (turn_tool ntos w userPrompt st Hs Hr Hi Hn Hf').
    now rewrite Ho.
  - subst errorMessage.
    replace (js "Tool output: " ++ js "Error calling " ++ name ++ js ": " ++ error_text e)
      with ((js "Tool output: " ++ js "Error calling ") ++ name ++ js ": " ++ error_text e)
      by now rewrite <- app_assoc.
    apply occurs_app.
  - subst errorMessage.
    replace (js "Tool output: " ++ js "Error calling " ++ name ++ js ": " ++ error_text e)
      with ((js "Tool output: " ++ js "Error calling " ++ name ++ js ": ")
            ++ error_text e ++ [])
      by (rewrite app_nil_r, <- !app_assoc; reflexivity).
    apply occurs_app.
Qed.

Lemma tool_failure_is_fed_back_witness :
  turn Examples.literal_text Examples.timeout_world (js "say hi") initial =
    (Return tt,
     extend initial
       [{| role := user; content := js "say hi" |};
        {| role := assistant; content := Examples.echo_directive |};
        {| role := assistant; content := js "The tool timed out." |}]
       [EvSearch (js "say hi") 10;
        EvChat (messages_of Examples.literal_text [Examples.echo_tool] [] (js "say hi"));
        EvCallTool Examples.echo_name Examples.echo_arguments;
        EvChat (systemMessage Examples.literal_text [Examples.echo_tool]
                :: [{| role := user; content := js "say hi" |};
                    {| role := assistant; content := Examples.echo_directive |}]
                ++ [{| role := user;
                       content := js "Tool output: Error calling svc.echo: timeout" |}]);
        EvInterpretation (js "The tool timed out.")]) /\
  occurs (js "svc.echo") (js "Tool output: Error calling svc.echo: timeout") = true /\
  occurs (js "timeout") (js "Tool output: Error calling svc.echo: timeout") = true.
Proof.
  exact (tool_failure_is_fed_back Examples.literal_text Examples.timeout_world
           (js "say hi") initial (tools := [Examples.echo_tool])
           (assistantResponse := Examples.echo_directive)
           (toolName := Examples.echo_name) (arguments_ := Examples.echo_arguments)
           (name := js "svc.echo") (e := ErrorObject (js "timeout"))
           (finalResponse := js "The tool timed out.")
           eq_refl eq_refl eq_refl eq_refl eq_refl eq_refl).
Defined.


(** The condition on the tool name is needed: a name that is an object with
    its own [toString] member makes the progress line throw, the handler of
    the outer [try] answers with the reply as it is, and no tool is
    called. *)
Lemma unprintable_name_is_not_called :
  interpret Examples.odd_directive
    = Some (JSON.Obj [(js "toString", JSON.Num (js "1"))], JSON.Obj []) /\
  tool_calls
    (trace (snd (turn Examples.literal_text Examples.odd_world (js "hello") initial))) = 0 /\
  conversationHistory
    (snd (turn Examples.literal_text Examples.odd_world (js "hello") initial)) =
    [{| role := user; content := js "hello" |};
     {| role := assistant; content := Examples.odd_directive |}].
Proof. vm_compute. repeat split; reflexivity. Qed.


(* ================================================================== *)
(** * What is persisted and what is sent *)
(* ================================================================== *)

(** C6: in every turn, whatever its course, a message appended to the
    history is the user's prompt or an assistant message: the system message
    and the message with the tool output are never appended.  In a turn
    completed with a tool, exactly the prompt, the directive text and the
    final reply are appended, and the message with the tool output is the
    last one of the second request only. *)
Theorem only_three_messages_are_persisted
    (ntos : str -> str) (w : world) (userPrompt : str) (st : state) :
  (exists added,
     conversationHistory (snd (turn ntos w userPrompt st))
       = conversationHistory st ++ added /\
     Forall (fun m => m = {| role := user; content := userPrompt |} \/ role m = assistant)
       added) /\
  (forall (tools : list Tool) (assistantResponse : str)
          (toolName arguments_ : JSON.value) (name finalResponse : str),
     let messages := messages_of ntos tools (conversationHistory st) userPrompt in
     let history' := conversationHistory st ++
                     [{| role := user; content := userPrompt |};
                      {| role := assistant; content := assistantResponse |}] in
     let toolOutput := tool_output ntos w toolName arguments_ name in
     let followUpMessages :=
       systemMessage ntos tools :: history' ++ [tool_output_message toolOutput] in
     search_tools w userPrompt 10 = Return tools ->
     response_content (completions_create w 0 messages) = Return assistantResponse ->
     interpret assistantResponse = Some (toolName, arguments_) ->
     Serialize.ToString ntos toolName = Return name ->
     response_content (completions_create w 1 followUpMessages) = Return finalResponse ->
     conversationHistory (snd (turn ntos w userPrompt st)) =
       conversationHistory st ++
       [{| role := user; content := userPrompt |};
        {| role := assistant; content := assistantResponse |};
        {| role := assistant; content := finalResponse |}] /\
     trace (snd (turn ntos w userPrompt st)) =
       trace st ++
       [EvSearch userPrompt 10; EvChat messages; EvCallTool toolName arguments_;
        EvChat followUpMessages; EvInterpretation finalResponse]).
Proof.
  split.
  - pose proof (turn_cases ntos w userPrompt st) as H.
    remember (fst (turn ntos w userPrompt st)) as o eqn:Ho.
    remember (snd (turn ntos w userPrompt st)) as st' eqn:Hst'. clear Ho Hst'.
    destruct H; eexists; (split; [reflexivity|]);
      repeat (apply Forall_cons; [first [left; reflexivity | right; reflexivity]|]);
      apply Forall_nil.
  - intros tools assistantResponse toolName arguments_ name finalResponse
      messages history' toolOutput followUpMessages Hs Hr Hi Hn Hf.
    rewrite (turn_tool ntos w userPrompt st Hs Hr Hi Hn Hf). split; reflexivity.
Qed.

Lemma only_three_messages_are_persisted_witness :
  conversationHistory
    (snd (turn Examples.literal_text Examples.echo_world (js "say hi") initial)) =
    [] ++
    [{| role := user; content := js "say hi" |};
     {| role := assistant; content := Examples.echo_directive |};
     {| role := assistant; content := js "The tool received hi." |}] /\
  trace (snd (turn Examples.literal_text Examples.echo_world (js "say hi") initial)) =
    [] ++
    [EvSearch (js "say hi") 10;
     EvChat (messages_of Examples.literal_text [Examples.echo_tool] [] (js "say hi"));
     EvCallTool Examples.echo_name Examples.echo_arguments;
     EvChat (systemMessage Examples.literal_text [Examples.echo_tool]
             :: ([] ++ [{| role := user; content := js "say hi" |};
                        {| role := assistant; content := Examples.echo_directive |}])
             ++ [{| role := user;
                    content := jsq "Tool output: {'received':'hi'}" |}]);
     EvInterpretation (js "The tool received hi.")].
Proof.
  exact (proj2 (only_three_messages_are_persisted Examples.literal_text
                  Examples.echo_world (js "say hi") initial)
           [Examples.echo_tool] Examples.echo_directive
           Examples.echo_name Examples.echo_arguments
           (js "svc.echo") (js "The tool received hi.")
           eq_refl eq_refl eq_refl eq_refl eq_refl).
Defined.

Lemma loop_app (ntos : str -> str) (a b : list (str * world)) (st : state) :
  loop ntos (a ++ b) st =
  match loop ntos a st with
  | (Return MoreInput, st') => loop ntos b st'
  | r => r
  end.
Proof.
  revert st; induction a as [|[p w] a IH]; intros st; cbn [app loop].
  - reflexivity.
  - destruct (is_exit_word p); [reflexivity|].
    unfold bind. destruct (turn ntos w p st) as [[[]|e] st']; [apply IH | reflexivity].
Qed.

(** The system message that a turn builds from the tools its search
    returned, written out. *)
Lemma turn_chats_headed (ntos : str -> str) (w : world) (userPrompt : str) (st : state) :
  exists new,
    trace (snd (turn ntos w userPrompt st)) = trace st ++ new /\
    match search_tools w userPrompt 10 with
    | Return tools =>
        chats_of new <> [] /\
        Forall (chat_headed_by
                  {| role := system;
                     content := instructions
                                ++ Serialize.serialize ntos (js "  ") [] (JSON.Arr tools) |})
               new
    | Throw _ => Forall not_a_chat new
    end.
Proof.
  pose proof (turn_cases ntos w userPrompt st) as H.
  remember (fst (turn ntos w userPrompt st)) as o eqn:Ho.
  remember (snd (turn ntos w userPrompt st)) as st' eqn:Hst'. clear Ho Hst'.
  destruct H as [e Hs|tools e messages Hs|tools a messages Hs
                |tools a n args name f messages history' fu Hs
                |tools a n args name e messages history' fu Hs];
    eexists; (split; [reflexivity|]); rewrite Hs;
    try (split; [discriminate|]); repeat constructor.
Qed.

Lemma loop_trace_extends (ntos : str -> str) (script : list (str * world)) (st : state) :
  exists later, trace (snd (loop ntos script st)) = trace st ++ later.
Proof.
  revert st; induction script as [|[p w] script IH]; intros st; cbn [loop].
  - exists []. now rewrite app_nil_r.
  - destruct (is_exit_word p); [exists []; now rewrite app_nil_r|].
    unfold bind.
    destruct (turn_chats_headed ntos w p st) as (new & Hn & _).
    destruct (turn ntos w p st) as [[[]|e] st']; cbn [snd] in *.
    + destruct (IH st') as [later Hl]. exists (new ++ later).
      now rewrite Hl, Hn, app_assoc.
    + now exists new.
Qed.

(** C8: every request that a turn sends to the model starts with the system
    message whose content is the instructions followed by the catalogue of
    the tools that the search of this same turn returned, whatever the state
    left by earlier turns, and such a turn sends at least one request; when
    the search fails no request is sent.  So in any session, at any turn that
    is reached, the requests are headed by the message made from the tools
    found in that turn, not by one made in a turn before. *)
Theorem system_message_heads_every_request :
  (forall (ntos : str -> str) (w : world) (userPrompt : str) (st : state),
   exists new,
     trace (snd (turn ntos w userPrompt st)) = trace st ++ new /\
     match search_tools w userPrompt 10 with
     | Return tools =>
         chats_of new <> [] /\
         Forall (chat_headed_by
                   {| role := system;
                      content := instructions
                                 ++ Serialize.serialize ntos (js "  ") [] (JSON.Arr tools) |})
                new
     | Throw _ => Forall not_a_chat new
     end) /\
  (forall (ntos : str -> str) (before after : list (str * world))
          (userPrompt : str) (w : world) (st st1 : state) (tools : list Tool),
   main_from ntos st before = (AwaitingInput, st1) ->
   is_exit_word userPrompt = false ->
   search_tools w userPrompt 10 = Return tools ->
   exists new later,
     trace (snd (main_from ntos st (before ++ (userPrompt, w) :: after)))
       = trace st1 ++ new ++ later /\
     trace (snd (turn ntos w userPrompt st1)) = trace st1 ++ new /\
     chats_of new <> [] /\
     Forall (chat_headed_by
               {| role := system;
                  content := instructions
                             ++ Serialize.serialize ntos (js "  ") [] (JSON.Arr tools) |})
            new).
Proof.
  split; [exact turn_chats_headed|].
  intros ntos before after p w st st1 tools Hb Hx Hs.
  destruct (turn_chats_headed ntos w p st1) as (new & Hn & Hh).
  rewrite Hs in Hh. destruct Hh as [Hc Hh].
  assert (Hl : loop ntos before st = (Return MoreInput, st1)).
  { unfold main_from in Hb.
    destruct (loop ntos before st) as [[[]|e] st'];
      inversion Hb; subst; reflexivity. }
  rewrite main_from_state, loop_app, Hl. cbn [loop]. rewrite Hx. unfold bind.
  destruct (turn ntos w p st1) as [[[]|e] st2]; cbn [snd] in *.
  - destruct (loop_trace_extends ntos after st2) as [later Hlater].
    exists new, later. rewrite Hlater, Hn, app_assoc. now repeat split.
  - exists new, []. rewrite app_nil_r. now repeat split.
Qed.

(** A session of two turns whose searches find different tools: the requests
    of the second turn carry the catalogue found in the second turn. *)
Lemma system_message_heads_every_request_witness :
  exists new later,
    trace (snd (main_from Examples.literal_text initial
                  ([(js "hello", Examples.chat_world)]
                   ++ (js "say hi", Examples.echo_world) :: [])))
      = trace (snd (main_from Examples.literal_text initial
                      [(js "hello", Examples.chat_world)]))
        ++ new ++ later /\
    trace (snd (turn Examples.literal_text Examples.echo_world (js "say hi")
                  (snd (main_from Examples.literal_text initial
                          [(js "hello", Examples.chat_world)]))))
      = trace (snd (main_from Examples.literal_text initial
                      [(js "hello", Examples.chat_world)])) ++ new /\
    chats_of new <> [] /\
    Forall (chat_headed_by
              {| role := system;
                 content := instructions
                            ++ Serialize.serialize Examples.literal_text (js "  ") []
                                 (JSON.Arr [Examples.echo_tool]) |})
           new.
Proof.
  exact (proj2 system_message_heads_every_request Examples.literal_text
           [(js "hello", Examples.chat_world)] []
           (js "say hi") Examples.echo_world initial
           (snd (main_from Examples.literal_text initial
                   [(js "hello", Examples.chat_world)]))
           [Examples.echo_tool] eq_refl eq_refl eq_refl).
Defined.

(* ================================================================== *)
(** * Empty replies and the empty catalog *)
(* ================================================================== *)

(** C7, as the program has it: a response whose first choice has no content
    or empty content counts as the empty text.  On the first request the
    empty text is a plain reply: it is the answer and is appended with the
    prompt.  On the second request it is the final answer of the turn and is
    appended like any other. *)
Theorem empty_content_is_a_reply :
  (forall (ntos : str -> str) (w : world) (userPrompt : str) (st : state)
          (tools : list Tool) (content : option str) (more : list (option str)),
     let messages := messages_of ntos tools (conversationHistory st) userPrompt in
     search_tools w userPrompt 10 = Return tools ->
     completions_create w 0 messages = Completion (content :: more) ->
     or_empty content = [] ->
     turn ntos w userPrompt st =
       (Return tt,
        extend st
          [{| role := user; content := userPrompt |};
           {| role := assistant; content := [] |}]
          [EvSearch userPrompt 10; EvChat messages; EvAssistant []])) /\
  (forall (ntos : str -> str) (w : world) (userPrompt : str) (st : state)
          (tools : list Tool) (assistantResponse : str)
          (toolName arguments_ : JSON.value) (name : str)
          (content : option str) (more : list (option str)),
     let messages := messages_of ntos tools (conversationHistory st) userPrompt in
     let history' := conversationHistory st ++
                     [{| role := user; content := userPrompt |};
                      {| role := assistant; content := assistantResponse |}] in
     let followUpMessages :=
       followUpMessages_of ntos tools history'
         (tool_output ntos w toolName arguments_ name) in
     search_tools w userPrompt 10 = Return tools ->
     response_content (completions_create w 0 messages) = Return assistantResponse ->
     interpret assistantResponse = Some (toolName, arguments_) ->
     Serialize.ToString ntos toolName = Return name ->
     completions_create w 1 followUpMessages = Completion (content :: more) ->
     or_empty content = [] ->
     turn ntos w userPrompt st =
       (Return tt,
        extend st
          [{| role := user; content := userPrompt |};
           {| role := assistant; content := assistantResponse |};
           {| role := assistant; content := [] |}]
          [EvSearch userPrompt 10; EvChat messages; EvCallTool toolName arguments_;
           EvChat followUpMessages; EvInterpretation []])).
Proof.
  split.
  - intros ntos w userPrompt st tools content more messages Hs Hc He.
    apply turn_plain with (tools := tools); auto.
    subst messages. rewrite Hc. simpl. now rewrite He.
  - intros ntos w userPrompt st tools assistantResponse toolName arguments_ name
      content more messages history' followUpMessages Hs Hr Hi Hn Hc He.
    apply turn_tool with (name := name); auto.
    subst followUpMessages history'. rewrite Hc. simpl. now rewrite He.
Qed.

Lemma empty_content_is_a_reply_witness :
  turn Examples.literal_text Examples.silent_world (js "hello") initial =
    (Return tt,
     extend initial
       [{| role := user; content := js "hello" |};
        {| role := assistant; content := [] |}]
       [EvSearch (js "hello") 10;
        EvChat (messages_of Examples.literal_text [] [] (js "hello"));
        EvAssistant []]) /\
  turn Examples.literal_text Examples.mute_tool_world (js "say hi") initial =
    (Return tt,
     extend initial
       [{| role := user; content := js "say hi" |};
        {| role := assistant; content := Examples.echo_directive |};
        {| role := assistant; content := [] |}]
       [EvSearch (js "say hi") 10;
        EvChat (messages_of Examples.literal_text [Examples.echo_tool] [] (js "say hi"));
        EvCallTool Examples.echo_name Examples.echo_arguments;
        EvChat (followUpMessages_of Examples.literal_text [Examples.echo_tool]
                  ([] ++ [{| role := user; content := js "say hi" |};
                          {| role := assistant; content := Examples.echo_directive |}])
                  (Some (jsq "{'received':'hi'}")));
        EvInterpretation []]).
Proof.
  split.
  - exact (proj1 empty_content_is_a_reply Examples.literal_text Examples.silent_world
             (js "hello") initial [] None [] eq_refl eq_refl eq_refl).
  - exact (proj2 empty_content_is_a_reply Examples.literal_text Examples.mute_tool_world
             (js "say hi") initial [Examples.echo_tool] Examples.echo_directive
             Examples.echo_name Examples.echo_arguments (js "svc.echo") (Some []) []
             eq_refl eq_refl eq_refl eq_refl eq_refl eq_refl).
Defined.

(** C7 as the specification states it fails: after a response without
    content the turn is not given up; the session waits for the next prompt
    with the prompt and an empty assistant message in the history. *)
Lemma empty_reply_is_appended :
  fst (main Examples.literal_text Examples.silent_session) = AwaitingInput /\
  conversationHistory (snd (main Examples.literal_text Examples.silent_session)) =
    [{| role := user; content := js "hello" |};
     {| role := assistant; content := [] |}] /\
  conversationHistory (snd (main Examples.literal_text Examples.silent_session))
    <> conversationHistory initial.
Proof. vm_compute. repeat split; try reflexivity. discriminate. Qed.

(** C9, as the program has it: for the empty catalog the system prompt is
    the fixed instruction text followed by the empty list; the instruction
    text is the one used for every catalog, and it has no sentence about
    answering in natural language. *)
Theorem system_prompt_of_empty_catalog (ntos : str -> str) :
  systemPrompt ntos [] = instructions ++ js "[]" /\
  (forall tools, systemPrompt ntos tools = instructions ++ formatToolsForPrompt ntos tools) /\
  occurs (js "natural language") (toLowerCase (systemPrompt ntos [])) = false.
Proof.
  assert (E : systemPrompt ntos [] = instructions ++ js "[]") by reflexivity.
  split; [exact E|]. split; [reflexivity|].
  rewrite E. vm_compute. reflexivity.
Qed.

(** C9 as the specification states it fails: the system prompt for the empty
    catalog, in full, says nothing of what to do when no tool fits. *)
Lemma no_fallback_sentence :
  systemPrompt Examples.literal_text [] =
    js "You are a helpful assistant. When you need to use a tool, you MUST respond with a JSON object with 'tool_name' and 'arguments' keys. Do not add any other text. The arguments must be a JSON object."
    ++ jsq "For example: {'tool_name': 'some_tool.name', 'arguments': {'arg1': 'value1'}}. "
    ++ js "Here are the available tools:"
    ++ LF ++ js "[]" /\
  occurs (js "natural language")
    (toLowerCase (systemPrompt Examples.literal_text [])) = false /\
  occurs (js "no tool") (toLowerCase (systemPrompt Examples.literal_text [])) = false.
Proof. vm_compute. repeat split; reflexivity. Qed.

(* ================================================================== *)
(** * More of the session *)
(* ================================================================== *)

(** X1: a prompt that is an exit word ends the session there.  The state is
    the one the prompts before it left, the session is reported as ended by
    the user unless it had already ended, and nothing after the exit word is
    read. *)
Theorem exit_word_ends_session
    (ntos : str -> str) (before after : list (str * world))
    (userPrompt : str) (w : world) (st : state) :
  is_exit_word userPrompt = true ->
  main_from ntos st (before ++ (userPrompt, w) :: after) =
  match main_from ntos st before with
  | (AwaitingInput, st') => (Exited, st')
  | ended => ended
  end.
Proof.
  intros Hx. unfold main_from. rewrite loop_app.
  destruct (loop ntos before st) as [[[]|e] st']; try reflexivity.
  cbn [loop]. now rewrite Hx.
Qed.

Lemma exit_word_ends_session_witness :
  main_from Examples.literal_text initial Cases.quit_session =
  match main_from Examples.literal_text initial [(js "say hi", Examples.echo_world)] with
  | (AwaitingInput, st') => (Exited, st')
  | ended => ended
  end.
Proof.
  exact (exit_word_ends_session Examples.literal_text
           [(js "say hi", Examples.echo_world)] [(js "hello", Examples.chat_world)]
           (js "QUIT") Examples.chat_world initial eq_refl).
Defined.

(** What one turn adds to the history: messages of the assistant, and the
    prompt as a message of the user. *)
Lemma turn_appends (ntos : str -> str) (w : world) (p : str) (st : state) :
  exists added,
    conversationHistory (snd (turn ntos w p st)) = conversationHistory st ++ added /\
    Forall (fun m => m = {| role := user; content := p |} \/ role m = assistant) added /\
    (added = [] \/
     (exists t, added = {| role := user; content := p |} :: t) /\
     (exists t c, added = t ++ [{| role := assistant; content := c |}])).
Proof.
  pose proof (turn_cases ntos w p st) as H.
  remember (fst (turn ntos w p st)) as o eqn:Ho.
  remember (snd (turn ntos w p st)) as st' eqn:Hst'. clear Ho Hst'.
  destruct H; eexists; (split; [reflexivity|]); (split;
    [repeat (apply Forall_cons; [first [left; reflexivity | right; reflexivity]|]);
     apply Forall_nil|]).
  - now left.
  - now left.
  - right. split; [eexists; reflexivity|].
    eexists [_], _. reflexivity.
  - right. split; [eexists; reflexivity|].
    eexists [_; _], _. reflexivity.
  - right. split; [eexists; reflexivity|].
    eexists [_; _; _], _. reflexivity.
Qed.

(** X2: a session only ever appends to the history.  Whatever the
    collaborators do, the history at the end is the history at the start
    followed by messages of the assistant and by user messages that carry
    a prompt of the script: nothing is removed or rewritten and no system
    message is stored. *)
Theorem session_only_appends
    (ntos : str -> str) (script : list (str * world)) (st : state) :
  exists added,
    conversationHistory (snd (main_from ntos st script))
      = conversationHistory st ++ added /\
    Forall (fun m => role m = assistant \/
                     (role m = user /\ In (content m) (map fst script))) added.
Proof.
  rewrite main_from_state.
  revert st; induction script as [|[p w] rest IH]; intros st; cbn [loop].
  - exists []. split; [now rewrite app_nil_r | constructor].
  - destruct (is_exit_word p).
    { exists []. split; [now rewrite app_nil_r | constructor]. }
    unfold bind.
    destruct (turn_appends ntos w p st) as (a1 & E1 & F1 & _).
    assert (F1' : Forall (fun m => role m = assistant \/
                            (role m = user /\ In (content m) (map fst ((p, w) :: rest)))) a1).
    { eapply Forall_impl; [|exact F1]. intros m [->|Hm]; [|now left].
      right. split; [reflexivity|]. now left. }
    destruct (turn ntos w p st) as [[[]|e] st'] eqn:Et; cbn [snd] in *.
    + destruct (IH st') as (a2 & E2 & F2).
      exists (a1 ++ a2). split; [now rewrite E2, E1, app_assoc|].
      apply Forall_app. split; [exact F1'|].
      eapply Forall_impl; [|exact F2]. intros m [Hm|[Hm Hi]]; [now left|].
      right. split; [exact Hm|]. now right.
    + exists a1. split; [exact E1 | exact F1'].
Qed.

Lemma framed_app (h added : list Message) (p : str) :
  framed h ->
  (added = [] \/
   (exists t, added = {| role := user; content := p |} :: t) /\
   (exists t c, added = t ++ [{| role := assistant; content := c |}])) ->
  framed (h ++ added).
Proof.
  intros Hh [->|[[t1 E1] [t2 [c E2]]]]; [now rewrite app_nil_r|].
  right. split.
  - destruct Hh as [->|[[q [t ->]] _]].
    + exists p, t1. exact E1.
    + exists q, (t ++ added). reflexivity.
  - exists (h ++ t2), c. rewrite E2. now rewrite app_assoc.
Qed.

(** X3: the history of a session that starts empty is always empty or
    begins with a message of the user and ends with a message of the
    assistant, also after a turn that was cut short: no request is ever
    built on a history that ends with an unanswered prompt. *)
Theorem session_history_is_framed (ntos : str -> str) (script : list (str * world)) :
  framed (conversationHistory (snd (main ntos script))).
Proof.
  unfold main. rewrite main_from_state.
  assert (H0 : framed (conversationHistory initial)) by now left.
  revert H0. generalize initial as st.
  induction script as [|[p w] rest IH]; intros st Hst; cbn [loop].
  - exact Hst.
  - destruct (is_exit_word p); [exact Hst|].
    unfold bind.
    destruct (turn_appends ntos w p st) as (a1 & E1 & _ & S1).
    pose proof (framed_app (p := p) Hst S1) as Hf. rewrite <- E1 in Hf.
    destruct (turn ntos w p st) as [[[]|e] st']; cbn [snd] in *; auto.
Qed.

(** The two ways in which a turn throws. *)
Lemma turn_throw_cases (ntos : str -> str) (w : world) (p : str) (st : state) (e : thrown) :
  fst (turn ntos w p st) = Throw e <->
  search_tools w p 10 = Throw e \/
  exists tools,
    search_tools w p 10 = Return tools /\
    response_content
      (completions_create w 0 (messages_of ntos tools (conversationHistory st) p))
      = Throw e.
Proof.
  split.
  - pose proof (turn_cases ntos w p st) as H.
    remember (fst (turn ntos w p st)) as o eqn:Ho.
    remember (snd (turn ntos w p st)) as st' eqn:Hst'. clear Ho Hst'.
    destruct H; intros E; try discriminate; inversion E; subst.
    + now left.
    + right. now exists tools.
  - intros [Hs|(tools & Hs & Hr)].
    + now rewrite (turn_search_throws ntos w p st Hs).
    + now rewrite (turn_first_request_throws ntos w p st Hs Hr).
Qed.

(** X4: a turn throws in two cases only, when the search throws and when
    the first request to the model throws, and it then throws that same
    value.  A reply that is no directive, a tool that fails, a result that
    cannot be serialized and a failing second request never make a turn
    throw. *)
Theorem turn_throws_only_before_the_reply
    (ntos : str -> str) (w : world) (userPrompt : str) (st : state) (e : thrown) :
  fst (turn ntos w userPrompt st) = Throw e <->
  search_tools w userPrompt 10 = Throw e \/
  exists tools,
    search_tools w userPrompt 10 = Return tools /\
    response_content
      (completions_create w 0
         (messages_of ntos tools (conversationHistory st) userPrompt))
      = Throw e.
Proof.
  split; intros H.
  - now apply turn_throw_cases in H.
  - now apply turn_throw_cases.
Qed.

(** X5: a session whose searches and first requests always answer never
    ends in a crash, whatever the tools and the second requests do: it ends
    at an exit word or waits for the next prompt. *)
Theorem dependable_session_never_crashes
    (ntos : str -> str) (script : list (str * world)) (st : state) :
  (forall p w, In (p, w) script -> dependable w) ->
  fst (main_from ntos st script) = AwaitingInput \/
  fst (main_from ntos st script) = Exited.
Proof.
  unfold main_from.
  revert st; induction script as [|[p w] rest IH]; intros st Hd; cbn [loop].
  - now left.
  - destruct (is_exit_word p); [now right|].
    unfold bind.
    destruct (turn ntos w p st) as [[[]|e] st'] eqn:Et.
    + apply IH. intros q w' Hin. apply (Hd q w'). now right.
    + exfalso.
      assert (Hf : fst (turn ntos w p st) = Throw e) by now rewrite Et.
      destruct (Hd p w (or_introl eq_refl)) as [Hs Hr].
      apply turn_throw_cases in Hf as [Hf|(tools & _ & Hf)].
      * destruct (Hs p 10) as [tools E]. congruence.
      * destruct (Hr (messages_of ntos tools (conversationHistory st) p)) as [t E].
        congruence.
Qed.

Lemma dependable_session_never_crashes_witness :
  fst (main_from Examples.literal_text initial
         [(js "say hi", Examples.timeout_world); (js "again", Examples.flaky_world)])
    = AwaitingInput \/
  fst (main_from Examples.literal_text initial
         [(js "say hi", Examples.timeout_world); (js "again", Examples.flaky_world)])
    = Exited.
Proof.
  apply (dependable_session_never_crashes Examples.literal_text
           [(js "say hi", Examples.timeout_world); (js "again", Examples.flaky_world)]
           initial).
  intros p w [H|[H|[]]]; inversion H; subst;
    (split; intros; eexists; reflexivity).
Defined.

(* ================================================================== *)
(** * More of the tool call *)
(* ================================================================== *)

(** A turn with a directive, by what the inner [try] leaves as output. *)
Lemma turn_with_output
    (ntos : str -> str) (w : world) (p : str) (st : state)
    (tools : list Tool) (a : str) (n args : JSON.value) (name : str)
    (out : option str) (f : str) :
  search_tools w p 10 = Return tools ->
  response_content
    (completions_create w 0 (messages_of ntos tools (conversationHistory st) p))
    = Return a ->
  interpret a = Some (n, args) ->
  Serialize.ToString ntos n = Return name ->
  tool_output ntos w n args name = out ->
  response_content
    (completions_create w 1
       (followUpMessages_of ntos tools
          (conversationHistory st ++
           [{| role := user; content := p |}; {| role := assistant; content := a |}])
          out))
    = Return f ->
  turn ntos w p st =
    (Return tt,
     extend st
       [{| role := user; content := p |}; {| role := assistant; content := a |};
        {| role := assistant; content := f |}]
       [EvSearch p 10;
        EvChat (messages_of ntos tools (conversationHistory st) p);
        EvCallTool n args;
        EvChat (followUpMessages_of ntos tools
                  (conversationHistory st ++
                   [{| role := user; content := p |};
                    {| role := assistant; content := a |}])
                  out);
        EvInterpretation f]).
Proof.
  intros Hs Hr Hi Hn Ho Hf. subst out.
  exact (turn_tool ntos w p st Hs Hr Hi Hn Hf).
Qed.

(** X6: when the tool call returns plain data, the second request ends with
    a user message whose content is [Tool output: ] followed by the compact
    JSON text of the result, and the reply to it is the answer of the
    turn. *)
Theorem tool_result_is_fed_back
    (ntos : str -> str) (w : world) (userPrompt : str) (st : state)
    (tools : list Tool) (assistantResponse : str)
    (toolName arguments_ : JSON.value) (name : str) (v : JSON.value)
    (finalResponse : str) :
  let messages := messages_of ntos tools (conversationHistory st) userPrompt in
  let history' := conversationHistory st ++
                  [{| role := user; content := userPrompt |};
                   {| role := assistant; content := assistantResponse |}] in
  let followUpMessages :=
    systemMessage ntos tools :: history'
    ++ [{| role := user;
           content := js "Tool output: " ++ Serialize.stringify ntos v |}] in
  search_tools w userPrompt 10 = Return tools ->
  response_content (completions_create w 0 messages) = Return assistantResponse ->
  interpret assistantResponse = Some (toolName, arguments_) ->
  Serialize.ToString ntos toolName = Return name ->
  call_tool w toolName arguments_ = Return (Data v) ->
  response_content (completions_create w 1 followUpMessages) = Return finalResponse ->
  turn ntos w userPrompt st =
    (Return tt,
     extend st
       [{| role := user; content := userPrompt |};
        {| role := assistant; content := assistantResponse |};
        {| role := assistant; content := finalResponse |}]
       [EvSearch userPrompt 10; EvChat messages; EvCallTool toolName arguments_;
        EvChat followUpMessages; EvInterpretation finalResponse]).
Proof.
  intros messages history' followUpMessages Hs Hr Hi Hn Hc Hf.
  apply (turn_with_output ntos w userPrompt st Hs Hr Hi Hn
           (out := Some (Serialize.stringify ntos v))); [|exact Hf].
  unfold tool_output. now rewrite Hc.
Qed.

Lemma tool_result_is_fed_back_witness :
  turn Examples.literal_text Examples.echo_world (js "say hi") initial =
    (Return tt,
     extend initial
       [{| role := user; content := js "say hi" |};
        {| role := assistant; content := Examples.echo_directive |};
        {| role := assistant; content := js "The tool received hi." |}]
       [EvSearch (js "say hi") 10;
        EvChat (messages_of Examples.literal_text [Examples.echo_tool] [] (js "say hi"));
        EvCallTool Examples.echo_name Examples.echo_arguments;
        EvChat (systemMessage Examples.literal_text [Examples.echo_tool]
                :: ([] ++ [{| role := user; content := js "say hi" |};
                           {| role := assistant; content := Examples.echo_directive |}])
                ++ [{| role := user;
                       content := jsq "Tool output: {'received':'hi'}" |}]);
        EvInterpretation (js "The tool received hi.")]).
Proof.
  exact (tool_result_is_fed_back Examples.literal_text Examples.echo_world
           (js "say hi") initial (tools := [Examples.echo_tool])
           (assistantResponse := Examples.echo_directive)
           (toolName := Examples.echo_name) (arguments_ := Examples.echo_arguments)
           (name := js "svc.echo")
           (v := JSON.Obj [(js "received", JSON.Str (js "hi"))])
           (finalResponse := js "The tool received hi.")
           eq_refl eq_refl eq_refl eq_refl eq_refl eq_refl).
Defined.

(** X7: a result on which [JSON.stringify] throws does not end the turn.
    The throw is caught by the handler of the tool call, so the model is
    sent the same kind of error text as for a failing tool, with the message
    of the serialization error, and its reply is the answer of the turn. *)
Theorem unserializable_result_is_fed_back
    (ntos : str -> str) (w : world) (userPrompt : str) (st : state)
    (tools : list Tool) (assistantResponse : str)
    (toolName arguments_ : JSON.value) (name : str) (e : thrown)
    (finalResponse : str) :
  let messages := messages_of ntos tools (conversationHistory st) userPrompt in
  let history' := conversationHistory st ++
                  [{| role := user; content := userPrompt |};
                   {| role := assistant; content := assistantResponse |}] in
  let followUpMessages :=
    systemMessage ntos tools :: history'
    ++ [{| role := user;
           content := js "Tool output: " ++ js "Error calling " ++ name ++ js ": "
                      ++ error_text e |}] in
  search_tools w userPrompt 10 = Return tools ->
  response_content (completions_create w 0 messages) = Return assistantResponse ->
  interpret assistantResponse = Some (toolName, arguments_) ->
  Serialize.ToString ntos toolName = Return name ->
  call_tool w toolName arguments_ = Return (Unserializable e) ->
  response_content (completions_create w 1 followUpMessages) = Return finalResponse ->
  turn ntos w userPrompt st =
    (Return tt,
     extend st
       [{| role := user; content := userPrompt |};
        {| role := assistant; content := assistantResponse |};
        {| role := assistant; content := finalResponse |}]
       [EvSearch userPrompt 10; EvChat messages; EvCallTool toolName arguments_;
        EvChat followUpMessages; EvInterpretation finalResponse]).
Proof.
  intros messages history' followUpMessages Hs Hr Hi Hn Hc Hf.
  apply (turn_with_output ntos w userPrompt st Hs Hr Hi Hn
           (out := Some (js "Error calling " ++ name ++ js ": " ++ error_text e)));
    [|exact Hf].
  unfold tool_output. now rewrite Hc.
Qed.

Lemma unserializable_result_is_fed_back_witness :
  turn Examples.literal_text Cases.cyclic_world (js "say hi") initial =
    (Return tt,
     extend initial
       [{| role := user; content := js "say hi" |};
        {| role := assistant; content := Examples.echo_directive |};
        {| role := assistant; content := js "The result was unusable." |}]
       [EvSearch (js "say hi") 10;
        EvChat (messages_of Examples.literal_text [Examples.echo_tool] [] (js "say hi"));
        EvCallTool Examples.echo_name Examples.echo_arguments;
        EvChat (systemMessage Examples.literal_text [Examples.echo_tool]
                :: ([] ++ [{| role := user; content := js "say hi" |};
                           {| role := assistant; content := Examples.echo_directive |}])
                ++ [{| role := user;
                       content := js "Tool output: " ++ js "Error calling "
                                  ++ js "svc.echo" ++ js ": "
                                  ++ js "Converting circular structure to JSON" |}]);
        EvInterpretation (js "The result was unusable.")]).
Proof.
  exact (unserializable_result_is_fed_back Examples.literal_text Cases.cyclic_world
           (js "say hi") initial (tools := [Examples.echo_tool])
           (assistantResponse := Examples.echo_directive)
           (toolName := Examples.echo_name) (arguments_ := Examples.echo_arguments)
           (name := js "svc.echo")
           (e := ErrorObject (js "Converting circular structure to JSON"))
           (finalResponse := js "The result was unusable.")
           eq_refl eq_refl eq_refl eq_refl eq_refl eq_refl).
Defined.

(** X8: a tool that resolves to a value without a JSON form, such as
    [undefined], gives the model the text [Tool output: undefined]; the turn
    goes on as after any other result. *)
Theorem undefined_result_is_fed_back
    (ntos : str -> str) (w : world) (userPrompt : str) (st : state)
    (tools : list Tool) (assistantResponse : str)
    (toolName arguments_ : JSON.value) (name : str) (finalResponse : str) :
  let messages := messages_of ntos tools (conversationHistory st) userPrompt in
  let history' := conversationHistory st ++
                  [{| role := user; content := userPrompt |};
                   {| role := assistant; content := assistantResponse |}] in
  let followUpMessages :=
    systemMessage ntos tools :: history'
    ++ [{| role := user; content := js "Tool output: undefined" |}] in
  search_tools w userPrompt 10 = Return tools ->
  response_content (completions_create w 0 messages) = Return assistantResponse ->
  interpret assistantResponse = Some (toolName, arguments_) ->
  Serialize.ToString ntos toolName = Return name ->
  call_tool w toolName arguments_ = Return NoJsonForm ->
  response_content (completions_create w 1 followUpMessages) = Return finalResponse ->
  turn ntos w userPrompt st =
    (Return tt,
     extend st
       [{| role := user; content := userPrompt |};
        {| role := assistant; content := assistantResponse |};
        {| role := assistant; content := finalResponse |}]
       [EvSearch userPrompt 10; EvChat messages; EvCallTool toolName arguments_;
        EvChat followUpMessages; EvInterpretation finalResponse]).
Proof.
  intros messages history' followUpMessages Hs Hr Hi Hn Hc Hf.
  apply (turn_with_output ntos w userPrompt st Hs Hr Hi Hn (out := None)); [|exact Hf].
  unfold tool_output. now rewrite Hc.
Qed.

Lemma undefined_result_is_fed_back_witness :
  turn Examples.literal_text Cases.void_world (js "say hi") initial =
    (Return tt,
     extend initial
       [{| role := user; content := js "say hi" |};
        {| role := assistant; content := Examples.echo_directive |};
        {| role := assistant; content := js "Nothing came back." |}]
       [EvSearch (js "say hi") 10;
        EvChat (messages_of Examples.literal_text [Examples.echo_tool] [] (js "say hi"));
        EvCallTool Examples.echo_name Examples.echo_arguments;
        EvChat (systemMessage Examples.literal_text [Examples.echo_tool]
                :: ([] ++ [{| role := user; content := js "say hi" |};
                           {| role := assistant; content := Examples.echo_directive |}])
                ++ [{| role := user; content := js "Tool output: undefined" |}]);
        EvInterpretation (js "Nothing came back.")]).
Proof.
  exact (undefined_result_is_fed_back Examples.literal_text Cases.void_world
           (js "say hi") initial (tools := [Examples.echo_tool])
           (assistantResponse := Examples.echo_directive)
           (toolName := Examples.echo_name) (arguments_ := Examples.echo_arguments)
           (name := js "svc.echo") (finalResponse := js "Nothing came back.")
           eq_refl eq_refl eq_refl eq_refl eq_refl eq_refl).
Defined.

(* ================================================================== *)
(** * What a turn sends *)
(* ================================================================== *)

Lemma follow_up_extends
    (ntos : str -> str) (tools : list Tool) (h : list Message) (p a : str)
    (out : option str) :
  followUpMessages_of ntos tools
    (h ++ [{| role := user; content := p |}; {| role := assistant; content := a |}]) out
  = messages_of ntos tools h p
    ++ [{| role := assistant; content := a |}; tool_output_message out].
Proof.
  unfold followUpMessages_of, messages_of. cbn [app]. f_equal.
  now rewrite <- !app_assoc.
Qed.

(** X9: every turn begins with one search, for the prompt as typed and with
    the limit 10, and searches no more.  It sends at most two requests to
    the model and calls at most one tool.  Without a tool call it sends one
    request or, when the search failed, none; with a tool call it sends two,
    and the second is the first one followed by the reply of the model and by
    the message with the tool output. *)
Theorem turn_requests
    (ntos : str -> str) (w : world) (userPrompt : str) (st : state) :
  exists new,
    trace (snd (turn ntos w userPrompt st)) = trace st ++ EvSearch userPrompt 10 :: new /\
    searches_of new = [] /\
    match chats_of new with
    | [] => tool_calls new = 0
    | [first] => tool_calls new = 0
    | [first; second] =>
        tool_calls new = 1 /\
        exists reply toolOutput,
          second = first ++ [{| role := assistant; content := reply |};
                             tool_output_message toolOutput]
    | _ => False
    end.
Proof.
  pose proof (turn_cases ntos w userPrompt st) as H.
  remember (fst (turn ntos w userPrompt st)) as o eqn:Ho.
  remember (snd (turn ntos w userPrompt st)) as st' eqn:Hst'. clear Ho Hst'.
  destruct H; eexists; (split; [reflexivity|]); (split; [reflexivity|]);
    cbn [chats_of]; try reflexivity.
  - split; [reflexivity|]. eexists _, _. apply follow_up_extends.
  - split; [reflexivity|]. eexists _, _. apply follow_up_extends.
Qed.

(** X10: when the second request to the model fails after a tool call, the
    turn still returns.  The failure is caught by the handler of the outer
    [try]: the reply with the directive is written as the answer, and the
    prompt and that reply, already appended before the request, are appended
    a second time. *)
Theorem second_request_failure_is_caught
    (ntos : str -> str) (w : world) (userPrompt : str) (st : state)
    (tools : list Tool) (assistantResponse : str)
    (toolName arguments_ : JSON.value) (name : str) (e : thrown) :
  let messages := messages_of ntos tools (conversationHistory st) userPrompt in
  let history' := conversationHistory st ++
                  [{| role := user; content := userPrompt |};
                   {| role := assistant; content := assistantResponse |}] in
  let followUpMessages :=
    followUpMessages_of ntos tools history'
      (tool_output ntos w toolName arguments_ name) in
  search_tools w userPrompt 10 = Return tools ->
  response_content (completions_create w 0 messages) = Return assistantResponse ->
  interpret assistantResponse = Some (toolName, arguments_) ->
  Serialize.ToString ntos toolName = Return name ->
  response_content (completions_create w 1 followUpMessages) = Throw e ->
  fst (turn ntos w userPrompt st) = Return tt /\
  conversationHistory (snd (turn ntos w userPrompt st)) =
    conversationHistory st ++
    [{| role := user; content := userPrompt |};
     {| role := assistant; content := assistantResponse |};
     {| role := user; content := userPrompt |};
     {| role := assistant; content := assistantResponse |}] /\
  trace (snd (turn ntos w userPrompt st)) =
    trace st ++
    [EvSearch userPrompt 10; EvChat messages; EvCallTool toolName arguments_;
     EvChat followUpMessages; EvAssistant assistantResponse].
Proof.
  intros messages history' followUpMessages Hs Hr Hi Hn Hf.
  rewrite (turn_second_request_throws ntos w userPrompt st Hs Hr Hi Hn Hf).
  repeat split.
Qed.

Lemma second_request_failure_is_caught_witness :
  fst (turn Examples.literal_text Examples.flaky_world (js "say hi") initial)
    = Return tt /\
  conversationHistory
    (snd (turn Examples.literal_text Examples.flaky_world (js "say hi") initial)) =
    [] ++
    [{| role := user; content := js "say hi" |};
     {| role := assistant; content := Examples.echo_directive |};
     {| role := user; content := js "say hi" |};
     {| role := assistant; content := Examples.echo_directive |}] /\
  trace (snd (turn Examples.literal_text Examples.flaky_world (js "say hi") initial)) =
    [] ++
    [EvSearch (js "say hi") 10;
     EvChat (messages_of Examples.literal_text [Examples.echo_tool] [] (js "say hi"));
     EvCallTool Examples.echo_name Examples.echo_arguments;
     EvChat (followUpMessages_of Examples.literal_text [Examples.echo_tool]
               ([] ++ [{| role := user; content := js "say hi" |};
                       {| role := assistant; content := Examples.echo_directive |}])
               (Some (jsq "{'received':'hi'}")));
     EvAssistant Examples.echo_directive].
Proof.
  exact (second_request_failure_is_caught Examples.literal_text Examples.flaky_world
           (js "say hi") initial (tools := [Examples.echo_tool])
           (assistantResponse := Examples.echo_directive)
           (toolName := Examples.echo_name) (arguments_ := Examples.echo_arguments)
           (name := js "svc.echo") (e := ErrorObject (js "503"))
           eq_refl eq_refl eq_refl eq_refl eq_refl).
Defined.

(* ================================================================== *)
(** * More of the interpretation *)
(* ================================================================== *)

Lemma split_first_In (pat s before rest : str) (c : N) :
  split_first pat s = Some (before, rest) -> In c pat -> In c s.
Proof.
  intros H Hc. apply split_first_app in H. subst s.
  apply in_or_app. right. apply in_or_app. now left.
Qed.

Lemma split_last_In (c : N) (s upto rest : str) :
  split_last c s = Some (upto, rest) -> In c s.
Proof.
  revert upto rest; induction s as [|x t IH]; intros upto rest H; cbn [split_last] in H.
  - discriminate.
  - destruct (split_last c t) as [[u r]|].
    + right. eapply IH. reflexivity.
    + destruct (N.eqb_spec c x) as [->|_]; [now left | discriminate].
Qed.

(** X11: a reply without an opening brace, or without a closing brace, is
    never taken for a directive. *)
Theorem reply_without_braces_is_plain (assistantResponse : str) :
  ~ In 123%N assistantResponse \/ ~ In 125%N assistantResponse ->
  interpret assistantResponse = None.
Proof.
  intros H. rewrite interpret_candidate.
  assert (Hc : candidate assistantResponse = None); [|now rewrite Hc].
  unfold candidate, fenced_span, brace_span.
  destruct (split_first fence_open assistantResponse) as [[b after]|] eqn:E1.
  - destruct (split_first fence_close after) as [[body r]|] eqn:E2.
    + exfalso. destruct H as [H|H]; apply H.
      * eapply split_first_In; [exact E1|]. unfold fence_open.
        apply in_or_app. right. apply in_or_app. right. now left.
      * pose proof (@split_first_app _ _ _ _ E1) as ->.
        apply in_or_app. right. apply in_or_app. right.
        eapply split_first_In; [exact E2|]. now left.
    + destruct (split_first (js "{") assistantResponse) as [[b' after']|] eqn:E3;
        [|reflexivity].
      destruct (split_last 125 after') as [[u r]|] eqn:E4; [|reflexivity].
      exfalso. destruct H as [H|H]; apply H.
      * eapply split_first_In; [exact E3|]. now left.
      * pose proof (@split_first_app _ _ _ _ E3) as ->.
        apply in_or_app. right. apply in_or_app. right.
        eapply split_last_In; exact E4.
  - destruct (split_first (js "{") assistantResponse) as [[b' after']|] eqn:E3;
      [|reflexivity].
    destruct (split_last 125 after') as [[u r]|] eqn:E4; [|reflexivity].
    exfalso. destruct H as [H|H]; apply H.
    + eapply split_first_In; [exact E3|]. now left.
    + pose proof (@split_first_app _ _ _ _ E3) as ->.
      apply in_or_app. right. apply in_or_app. right.
      eapply split_last_In; exact E4.
Qed.

Lemma reply_without_braces_is_plain_witness :
  interpret (js "The weather is fine {today.") = None.
Proof.
  apply reply_without_braces_is_plain. right.
  intros H. repeat (destruct H as [H|H]; [discriminate H|]). exact H.
Defined.

Lemma occurs_false_split_first (pat s : str) :
  occurs pat s = false -> split_first pat s = None.
Proof.
  induction s as [|x t IH]; cbn [occurs split_first].
  - destruct (strip_prefix pat []); [discriminate | reflexivity].
  - destruct (strip_prefix pat (x :: t)); [discriminate|].
    intros H. now rewrite (IH H).
Qed.

Lemma split_first_unit (c : N) (pre rest : str) :
  ~ In c pre -> split_first [c] (pre ++ c :: rest) = Some (pre, rest).
Proof.
  induction pre as [|x pre IH]; intros H; cbn [app split_first strip_prefix].
  - now rewrite N.eqb_refl.
  - destruct (N.eqb_spec c x) as [->|_]; [exfalso; apply H; now left|].
    rewrite IH; [reflexivity|]. intros Hin. apply H. now right.
Qed.

Lemma split_last_none (c : N) (s : str) : ~ In c s -> split_last c s = None.
Proof.
  induction s as [|x t IH]; intros H; cbn [split_last]; [reflexivity|].
  rewrite IH by (intros Hin; apply H; now right).
  destruct (N.eqb_spec c x) as [->|_]; [exfalso; apply H; now left | reflexivity].
Qed.

Lemma split_last_unit (c : N) (body post : str) :
  ~ In c post -> split_last c (body ++ c :: post) = Some (body ++ [c], post).
Proof.
  intros H. induction body as [|x body IH]; cbn [app split_last].
  - now rewrite (@split_last_none c post H), N.eqb_refl.
  - now rewrite IH.
Qed.

(** X12: when a reply has no opening fence followed by a brace, text before
    a JSON object that has no opening brace and text after it that has no
    closing brace are left aside: the object alone is the candidate, and a
    directive in it is returned. *)
Theorem object_in_prose_is_found
    (pre body post : str) (ms : list (str * JSON.value))
    (toolName arguments_ : JSON.value) :
  ~ In 123%N pre ->
  ~ In 125%N post ->
  occurs fence_open (pre ++ js "{" ++ body ++ js "}" ++ post) = false ->
  JSON.parse (js "{" ++ body ++ js "}") = Return (JSON.Obj ms) ->
  JSON.get (js "tool_name") ms = Some toolName ->
  JSON.get (js "arguments") ms = Some arguments_ ->
  interpret (pre ++ js "{" ++ body ++ js "}" ++ post) = Some (toolName, arguments_).
Proof.
  intros Hpre Hpost Hf Hp Hn Ha.
  rewrite interpret_candidate.
  assert (Hc : candidate (pre ++ js "{" ++ body ++ js "}" ++ post)
               = Some (js "{" ++ body ++ js "}")).
  { unfold candidate, fenced_span, brace_span.
    rewrite (@occurs_false_split_first _ _ Hf).
    change (js "{" ++ body ++ js "}" ++ post) with (123%N :: body ++ 125%N :: post).
    change (js "{") with [123%N].
    rewrite (@split_first_unit 123%N pre _ Hpre), (@split_last_unit 125%N body post Hpost).
    reflexivity. }
  rewrite Hc, Hp, Hn, Ha. reflexivity.
Qed.

Lemma object_in_prose_is_found_witness :
  interpret Cases.wrapped_reply = Some (Examples.echo_name, Examples.echo_arguments).
Proof.
  apply (object_in_prose_is_found
           (js "Sure, calling it now: ")
           (jsq "'tool_name':'svc.echo','arguments':{'value':'hi'}")
           (js " Please wait.")
           (ms := [(js "tool_name", Examples.echo_name);
                   (js "arguments", Examples.echo_arguments)])).
  - intros H. repeat (destruct H as [H|H]; [discriminate H|]). exact H.
  - intros H. repeat (destruct H as [H|H]; [discriminate H|]). exact H.
  - reflexivity.
  - reflexivity.
  - reflexivity.
  - reflexivity.
Defined.

(* ================================================================== *)
(** * The serializer against the parser *)
(* ================================================================== *)

Module RoundTrip.
Import JSON Serialize.

Lemma hex_digit_char (n : N) : (n < 16)%N -> hex_digit (hex_char n) = Some n.
Proof.
  intros H.
  destruct n as [|p]; [reflexivity|].
  do 4 (destruct p as [p|p|]; try reflexivity); exfalso; lia.
Qed.

Lemma hex_split (c : N) :
  (c < 65536)%N ->
  (c / 4096 < 16)%N /\
  ((((c / 4096) * 16 + (c / 256) mod 16) * 16 + (c / 16) mod 16) * 16 + c mod 16 = c)%N.
Proof.
  intros H.
  assert (E1 := N.div_mod c 16 ltac:(discriminate)).
  assert (E2 := N.div_mod (c / 16) 16 ltac:(discriminate)).
  assert (E3 := N.div_mod (c / 256) 16 ltac:(discriminate)).
  rewrite N.Div0.div_div in E2, E3.
  change (16 * 16)%N with 256%N in E2. change (256 * 16)%N with 4096%N in E3.
  split.
  - apply N.Div0.div_lt_upper_bound. exact H.
  - lia.
Qed.

Lemma unicode_escape_reads (c : N) (s : str) :
  (c < 65536)%N ->
  string_chars (unicode_escape c ++ s) = pcons c (string_chars s).
Proof.
  intros H. destruct (hex_split H) as [Ha E].
  unfold unicode_escape. cbn [app string_chars].
  change (N.eqb 92 34) with false. change (N.eqb 92 92) with true.
  change (N.eqb 117 117) with true. cbv iota.
  unfold hex4.
  rewrite !hex_digit_char; try (apply N.mod_lt; discriminate); try exact Ha.
  now rewrite E.
Qed.

Lemma regular_unit_reads (c : N) (s : str) :
  N.eqb c 34 = false -> N.eqb c 92 = false -> N.ltb c 32 = false ->
  string_chars (c :: s) = pcons c (string_chars s).
Proof. intros H1 H2 H3. cbn [string_chars]. now rewrite H1, H2, H3. Qed.

Lemma escape_unit_reads (c : N) (s : str) :
  is_lead c = false -> is_trail c = false ->
  string_chars (escape_unit c ++ s) = pcons c (string_chars s).
Proof.
  intros Hl Ht. unfold escape_unit.
  destruct (N.eqb_spec c 8) as [->|H8]; [reflexivity|].
  destruct (N.eqb_spec c 9) as [->|H9]; [reflexivity|].
  destruct (N.eqb_spec c 10) as [->|H10]; [reflexivity|].
  destruct (N.eqb_spec c 12) as [->|H12]; [reflexivity|].
  destruct (N.eqb_spec c 13) as [->|H13]; [reflexivity|].
  destruct (N.eqb_spec c 34) as [->|H34]; [reflexivity|].
  destruct (N.eqb_spec c 92) as [->|H92]; [reflexivity|].
  destruct (N.ltb_spec c 32) as [Hlt|Hge].
  - apply unicode_escape_reads. lia.
  - apply regular_unit_reads.
    + now apply N.eqb_neq.
    + now apply N.eqb_neq.
    + now apply N.ltb_ge.
Qed.

Lemma surrogate_bounds (c : N) :
  is_lead c = true \/ is_trail c = true ->
  (c < 65536)%N /\ N.eqb c 34 = false /\ N.eqb c 92 = false /\ N.ltb c 32 = false.
Proof.
  unfold is_lead, is_trail.
  intros [H|H]; apply andb_true_iff in H as [H1 H2];
    apply N.leb_le in H1, H2;
    (split; [lia|]); (split; [apply N.eqb_neq; lia|]);
    (split; [apply N.eqb_neq; lia | apply N.ltb_ge; lia]).
Qed.

(** A quoted string is read back as it was, whatever its code units. *)
Lemma quote_units_reads (s rest : str) :
  string_chars (quote_units s ++ 34%N :: rest) = Parsed s rest.
Proof.
  remember (length s) as n eqn:Hn.
  assert (Hle : length s <= n) by lia. clear Hn.
  revert s Hle. induction n as [|n IH]; intros s Hle.
  - destruct s; [reflexivity | simpl in Hle; lia].
  - destruct s as [|c t]; [reflexivity|]. simpl in Hle.
    cbn [quote_units].
    destruct (is_lead c) eqn:Hl.
    + destruct (surrogate_bounds c (or_introl Hl)) as (Hc & H34 & H92 & H32).
      destruct t as [|d t'].
      * rewrite unicode_escape_reads by exact Hc. reflexivity.
      * destruct (is_trail d) eqn:Htd.
        -- destruct (surrogate_bounds d (or_intror Htd)) as (_ & D34 & D92 & D32).
           cbn [app]. rewrite regular_unit_reads by assumption.
           rewrite regular_unit_reads by assumption.
           rewrite IH by (simpl in *; lia). reflexivity.
        -- rewrite <- app_assoc, unicode_escape_reads by exact Hc.
           rewrite IH by (simpl in *; lia). reflexivity.
    + destruct (is_trail c) eqn:Ht.
      * destruct (surrogate_bounds c (or_intror Ht)) as (Hc & _).
        rewrite <- app_assoc, unicode_escape_reads by exact Hc.
        rewrite IH by (simpl in *; lia). reflexivity.
      * rewrite <- app_assoc, escape_unit_reads by assumption.
        rewrite IH by (simpl in *; lia). reflexivity.
Qed.


Lemma digits_extend (s d r rest : str) :
  digits s = (d, r) -> (r = [] -> stops_number rest = true) ->
  digits (s ++ rest) = (d, r ++ rest).
Proof.
  revert d r; induction s as [|c t IH]; intros d r H Hr; cbn [digits app] in *.
  - inversion H; subst. specialize (Hr eq_refl).
    destruct rest as [|x rest]; [reflexivity|].
    cbn [digits app]. unfold stops_number in Hr.
    destruct (is_digit x); [discriminate | reflexivity].
  - destruct (is_digit c).
    + destruct (digits t) as [d' r'] eqn:E. inversion H; subst.
      now rewrite (IH d' r eq_refl Hr).
    + inversion H; subst. reflexivity.
Qed.

Lemma int_part_extend (s i r rest : str) :
  int_part s = Some (i, r) -> (r = [] -> stops_number rest = true) ->
  int_part (s ++ rest) = Some (i, r ++ rest).
Proof.
  unfold int_part. destruct s as [|c t]; [discriminate|]. cbn [app].
  destruct (N.eqb c 48).
  - intros H _. now inversion H.
  - destruct (is_digit c); [|discriminate].
    destruct (digits t) as [d r'] eqn:E. intros H Hr. inversion H; subst.
    now rewrite (@digits_extend _ _ _ _ E Hr).
Qed.

Lemma frac_part_extend (s f r rest : str) :
  frac_part s = Some (f, r) -> (r = [] -> stops_number rest = true) ->
  frac_part (s ++ rest) = Some (f, r ++ rest).
Proof.
  unfold frac_part. destruct s as [|c t]; cbn [app].
  - intros H Hr. inversion H; subst. specialize (Hr eq_refl).
    destruct rest as [|x rest]; [reflexivity|].
    unfold stops_number in Hr.
    destruct (is_digit x), (N.eqb x 46); try discriminate; reflexivity.
  - destruct (N.eqb c 46).
    + destruct (digits t) as [d r'] eqn:E. destruct d as [|x d]; [discriminate|].
      intros H Hr. inversion H; subst.
      now rewrite (@digits_extend _ _ _ _ E Hr).
    + intros H _. now inversion H.
Qed.

Lemma exp_sign_extend (s sg r rest : str) :
  exp_sign s = (sg, r) -> s <> [] -> exp_sign (s ++ rest) = (sg, r ++ rest).
Proof.
  unfold exp_sign. destruct s as [|c t]; [contradiction|]. cbn [app].
  destruct (N.eqb c 43 || N.eqb c 45)%bool; intros H _; now inversion H.
Qed.

Lemma exp_part_extend (s e r rest : str) :
  exp_part s = Some (e, r) -> (r = [] -> stops_number rest = true) ->
  exp_part (s ++ rest) = Some (e, r ++ rest).
Proof.
  unfold exp_part. destruct s as [|c t]; cbn [app].
  - intros H Hr. inversion H; subst. specialize (Hr eq_refl).
    destruct rest as [|x rest]; [reflexivity|].
    unfold stops_number in Hr.
    destruct (is_digit x), (N.eqb x 46), (N.eqb x 101), (N.eqb x 69);
      try discriminate; reflexivity.
  - destruct (N.eqb c 101 || N.eqb c 69)%bool.
    + destruct (exp_sign t) as [sg t'] eqn:Es.
      destruct (digits t') as [d r'] eqn:E. destruct d as [|x d]; [discriminate|].
      intros H Hr. inversion H; subst.
      assert (Ht : t <> []).
      { intros ->. cbn in Es. inversion Es; subst. discriminate. }
      rewrite (@exp_sign_extend _ _ _ _ Es Ht).
      now rewrite (@digits_extend _ _ _ _ E Hr).
    + intros H _. now inversion H.
Qed.

Lemma sign_part_extend (s sg r rest : str) :
  sign_part s = (sg, r) -> s <> [] -> sign_part (s ++ rest) = (sg, r ++ rest).
Proof.
  unfold sign_part. destruct s as [|c t]; [contradiction|]. cbn [app].
  destruct (N.eqb c 45); intros H _; now inversion H.
Qed.

(** A number literal is read in the same way when text that ends it
    follows. *)
Lemma number_extend (s lex r rest : str) :
  number s = Parsed lex r -> (r = [] -> stops_number rest = true) ->
  number (s ++ rest) = Parsed lex (r ++ rest).
Proof.
  unfold number.
  destruct (sign_part s) as [sg s1] eqn:E1.
  destruct (int_part s1) as [[i s2]|] eqn:E2; [|discriminate].
  destruct (frac_part s2) as [[f s3]|] eqn:E3; [|discriminate].
  destruct (exp_part s3) as [[e s4]|] eqn:E4; [|discriminate].
  intros H Hr. inversion H; subst.
  assert (Hs : s <> []).
  { intros ->. cbn in E1. inversion E1; subst. discriminate. }
  assert (H3 : s3 = [] -> stops_number rest = true).
  { intros ->. cbn in E4. inversion E4; subst. now apply Hr. }
  assert (H2 : s2 = [] -> stops_number rest = true).
  { intros ->. cbn in E3. inversion E3; subst. now apply H3. }
  rewrite (@sign_part_extend _ _ _ _ E1 Hs).
  rewrite (@int_part_extend _ _ _ _ E2 H2).
  rewrite (@frac_part_extend _ _ _ _ E3 H3).
  rewrite (@exp_part_extend _ _ _ _ E4 Hr).
  reflexivity.
Qed.

(** A number literal starts with a minus sign or a digit. *)
Lemma number_head (s lex r : str) :
  number s = Parsed lex r ->
  exists c t, s = c :: t /\ (c = 45%N \/ is_digit c = true).
Proof.
  unfold number. unfold sign_part.
  destruct s as [|c t]; [discriminate|].
  intros H. exists c, t. split; [reflexivity|].
  destruct (N.eqb_spec c 45) as [->|_]; [now left|].
  right. unfold int_part in H.
  destruct (N.eqb_spec c 48) as [->|_]; [reflexivity|].
  destruct (is_digit c); [reflexivity | discriminate].
Qed.


Lemma value_S (f : nat) (s : str) :
  value_ (S f) s =
  match skip_ws s with
  | [] => SyntaxErr
  | c :: t =>
      if N.eqb c 123 then
        match skip_ws t with
        | c' :: t' =>
            if N.eqb c' 125 then Parsed (Obj []) t'
            else pmap Obj (members f (c' :: t') [])
        | [] => SyntaxErr
        end
      else if N.eqb c 91 then
        match skip_ws t with
        | c' :: t' =>
            if N.eqb c' 93 then Parsed (Arr []) t'
            else pmap Arr (elements f (c' :: t'))
        | [] => SyntaxErr
        end
      else if N.eqb c 34 then pmap Str (string_chars t)
      else if N.eqb c 116 then keyword (js "true") (Bool true) (c :: t)
      else if N.eqb c 102 then keyword (js "false") (Bool false) (c :: t)
      else if N.eqb c 110 then keyword (js "null") Null (c :: t)
      else pmap Num (number (c :: t))
  end.
Proof. reflexivity. Qed.

Lemma members_S (f : nat) (s : str) (acc : list (str * value)) :
  members (S f) s acc =
  match s with
  | [] => SyntaxErr
  | q :: t =>
      if N.eqb q 34 then
        match string_chars t with
        | Parsed k r =>
            match skip_ws r with
            | c :: r1 =>
                if N.eqb c 58 then
                  match value_ f r1 with
                  | Parsed v r2 =>
                      match skip_ws r2 with
                      | d :: r3 =>
                          if N.eqb d 44 then members f (skip_ws r3) (put k v acc)
                          else if N.eqb d 125 then Parsed (put k v acc) r3
                          else SyntaxErr
                      | [] => SyntaxErr
                      end
                  | SyntaxErr => SyntaxErr
                  | NoFuel => NoFuel
                  end
                else SyntaxErr
            | [] => SyntaxErr
            end
        | SyntaxErr => SyntaxErr
        | NoFuel => NoFuel
        end
      else SyntaxErr
  end.
Proof. reflexivity. Qed.

Lemma elements_S (f : nat) (s : str) :
  elements (S f) s =
  match value_ f s with
  | Parsed v r =>
      match skip_ws r with
      | d :: r1 =>
          if N.eqb d 44 then pmap (cons v) (elements f r1)
          else if N.eqb d 93 then Parsed [v] r1
          else SyntaxErr
      | [] => SyntaxErr
      end
  | SyntaxErr => SyntaxErr
  | NoFuel => NoFuel
  end.
Proof. reflexivity. Qed.

(** More budget does not change what a parser that did not run out
    returns. *)
Lemma budget_step (f : nat) :
  (forall s, value_ f s <> NoFuel -> value_ (S f) s = value_ f s) /\
  (forall s acc, members f s acc <> NoFuel -> members (S f) s acc = members f s acc) /\
  (forall s, elements f s <> NoFuel -> elements (S f) s = elements f s).
Proof.
  induction f as [|f (IHv & IHm & IHe)].
  - repeat split; intros; cbn in *; congruence.
  - split; [|split].
    + intros s. rewrite (value_S (S f) s), (value_S f s).
      destruct (skip_ws s) as [|c t]; [reflexivity|].
      destruct (N.eqb c 123).
      { destruct (skip_ws t) as [|c' t']; [reflexivity|].
        destruct (N.eqb c' 125); [reflexivity|].
        intros H. rewrite IHm; [reflexivity|].
        intros E. rewrite E in H. now apply H. }
      destruct (N.eqb c 91).
      { destruct (skip_ws t) as [|c' t']; [reflexivity|].
        destruct (N.eqb c' 93); [reflexivity|].
        intros H. rewrite IHe; [reflexivity|].
        intros E. rewrite E in H. now apply H. }
      reflexivity.
    + intros s acc. rewrite (members_S (S f) s acc), (members_S f s acc).
      destruct s as [|q t]; [reflexivity|].
      destruct (N.eqb q 34); [|reflexivity].
      destruct (string_chars t) as [k r| |]; try reflexivity.
      destruct (skip_ws r) as [|c r1]; [reflexivity|].
      destruct (N.eqb c 58); [|reflexivity].
      intros H.
      assert (Hv : value_ f r1 <> NoFuel).
      { intros E. rewrite E in H. now apply H. }
      rewrite (IHv _ Hv).
      destruct (value_ f r1) as [v r2| |]; try reflexivity.
      destruct (skip_ws r2) as [|d r3]; [reflexivity|].
      destruct (N.eqb d 44); [|reflexivity].
      now apply IHm.
    + intros s. rewrite (elements_S (S f) s), (elements_S f s).
      intros H.
      assert (Hv : value_ f s <> NoFuel).
      { intros E. rewrite E in H. now apply H. }
      rewrite (IHv _ Hv).
      destruct (value_ f s) as [v r| |]; try reflexivity.
      destruct (skip_ws r) as [|d r1]; [reflexivity|].
      destruct (N.eqb d 44); [|reflexivity].
      rewrite IHe; [reflexivity|].
      intros E. rewrite E in H. now apply H.
Qed.

Lemma budget_mono (f k : nat) (s : str) :
  value_ f s <> NoFuel -> value_ (k + f) s = value_ f s.
Proof.
  intros H. induction k as [|k IH]; [reflexivity|].
  cbn [Nat.add]. rewrite <- IH.
  apply (proj1 (budget_step (k + f))). now rewrite IH.
Qed.


Lemma skip_ws_blank (ws s : str) : blank ws -> skip_ws (ws ++ s) = skip_ws s.
Proof.
  intros H. induction H as [|c w Hc _ IH]; [reflexivity|].
  cbn [app skip_ws]. now rewrite Hc.
Qed.

Lemma value_blank (f : nat) (ws s : str) :
  blank ws -> value_ f (ws ++ s) = value_ f s.
Proof.
  intros H. destruct f; [reflexivity|].
  now rewrite !value_S, skip_ws_blank.
Qed.

Lemma elements_blank (f : nat) (ws s : str) :
  blank ws -> elements f (ws ++ s) = elements f s.
Proof.
  intros H. destruct f; [reflexivity|].
  now rewrite !elements_S, value_blank.
Qed.

Lemma stops_blank (ws s : str) :
  blank ws -> stops_number s = true -> stops_number (ws ++ s) = true.
Proof.
  intros [|c w Hc _] Hs; [exact Hs|].
  cbn [app stops_number]. unfold is_ws in Hc. unfold is_digit.
  destruct (N.eqb_spec c 32) as [->|_]; [reflexivity|].
  destruct (N.eqb_spec c 9) as [->|_]; [reflexivity|].
  destruct (N.eqb_spec c 10) as [->|_]; [reflexivity|].
  destruct (N.eqb_spec c 13) as [->|_]; [reflexivity | discriminate].
Qed.

Lemma blank_app (a b : str) : blank a -> blank b -> blank (a ++ b).
Proof. intros Ha Hb. apply Forall_app. now split. Qed.

Lemma blank_LF : blank LF.
Proof. repeat constructor. Qed.

Lemma str_eqb_eq (a b : str) : str_eqb a b = true <-> a = b.
Proof.
  revert b; induction a as [|x a IH]; intros [|y b]; cbn [str_eqb].
  - now split.
  - split; discriminate.
  - split; discriminate.
  - rewrite andb_true_iff, N.eqb_eq, IH. split.
    + now intros [-> ->].
    + intros H; inversion H; now split.
Qed.

Lemma put_fresh (k : str) (v : value) (acc : list (str * value)) :
  ~ In k (map fst acc) -> put k v acc = acc ++ [(k, v)].
Proof.
  induction acc as [|[k' v'] acc IH]; intros H; cbn [put app]; [reflexivity|].
  destruct (str_eqb k k') eqn:E.
  - apply str_eqb_eq in E. exfalso. apply H. now left.
  - rewrite IH; [reflexivity|]. intros Hin. apply H. now right.
Qed.

Lemma value_induction (P : value -> Prop) :
  P Null -> (forall b, P (Bool b)) -> (forall l, P (Num l)) -> (forall s, P (Str s)) ->
  (forall items, Forall P items -> P (Arr items)) ->
  (forall ms, Forall (fun kv => P (snd kv)) ms -> P (Obj ms)) ->
  forall v, P v.
Proof.
  intros HN HB HNum HS HA HO.
  fix IH 1. intros [| b | l | s | items | ms];
    [exact HN | apply HB | apply HNum | apply HS | |].
  - apply HA. revert items. fix IHl 1.
    intros [|x items]; [constructor | constructor; [apply IH | apply IHl]].
  - apply HO. revert ms. fix IHl 1.
    intros [|kv ms]; [constructor | constructor; [apply IH | apply IHl]].
Qed.


Section Values.
Variable ntos : str -> str.

Lemma is_digit_start (c : N) :
  c = 45%N \/ is_digit c = true ->
  is_ws c = false /\ N.eqb c 123 = false /\ N.eqb c 91 = false /\ N.eqb c 34 = false /\
  N.eqb c 116 = false /\ N.eqb c 102 = false /\ N.eqb c 110 = false /\
  N.eqb c 93 = false.
Proof.
  intros [->|H]; [repeat split|].
  unfold is_digit in H. apply andb_true_iff in H as [H1 H2].
  apply N.leb_le in H1, H2. unfold is_ws.
  repeat split; try (apply N.eqb_neq; lia).
  repeat (apply orb_false_iff; split); apply N.eqb_neq; lia.
Qed.

(** The text of a value starts with a code unit that is neither white space
    nor a closing bracket. *)
Lemma serialize_head (gap indent : str) (v : value) :
  canonical ntos v ->
  exists c t, serialize ntos gap indent v = c :: t /\
              is_ws c = false /\ N.eqb c 93 = false.
Proof.
  destruct v as [| [|] | l | s | [|x xs] | [|kv ms]]; intros Hc;
    try (eexists _, _; repeat split; reflexivity).
  - destruct Hc as [Hn Hl]. cbn [serialize]. rewrite Hl.
    destruct (number_head _ Hn) as (c & t & -> & Hc).
    exists c, t. destruct (is_digit_start Hc) as (H1 & _ & _ & _ & _ & _ & _ & H2).
    now repeat split.
  - destruct gap; eexists _, _; repeat split; reflexivity.
  - destruct gap; eexists _, _; repeat split; reflexivity.
Qed.

Lemma join_map_cons {A : Type} (sep : str) (f : A -> str) (x y : A) (more : list A) :
  join sep (map f (x :: y :: more)) = f x ++ sep ++ join sep (map f (y :: more)).
Proof. reflexivity. Qed.

(** The elements of a list are read back one after the other. *)
Lemma elements_read (n : nat) (gap inner : str) (items : list value) :
  items <> [] ->
  Forall (fun x => reads_back ntos x n) items ->
  blank gap -> blank inner ->
  forall fuel pad pad' rest,
    n + length items <= fuel -> blank pad -> blank pad' ->
    elements fuel
      (join (44%N :: pad) (map (serialize ntos gap inner) items) ++ pad' ++ 93%N :: rest)
    = Parsed items rest.
Proof.
  intros Hne Hall Hg Hi.
  induction items as [|x xs IH]; [contradiction|].
  intros fuel pad pad' rest Hf Hp Hp'.
  apply Forall_cons_iff in Hall as [Hx Hxs].
  destruct fuel as [|g]; [cbn in Hf; lia|]. cbn [length] in Hf.
  rewrite elements_S.
  destruct xs as [|y more].
  - cbn [map join].
    rewrite (Hx g ltac:(lia) gap inner (pad' ++ 93%N :: rest) Hg Hi)
      by (apply stops_blank; [exact Hp' | reflexivity]).
    rewrite (skip_ws_blank _ Hp'). reflexivity.
  - rewrite join_map_cons. rewrite <- !app_assoc. cbn [app].
    rewrite (Hx g ltac:(lia) gap inner _ Hg Hi) by reflexivity.
    cbn [skip_ws is_ws N.eqb Pos.eqb orb]. cbv iota.
    change (N.eqb 44 44) with true. cbv iota.
    rewrite (elements_blank g _ Hp).
    rewrite (IH ltac:(discriminate) Hxs g pad pad' rest ltac:(cbn [length] in *; lia) Hp Hp').
    reflexivity.
Qed.


Lemma member_text (k sp body tail : str) :
  (quote k ++ js ":" ++ sp ++ body) ++ tail
  = 34%N :: quote_units k ++ 34%N :: 58%N :: sp ++ body ++ tail.
Proof. unfold quote. cbn [app]. now rewrite <- !app_assoc. Qed.

(** The members of an object are read back one after the other, each under
    its key. *)
Lemma members_read (n : nat) (gap inner sp : str) (ms : list (str * value)) :
  ms <> [] ->
  Forall (fun kv => reads_back ntos (snd kv) n) ms ->
  NoDup (map fst ms) ->
  blank gap -> blank inner -> blank sp ->
  forall fuel pad pad' rest acc,
    n + length ms <= fuel -> blank pad -> blank pad' ->
    (forall k, In k (map fst ms) -> ~ In k (map fst acc)) ->
    members fuel
      (join (44%N :: pad)
         (map (fun kv : str * value =>
                 quote (fst kv) ++ js ":" ++ sp ++ serialize ntos gap inner (snd kv)) ms)
       ++ pad' ++ 125%N :: rest) acc
    = Parsed (acc ++ ms) rest.
Proof.
  intros Hne Hall Hnd Hg Hi Hsp.
  induction ms as [|[k v] xs IH]; [contradiction|].
  intros fuel pad pad' rest acc Hf Hp Hp' Hfresh.
  apply Forall_cons_iff in Hall as [Hx Hxs]. cbn [snd] in Hx.
  cbn [map fst] in Hnd. apply NoDup_cons_iff in Hnd as [Hk Hnd].
  destruct fuel as [|g]; [cbn in Hf; lia|]. cbn [length] in Hf.
  assert (Hka : ~ In k (map fst acc)) by (apply Hfresh; now left).
  destruct xs as [|y more].
  - cbn [map join fst snd]. rewrite member_text, members_S.
    change (N.eqb 34 34) with true. cbv iota.
    rewrite quote_units_reads.
    cbn [skip_ws is_ws N.eqb Pos.eqb orb]. cbv iota.
    change (N.eqb 58 58) with true. cbv iota.
    rewrite (value_blank g _ Hsp).
    rewrite (Hx g ltac:(lia) gap inner (pad' ++ 125%N :: rest) Hg Hi)
      by (apply stops_blank; [exact Hp' | reflexivity]).
    rewrite (skip_ws_blank _ Hp').
    cbn [skip_ws is_ws N.eqb Pos.eqb orb]. cbv iota.
    change (N.eqb 125 44) with false. change (N.eqb 125 125) with true. cbv iota.
    now rewrite (@put_fresh k v acc Hka).
  - rewrite join_map_cons. cbn [fst snd].
    rewrite <- app_assoc, member_text, members_S.
    change (N.eqb 34 34) with true. cbv iota.
    rewrite quote_units_reads.
    cbn [skip_ws is_ws N.eqb Pos.eqb orb]. cbv iota.
    change (N.eqb 58 58) with true. cbv iota.
    rewrite (value_blank g _ Hsp).
    rewrite <- !app_assoc. cbn [app].
    rewrite (Hx g ltac:(lia) gap inner _ Hg Hi) by reflexivity.
    cbn [skip_ws is_ws N.eqb Pos.eqb orb]. cbv iota.
    change (N.eqb 44 44) with true. cbv iota.
    rewrite (skip_ws_blank _ Hp).
    match goal with
    | |- members _ (skip_ws ?T) _ = _ =>
        replace (skip_ws T) with T
          by (destruct more; [|rewrite join_map_cons]; reflexivity)
    end.
    assert (Hfresh' : forall k', In k' (map fst (y :: more)) ->
                                 ~ In k' (map fst (put k v acc))).
    { intros k' Hin. rewrite (@put_fresh k v acc Hka), map_app. cbn [map fst].
      intros Hin'. apply in_app_or in Hin' as [Hin'|[<-|[]]].
      - apply (Hfresh k'); [now right | exact Hin'].
      - contradiction. }
    refine (eq_trans (IH ltac:(discriminate) Hxs Hnd g pad pad' rest (put k v acc)
                         ltac:(cbn [length] in *; lia) Hp Hp' Hfresh') _).
    rewrite (@put_fresh k v acc Hka), <- app_assoc. reflexivity.
Qed.

Lemma serialize_Arr (gap indent : str) (x : value) (xs : list value) :
  serialize ntos gap indent (Arr (x :: xs)) =
  match gap with
  | [] =>
      js "[" ++ join (js ",") (map (serialize ntos gap (indent ++ gap)) (x :: xs))
      ++ js "]"
  | _ :: _ =>
      js "[" ++ LF ++ (indent ++ gap)
      ++ join (js "," ++ LF ++ (indent ++ gap))
           (map (serialize ntos gap (indent ++ gap)) (x :: xs))
      ++ LF ++ indent ++ js "]"
  end.
Proof. reflexivity. Qed.

Lemma serialize_Obj (gap indent : str) (kv : str * value) (ms : list (str * value)) :
  serialize ntos gap indent (Obj (kv :: ms)) =
  let member (kv : str * value) :=
    quote (fst kv) ++ js ":" ++ match gap with [] => [] | _ :: _ => js " " end
    ++ serialize ntos gap (indent ++ gap) (snd kv) in
  match gap with
  | [] => js "{" ++ join (js ",") (map member (kv :: ms)) ++ js "}"
  | _ :: _ =>
      js "{" ++ LF ++ (indent ++ gap)
      ++ join (js "," ++ LF ++ (indent ++ gap)) (map member (kv :: ms))
      ++ LF ++ indent ++ js "}"
  end.
Proof. reflexivity. Qed.

Lemma wrap_text (o c : N) (pad J pad' rest : str) :
  ([o] ++ pad ++ J ++ pad' ++ [c]) ++ rest = o :: pad ++ J ++ pad' ++ c :: rest.
Proof. cbn [app]. now rewrite <- !app_assoc. Qed.

Lemma array_read (g : nat) (pad J tail : str) :
  blank pad ->
  (exists c t, J = c :: t /\ is_ws c = false /\ N.eqb c 93 = false) ->
  value_ (S g) (91%N :: pad ++ J ++ tail) = pmap Arr (elements g (J ++ tail)).
Proof.
  intros Hp (c & t & -> & Hw & Hc).
  rewrite value_S. cbn [skip_ws is_ws N.eqb Pos.eqb orb]. cbv iota.
  change (N.eqb 91 123) with false. change (N.eqb 91 91) with true. cbv iota.
  rewrite (skip_ws_blank _ Hp). cbn [app skip_ws]. rewrite Hw, Hc. reflexivity.
Qed.

Lemma object_read (g : nat) (pad J tail : str) :
  blank pad ->
  (exists t, J = 34%N :: t) ->
  value_ (S g) (123%N :: pad ++ J ++ tail) = pmap Obj (members g (J ++ tail) []).
Proof.
  intros Hp (t & ->).
  rewrite value_S. cbn [skip_ws is_ws N.eqb Pos.eqb orb]. cbv iota.
  change (N.eqb 123 123) with true. cbv iota.
  rewrite (skip_ws_blank _ Hp). reflexivity.
Qed.

Lemma join_head (sep : str) (gap inner : str) (x : value) (xs : list value) :
  canonical ntos x ->
  exists c t, join sep (map (serialize ntos gap inner) (x :: xs)) = c :: t /\
              is_ws c = false /\ N.eqb c 93 = false.
Proof.
  intros Hx. destruct (serialize_head gap inner x Hx) as (c & t & E & Hw & Hc).
  destruct xs as [|y more].
  - exists c, t. cbn [map join]. now rewrite E.
  - rewrite join_map_cons, E. now eexists _, _.
Qed.

Lemma join_members_head (sep sp gap inner : str) (kv : str * value)
    (ms : list (str * value)) :
  exists t,
    join sep (map (fun kv : str * value =>
                     quote (fst kv) ++ js ":" ++ sp ++ serialize ntos gap inner (snd kv))
                (kv :: ms)) = 34%N :: t.
Proof.
  destruct ms as [|y more]; [|rewrite join_map_cons]; eexists; reflexivity.
Qed.

Lemma canonical_items (items : list value) :
  canonical ntos (Arr items) -> Forall (canonical ntos) items.
Proof.
  induction items as [|x xs IH]; [constructor|].
  intros [Hx Hxs]. constructor; [exact Hx | exact (IH Hxs)].
Qed.

Lemma canonical_members (ms : list (str * value)) :
  canonical ntos (Obj ms) ->
  NoDup (map fst ms) /\ Forall (fun kv => canonical ntos (snd kv)) ms.
Proof.
  intros [Hnd Hall]. split; [exact Hnd|]. clear Hnd.
  induction ms as [|x xs IH]; [constructor|].
  destruct Hall as (_ & Hx & Hxs). constructor; [exact Hx | exact (IH Hxs)].
Qed.

Lemma reads_back_mono (v : value) (n m : nat) :
  reads_back ntos v n -> n <= m -> reads_back ntos v m.
Proof. intros H Hnm fuel Hf. apply H. lia. Qed.

Lemma common_budget {A : Type} (f : A -> value) (l : list A) :
  Forall (fun x => canonical ntos (f x) -> exists n, reads_back ntos (f x) n) l ->
  Forall (fun x => canonical ntos (f x)) l ->
  exists n, Forall (fun x => reads_back ntos (f x) n) l.
Proof.
  induction l as [|x xs IH]; intros HP Hc; [exists 0; constructor|].
  apply Forall_cons_iff in HP as [HPx HPxs]. apply Forall_cons_iff in Hc as [Hcx Hcxs].
  destruct (HPx Hcx) as [n Hn]. destruct (IH HPxs Hcxs) as [m Hm].
  exists (n + m). constructor.
  - apply (reads_back_mono Hn). lia.
  - eapply Forall_impl; [|exact Hm]. intros y Hy. apply (reads_back_mono Hy). lia.
Qed.

(** Every canonical value is read back from its text, at any indentation. *)
Lemma serialize_reads_back (v : value) :
  canonical ntos v -> exists n, reads_back ntos v n.
Proof.
  induction v as [| b | l | s | items IH | ms IH] using value_induction; intros Hc.
  - exists 1. intros [|g] Hf gap indent rest _ _ _; [lia|]. reflexivity.
  - exists 1. intros [|g] Hf gap indent rest _ _ _; [lia|]. now destruct b.
  - exists 1. intros [|g] Hf gap indent rest _ _ Hr; [lia|].
    destruct Hc as [Hn Hl]. cbn [serialize]. rewrite Hl.
    pose proof (number_extend l rest Hn (fun _ => Hr)) as E. cbn [app] in E.
    destruct (number_head _ Hn) as (c & t & -> & Hd).
    destruct (is_digit_start Hd) as (H1 & H2 & H3 & H4 & H5 & H6 & H7 & _).
    rewrite value_S. cbn [app skip_ws]. rewrite H1, H2, H3, H4, H5, H6, H7.
    cbn [app] in E. rewrite E. reflexivity.
  - exists 1. intros [|g] Hf gap indent rest _ _ _; [lia|].
    cbn [serialize]. unfold quote. rewrite <- !app_assoc. cbn [app].
    rewrite value_S. cbn [skip_ws is_ws N.eqb Pos.eqb orb]. cbv iota.
    change (N.eqb 34 123) with false. change (N.eqb 34 91) with false.
    change (N.eqb 34 34) with true. cbv iota.
    now rewrite quote_units_reads.
  - destruct items as [|x xs].
    { exists 1. intros [|g] Hf gap indent rest _ _ _; [lia|]. reflexivity. }
    pose proof (@canonical_items _ Hc) as Hall.
    destruct (@common_budget value (fun x => x) (x :: xs) IH Hall) as [n Hn].
    assert (Hx : canonical ntos x) by (now apply Forall_cons_iff in Hall).
    exists (S (n + length (x :: xs))).
    intros [|g] Hf gap indent rest Hg Hi _; [lia|].
    rewrite serialize_Arr.
    assert (Hin : blank (indent ++ gap)) by now apply blank_app.
    destruct gap as [|g0 gap'].
    + refine (eq_trans (f_equal (value_ (S g))
                (wrap_text 91 93 [] (join (js ",")
                   (map (serialize ntos [] (indent ++ [])) (x :: xs))) [] rest)) _).
      rewrite (@array_read g [] _ _ (Forall_nil _) (@join_head _ _ _ x xs Hx)).
      exact (f_equal (pmap Arr) (@elements_read n [] (indent ++ []) (x :: xs) ltac:(discriminate) Hn
                 Hg Hin g [] [] rest ltac:(lia) (Forall_nil _) (Forall_nil _))).
    + set (gap := g0 :: gap') in *.
      assert (Hp : blank (LF ++ indent ++ gap)) by (apply blank_app; [apply blank_LF | exact Hin]).
      assert (Hp' : blank (LF ++ indent)) by (apply blank_app; [apply blank_LF | exact Hi]).
      refine (eq_trans (f_equal (value_ (S g))
                (wrap_text 91 93 (LF ++ indent ++ gap)
                   (join (44%N :: LF ++ indent ++ gap)
                      (map (serialize ntos gap (indent ++ gap)) (x :: xs)))
                   (LF ++ indent) rest)) _).
      rewrite (@array_read g _ _ _ Hp (@join_head _ _ _ x xs Hx)).
      exact (f_equal (pmap Arr) (@elements_read n gap (indent ++ gap) (x :: xs) ltac:(discriminate) Hn
                 Hg Hin g _ _ rest ltac:(lia) Hp Hp')).
  - destruct ms as [|kv ms'].
    { exists 1. intros [|g] Hf gap indent rest _ _ _; [lia|]. reflexivity. }
    destruct (@canonical_members _ Hc) as [Hnd Hall].
    destruct (@common_budget (str * value) snd (kv :: ms') IH Hall) as [n Hn].
    exists (S (n + length (kv :: ms'))).
    intros [|g] Hf gap indent rest Hg Hi _; [lia|].
    rewrite serialize_Obj. cbv zeta.
    assert (Hin : blank (indent ++ gap)) by now apply blank_app.
    destruct gap as [|g0 gap'].
    + refine (eq_trans (f_equal (value_ (S g))
                (wrap_text 123 125 []
                   (join (js ",")
                      (map (fun kv : str * value =>
                              quote (fst kv) ++ js ":" ++ []
                              ++ serialize ntos [] (indent ++ []) (snd kv))
                         (kv :: ms'))) [] rest)) _).
      rewrite (@object_read g [] _ _ (Forall_nil _) (@join_members_head _ _ _ _ _ _)).
      exact (f_equal (pmap Obj) (@members_read n [] (indent ++ []) [] (kv :: ms') ltac:(discriminate) Hn Hnd
                 Hg Hin (Forall_nil _) g [] [] rest [] ltac:(lia) (Forall_nil _)
                 (Forall_nil _) (fun _ _ H => H))).
    + set (gap := g0 :: gap') in *.
      assert (Hp : blank (LF ++ indent ++ gap)) by (apply blank_app; [apply blank_LF | exact Hin]).
      assert (Hp' : blank (LF ++ indent)) by (apply blank_app; [apply blank_LF | exact Hi]).
      assert (Hsp : blank (js " ")) by (repeat constructor).
      refine (eq_trans (f_equal (value_ (S g))
                (wrap_text 123 125 (LF ++ indent ++ gap)
                   (join (44%N :: LF ++ indent ++ gap)
                      (map (fun kv : str * value =>
                              quote (fst kv) ++ js ":" ++ js " "
                              ++ serialize ntos gap (indent ++ gap) (snd kv))
                         (kv :: ms')))
                   (LF ++ indent) rest)) _).
      rewrite (@object_read g _ _ _ Hp (@join_members_head _ _ _ _ _ _)).
      exact (f_equal (pmap Obj) (@members_read n gap (indent ++ gap) (js " ") (kv :: ms') ltac:(discriminate)
                 Hn Hnd Hg Hin Hsp g _ _ rest [] ltac:(lia) Hp Hp' (fun _ _ H => H))).
Qed.

(** [JSON.parse] reads the text of a canonical value back as the value,
    whatever the indentation. *)
Lemma serialize_parse (gap indent : str) (v : value) :
  blank gap -> blank indent -> canonical ntos v ->
  parse (serialize ntos gap indent v) = Return v.
Proof.
  intros Hg Hi Hc. destruct (@serialize_reads_back _ Hc) as [n Hn].
  pose proof (Hn (n + (2 * length (serialize ntos gap indent v) + 1)) ltac:(lia)
                gap indent [] Hg Hi eq_refl) as E.
  rewrite app_nil_r in E.
  rewrite (@budget_mono _ n _ (ParseFacts.parse_within_budget _)) in E.
  unfold parse. rewrite E. reflexivity.
Qed.

(** The text of an object is what is between its braces. *)
Lemma object_text (gap indent : str) (ms : list (str * value)) :
  exists body, serialize ntos gap indent (Obj ms) = js "{" ++ body ++ js "}".
Proof.
  destruct ms as [|kv ms']; [now exists []|].
  rewrite serialize_Obj. cbv zeta. destruct gap as [|g0 gap'].
  - eexists. reflexivity.
  - match goal with
    | |- exists body, js "{" ++ LF ++ ?i ++ ?J ++ LF ++ indent ++ js "}" = _ =>
        exists (LF ++ i ++ J ++ LF ++ indent)
    end.
    rewrite <- !app_assoc. reflexivity.
Qed.

(** ** Compact text is one line *)

Lemma hex_char_not_lf (n : N) : hex_char n <> 10%N.
Proof. unfold hex_char. destruct (N.ltb n 10); lia. Qed.

Lemma unicode_escape_one_line (c : N) : ~ In 10%N (unicode_escape c).
Proof.
  unfold unicode_escape. intros [H|[H|[H|[H|[H|[H|[]]]]]]]; try discriminate;
    now apply hex_char_not_lf in H.
Qed.

Lemma escape_unit_one_line (c : N) : ~ In 10%N (escape_unit c).
Proof.
  unfold escape_unit.
  destruct (N.eqb c 8); [intros [H|[H|[]]]; discriminate|].
  destruct (N.eqb c 9); [intros [H|[H|[]]]; discriminate|].
  destruct (N.eqb_spec c 10) as [|Hc]; [intros [H|[H|[]]]; discriminate|].
  destruct (N.eqb c 12); [intros [H|[H|[]]]; discriminate|].
  destruct (N.eqb c 13); [intros [H|[H|[]]]; discriminate|].
  destruct (N.eqb c 34); [intros [H|[H|[]]]; discriminate|].
  destruct (N.eqb c 92); [intros [H|[H|[]]]; discriminate|].
  destruct (N.ltb c 32); [apply unicode_escape_one_line|].
  intros [H|[]]. now apply Hc.
Qed.

Lemma one_line_app (a b : str) : ~ In 10%N a -> ~ In 10%N b -> ~ In 10%N (a ++ b).
Proof. intros Ha Hb H. apply in_app_or in H as [H|H]; auto. Qed.

Lemma quote_units_one_line (s : str) : ~ In 10%N (quote_units s).
Proof.
  remember (length s) as n eqn:Hn.
  assert (Hle : length s <= n) by lia. clear Hn.
  revert s Hle. induction n as [|n IH]; intros s Hle.
  - destruct s; [intros [] | simpl in Hle; lia].
  - destruct s as [|c t]; [intros []|]. simpl in Hle.
    cbn [quote_units].
    destruct (is_lead c) eqn:Hl.
    + destruct t as [|d t']; [apply unicode_escape_one_line|].
      destruct (is_trail d) eqn:Htd.
      * unfold is_lead in Hl. unfold is_trail in Htd.
        apply andb_true_iff in Hl as [Hl _]. apply andb_true_iff in Htd as [Htd _].
        apply N.leb_le in Hl, Htd.
        intros [H|[H|H]]; [lia | lia |].
        revert H. apply IH. simpl in *; lia.
      * apply one_line_app; [apply unicode_escape_one_line | apply IH; lia].
    + destruct (is_trail c).
      * apply one_line_app; [apply unicode_escape_one_line | apply IH; lia].
      * apply one_line_app; [apply escape_unit_one_line | apply IH; lia].
Qed.

Lemma quote_one_line (s : str) : ~ In 10%N (quote s).
Proof.
  unfold quote. apply one_line_app; [intros [H|[]]; discriminate|].
  apply one_line_app; [apply quote_units_one_line | intros [H|[]]; discriminate].
Qed.

Lemma number_one_line (s lex r : str) : number s = Parsed lex r -> ~ In 10%N lex.
Proof.
  unfold number.
  destruct (sign_part s) as [sg s1] eqn:E1.
  destruct (ParseFacts.sign_part_reads _ E1) as [_ H1].
  destruct (int_part s1) as [[i s2]|] eqn:E2; [|discriminate].
  destruct (ParseFacts.int_part_reads _ E2) as (_ & H2 & _).
  destruct (frac_part s2) as [[f s3]|] eqn:E3; [|discriminate].
  destruct (ParseFacts.frac_part_reads _ E3) as [_ H3].
  destruct (exp_part s3) as [[e s4]|] eqn:E4; [|discriminate].
  destruct (ParseFacts.exp_part_reads _ E4) as [_ H4].
  intros H; inversion H; subst. intros Hin.
  assert (Hall : Forall plain (sg ++ i ++ f ++ e)) by (repeat (apply Forall_app; split); assumption).
  rewrite Forall_forall in Hall. now destruct (Hall _ Hin).
Qed.

Lemma join_one_line (sep : str) (parts : list str) :
  ~ In 10%N sep -> Forall (fun p => ~ In 10%N p) parts -> ~ In 10%N (join sep parts).
Proof.
  intros Hs H. induction H as [|p ps Hp Hps IH]; [intros []|].
  destruct ps as [|q more]; [exact Hp|].
  change (join sep (p :: q :: more)) with (p ++ sep ++ join sep (q :: more)).
  apply one_line_app; [exact Hp | apply one_line_app; [exact Hs | exact IH]].
Qed.

(** [JSON.stringify] without a gap writes no line feed. *)
Lemma compact_one_line (v : value) :
  canonical ntos v -> forall indent, ~ In 10%N (serialize ntos [] indent v).
Proof.
  induction v as [| b | l | s | items IH | ms IH] using value_induction;
    intros Hc indent.
  - intros [H|[H|[H|[H|[]]]]]; discriminate.
  - destruct b; cbn; intuition discriminate.
  - destruct Hc as [Hn Hl]. cbn [serialize]. rewrite Hl.
    exact (number_one_line _ Hn).
  - apply quote_one_line.
  - destruct items as [|x xs]; [intros [H|[H|[]]]; discriminate|].
    rewrite serialize_Arr.
    apply one_line_app; [intros [H|[]]; discriminate|].
    apply one_line_app; [|intros [H|[]]; discriminate].
    apply join_one_line; [intros [H|[]]; discriminate|].
    apply Forall_map. pose proof (@canonical_items _ Hc) as Hall.
    rewrite Forall_forall in IH, Hall |- *. intros y Hy. apply (IH y Hy (Hall y Hy)).
  - destruct ms as [|kv ms']; [intros [H|[H|[]]]; discriminate|].
    rewrite serialize_Obj. cbv zeta.
    apply one_line_app; [intros [H|[]]; discriminate|].
    apply one_line_app; [|intros [H|[]]; discriminate].
    apply join_one_line; [intros [H|[]]; discriminate|].
    apply Forall_map. destruct (@canonical_members _ Hc) as [_ Hall].
    rewrite Forall_forall in IH, Hall |- *. intros y Hy.
    apply one_line_app; [apply quote_one_line|].
    apply one_line_app; [intros [H|[]]; discriminate|].
    cbn [app]. apply (IH y Hy (Hall y Hy)).
Qed.

End Values.
End RoundTrip.

(* ================================================================== *)
(** * What is written is read back *)
(* ================================================================== *)

(** X13: the catalogue that [formatToolsForPrompt] writes into the system
    prompt is JSON text that [JSON.parse] reads back as the list of tools it
    was written from, when the tools are canonical values. *)
Theorem tool_catalog_reads_back (ntos : str -> str) (tools : list Tool) :
  Forall (canonical ntos) tools ->
  JSON.parse (formatToolsForPrompt ntos tools) = Return (JSON.Arr tools).
Proof.
  intros H. unfold formatToolsForPrompt, Serialize.stringify_indent2.
  apply RoundTrip.serialize_parse; [repeat constructor | constructor |].
  induction H as [|x xs Hx _ IH]; [exact I | split; [exact Hx | exact IH]].
Qed.

Lemma tool_catalog_reads_back_witness :
  JSON.parse (formatToolsForPrompt Examples.literal_text [Examples.echo_tool])
  = Return (JSON.Arr [Examples.echo_tool]).
Proof.
  apply tool_catalog_reads_back.
  repeat constructor; cbn; intuition discriminate.
Defined.

(** X14: the text that a turn keeps of a tool result that is a canonical
    value is JSON text on one line that [JSON.parse] reads back as the
    result. *)
Theorem tool_output_reads_back
    (ntos : str -> str) (w : world) (toolName arguments_ : JSON.value) (name : str)
    (v : JSON.value) :
  call_tool w toolName arguments_ = Return (Data v) ->
  canonical ntos v ->
  exists text,
    tool_output ntos w toolName arguments_ name = Some text /\
    ~ In 10%N text /\
    JSON.parse text = Return v.
Proof.
  intros Hc Hv. exists (Serialize.stringify ntos v). unfold tool_output. rewrite Hc.
  split; [reflexivity|]. split.
  - apply RoundTrip.compact_one_line; exact Hv.
  - apply RoundTrip.serialize_parse; [constructor | constructor | exact Hv].
Qed.

Lemma tool_output_reads_back_witness :
  exists text,
    tool_output Examples.literal_text Examples.echo_world
      Examples.echo_name Examples.echo_arguments (js "svc.echo") = Some text /\
    ~ In 10%N text /\
    JSON.parse text = Return (JSON.Obj [(js "received", JSON.Str (js "hi"))]).
Proof.
  apply tool_output_reads_back; [reflexivity|].
  repeat constructor; cbn; intuition discriminate.
Defined.

(** X15: a reply that is nothing but the compact text [JSON.stringify]
    gives for a canonical object is a tool call exactly when the object has
    the two keys, and then with the values the object has under them. *)
Theorem compact_directive_is_understood
    (ntos : str -> str) (ms : list (str * JSON.value)) :
  canonical ntos (JSON.Obj ms) ->
  interpret (Serialize.stringify ntos (JSON.Obj ms)) =
  match JSON.get (js "tool_name") ms, JSON.get (js "arguments") ms with
  | Some toolName, Some arguments_ => Some (toolName, arguments_)
  | _, _ => None
  end.
Proof.
  intros Hc. rewrite interpret_candidate.
  pose proof (@RoundTrip.serialize_parse ntos [] [] _ (Forall_nil _) (Forall_nil _) Hc) as Hp.
  pose proof (@RoundTrip.compact_one_line ntos _ Hc []) as Hl.
  unfold Serialize.stringify in *.
  destruct (RoundTrip.object_text ntos [] [] ms) as [body E].
  rewrite E in *.
  assert (Hcand : candidate (js "{" ++ body ++ js "}") = Some (js "{" ++ body ++ js "}")).
  { unfold candidate, fenced_span, brace_span.
    destruct (split_first fence_open (js "{" ++ body ++ js "}")) as [[b after]|] eqn:Ef.
    - exfalso. apply Hl. apply (@split_first_In _ _ _ _ 10%N Ef).
      unfold fence_open. cbn. tauto.
    - assert (H1 : split_first (js "{") (js "{" ++ body ++ js "}")
                   = Some ([], body ++ [125%N])) by reflexivity.
      rewrite H1, (@split_last_unit 125%N body [] (fun H => H)). reflexivity. }
  rewrite Hcand, Hp. reflexivity.
Qed.

Lemma compact_directive_is_understood_witness :
  interpret (Serialize.stringify Examples.literal_text
               (JSON.Obj [(js "tool_name", Examples.echo_name);
                          (js "arguments", Examples.echo_arguments)]))
  = Some (Examples.echo_name, Examples.echo_arguments).
Proof.
  apply (@compact_directive_is_understood Examples.literal_text
           [(js "tool_name", Examples.echo_name);
            (js "arguments", Examples.echo_arguments)]).
  repeat constructor; cbn; intuition discriminate.
Defined.

(** X16: a reply in which the text of a canonical object, compact or
    indented, stands in the first fence marked [json] is a tool call exactly
    when the object has the two keys, whatever precedes the fence and
    follows it. *)
Theorem fenced_directive_is_understood
    (ntos : str -> str) (gap pre post : str) (ms : list (str * JSON.value)) :
  canonical ntos (JSON.Obj ms) ->
  blank gap ->
  split_first fence_open (pre ++ fence_open) = Some (pre, []) ->
  interpret (pre ++ js "```json" ++ LF ++ Serialize.serialize ntos gap [] (JSON.Obj ms)
             ++ LF ++ js "```" ++ post) =
  match JSON.get (js "tool_name") ms, JSON.get (js "arguments") ms with
  | Some toolName, Some arguments_ => Some (toolName, arguments_)
  | _, _ => None
  end.
Proof.
  intros Hc Hg Hpre. rewrite interpret_candidate.
  pose proof (@RoundTrip.serialize_parse ntos gap [] _ Hg (Forall_nil _) Hc) as Hp.
  destruct (RoundTrip.object_text ntos gap [] ms) as [body E].
  rewrite E in *.
  pose proof (ParseFacts.parse_no_lf_backtick _ Hp) as Hn.
  apply no_lf_backtick_tail in Hn.
  assert (Hcand : candidate (pre ++ js "```json" ++ LF ++ (js "{" ++ body ++ js "}")
                             ++ LF ++ js "```" ++ post)
                  = Some (js "{" ++ body ++ js "}")).
  { replace (pre ++ js "```json" ++ LF ++ (js "{" ++ body ++ js "}")
             ++ LF ++ js "```" ++ post)
      with (pre ++ fence_open ++ (body ++ fence_close ++ post))
      by (unfold fence_open, fence_close; rewrite <- !app_assoc; reflexivity).
    unfold candidate, fenced_span.
    rewrite (@split_first_extend fence_open pre _ Hpre).
    rewrite (@split_first_extend fence_close body post (@closing_fence_is_first body Hn)).
    reflexivity. }
  rewrite Hcand, Hp. reflexivity.
Qed.

Lemma fenced_directive_is_understood_witness :
  interpret (js "Calling: " ++ js "```json" ++ LF
             ++ Serialize.serialize Examples.literal_text (js "  ") []
                  (JSON.Obj [(js "tool_name", Examples.echo_name);
                             (js "arguments", Examples.echo_arguments)])
             ++ LF ++ js "```" ++ js " Done.")
  = Some (Examples.echo_name, Examples.echo_arguments).
Proof.
  apply (@fenced_directive_is_understood Examples.literal_text
           (js "  ") (js "Calling: ") (js " Done.")
           [(js "tool_name", Examples.echo_name);
            (js "arguments", Examples.echo_arguments)]).
  - repeat constructor; cbn; intuition discriminate.
  - repeat constructor.
  - reflexivity.
Defined.


(** X17: two lists of canonical tools that give the same system prompt are
    the same list: the prompt loses nothing of the catalogue. *)
Theorem system_prompt_determines_catalog
    (ntos : str -> str) (tools tools' : list Tool) :
  Forall (canonical ntos) tools ->
  Forall (canonical ntos) tools' ->
  systemPrompt ntos tools = systemPrompt ntos tools' ->
  tools = tools'.
Proof.
  intros H H' E. unfold systemPrompt in E. apply app_inv_head in E.
  assert (Hp : forall l, Forall (canonical ntos) l ->
                         JSON.parse (formatToolsForPrompt ntos l) = Return (JSON.Arr l)).
  { intros l Hl. unfold formatToolsForPrompt, Serialize.stringify_indent2.
    apply RoundTrip.serialize_parse; [repeat constructor | constructor |].
    induction Hl as [|x xs Hx _ IH]; [exact I | split; [exact Hx | exact IH]]. }
  pose proof (Hp _ H) as P. rewrite E, (Hp _ H') in P. now inversion P.
Qed.

Lemma system_prompt_determines_catalog_witness :
  [Examples.echo_tool] = [Examples.echo_tool].
Proof.
  apply (@system_prompt_determines_catalog Examples.literal_text
           [Examples.echo_tool] [Examples.echo_tool]).
  - repeat constructor; cbn; intuition discriminate.
  - repeat constructor; cbn; intuition discriminate.
  - reflexivity.
Defined.

(** X18: when the body posted to [/test] is an object whose [value] is a
    string, the endpoint answers 200 and the text that [res.json] sends is
    read back by [JSON.parse] as an object with that very string as
    [received], whatever code units the string has. *)
Theorem echo_reads_back
    (ntos : str -> str) (ms : list (str * JSON.value)) (value : str) :
  JSON.get (js "value") ms = Some (JSON.Str value) ->
  exists r,
    EchoServer.post_test (JSON.Obj ms) = Return r /\
    EchoServer.status r = 200 /\
    JSON.parse (Serialize.stringify ntos (EchoServer.payload r))
      = Return (JSON.Obj [(js "received", JSON.Str value)]).
Proof.
  intros H. eexists. cbn [EchoServer.post_test]. rewrite H.
  split; [reflexivity|]. split; [reflexivity|].
  cbn [EchoServer.payload].
  apply RoundTrip.serialize_parse; [constructor | constructor |].
  repeat constructor. intros [].
Qed.

Lemma echo_reads_back_witness :
  exists r,
    EchoServer.post_test
      (JSON.Obj [(js "value", JSON.Str (js "hello from the client!"))]) = Return r /\
    EchoServer.status r = 200 /\
    JSON.parse (Serialize.stringify Examples.literal_text (EchoServer.payload r))
      = Return (JSON.Obj [(js "received", JSON.Str (js "hello from the client!"))]).
Proof.
  apply (@echo_reads_back Examples.literal_text
           [(js "value", JSON.Str (js "hello from the client!"))]).
  reflexivity.
Defined.

(** X19: the endpoint answers 200 only to an object whose [value] is a
    string, and what it then sends has that string, and nothing else, under
    [received]. *)
Theorem echo_accepts_only_strings (body : JSON.value) (r : EchoServer.reply) :
  EchoServer.post_test body = Return r ->
  EchoServer.status r = 200 ->
  exists ms value,
    body = JSON.Obj ms /\
    JSON.get (js "value") ms = Some (JSON.Str value) /\
    EchoServer.payload r = JSON.Obj [(js "received", JSON.Str value)].
Proof.
  unfold EchoServer.post_test. intros H Hs.
  destruct body as [| b | l | s | items | ms];
    try (inversion H; subst r; discriminate Hs).
  destruct (JSON.get (js "value") ms) as [[| b | l | s | items | ms']|] eqn:E;
    inversion H; subst r; try discriminate Hs.
  now exists ms, s.
Qed.

Lemma echo_accepts_only_strings_witness :
  exists ms value,
    JSON.Obj [(js "value", JSON.Str (js "hi")); (js "extra", JSON.Null)] = JSON.Obj ms /\
    JSON.get (js "value") ms = Some (JSON.Str value) /\
    JSON.Obj [(js "received", JSON.Str (js "hi"))]
      = JSON.Obj [(js "received", JSON.Str value)].
Proof.
  apply (@echo_accepts_only_strings
           (JSON.Obj [(js "value", JSON.Str (js "hi")); (js "extra", JSON.Null)])
           {| EchoServer.status := 200;
              EchoServer.payload := JSON.Obj [(js "received", JSON.Str (js "hi"))] |});
    reflexivity.
Defined.
